(** * The alignment-diff engine of scripts/minimap2.py

    A shallow embedding of [matchmaker], [encode_diffs], [check_miss],
    [merge_diffs], [parse_mm2] and [get_frequencies], followed by the
    properties of the specification that concern them.

    Python values are modelled as follows.
    - [int] is [Z]; [str] is [string]; a one-character [str] taken out of a
      string by iteration is an [ascii].
    - a [list] is a [list]; a [dict] is a [gmap]; the depth table
      [total_coverage] is a [gmap Z Z].
    - a [float] is a binary64 [PrimFloat.float]; the true division of two
      ints is the exact quotient rounded once to the nearest float, ties to
      even: see [reciprocal].
    - a call either returns, raises an exception, or ends the interpreter
      through [sys.exit()]: see [outcome]. *)

From stdpp Require Import gmap strings list fin_maps pretty.
From Stdlib Require Import Ascii PrimFloat.
From Stdlib Require SpecFloat FloatOps.

#[local] Open Scope Z_scope.

(** ** Outcomes *)

Inductive exn := IndexError | KeyError.

Inductive outcome (A : Type) :=
  | Returned (a : A)
  | Raised (e : exn)
  | SystemExit.
Arguments Returned {A} a.
Arguments Raised {A} e.
Arguments SystemExit {A}.

#[global] Instance outcome_ret : MRet outcome := @Returned.
#[global] Instance outcome_bind : MBind outcome := λ A B f m,
  match m with
  | Returned a => f a
  | Raised e => Raised e
  | SystemExit => SystemExit
  end.
#[global] Instance outcome_fmap : FMap outcome := λ A B f m,
  match m with
  | Returned a => Returned (f a)
  | Raised e => Raised e
  | SystemExit => SystemExit
  end.

#[global] Instance exn_eq_dec : EqDecision exn.
Proof. solve_decision. Defined.

Definition returned {A} (m : outcome A) : Prop := ∃ a, m = Returned a.

(** ** Python primitives used by the script *)

Module Py.

(** [l[i]] for a non-negative index. *)
Definition index {A} (l : list A) (i : nat) : outcome A :=
  match l !! i with
  | Some x => Returned x
  | None => Raised IndexError
  end.

(** [d[k]] on a dict. *)
Definition getitem `{Countable K} {V} (d : gmap K V) (k : K) : outcome V :=
  match d !! k with
  | Some v => Returned v
  | None => Raised KeyError
  end.

(** [s[left:left + length]] for [0 <= left] and [0 <= length]: the slice
    is clamped to the end of the string. *)
Definition slice (s : string) (left length : Z) : string :=
  String.substring (Z.to_nat left) (Z.to_nat length) s.

(** [s[i]] on a string. *)
Definition str_index (s : string) (i : nat) : outcome ascii :=
  match String.get i s with
  | Some c => Returned c
  | None => Raised IndexError
  end.

(** [c in s] for a one-character [c]. *)
Fixpoint char_in (c : ascii) (s : string) : bool :=
  match s with
  | EmptyString => false
  | String c' s' => if decide (c = c') then true else char_in c s'
  end.

(** [ord(c)]. *)
Definition ord (c : ascii) : Z := Z.of_N (Ascii.N_of_ascii c).

(** [enumerate(s)]. *)
Definition enumerate (s : string) : list (nat * ascii) :=
  imap (λ i c, (i, c)) (String.list_ascii_of_string s).

(** [str(n)] on an int. *)
Definition str (n : Z) : string := pretty n.

(** One character as a string. *)
Definition chr (c : ascii) : string := String c EmptyString.

(** [int(s)] on a non-empty run of ASCII digits. *)
Definition digit_value (c : ascii) : Z := ord c - 48.
Definition int (s : string) : Z :=
  foldl (λ acc c, 10 * acc + digit_value c) 0 (String.list_ascii_of_string s).

(** [c * n] *)
Fixpoint repeat (c : ascii) (n : nat) : string :=
  match n with
  | O => EmptyString
  | S n' => String c (repeat c n')
  end.

End Py.

(** ** Alignment records and their differences from the reference *)

(** A row of [minimap2()]: [(qname, rpos, cigar, seq, qual)]. *)
Record Row := mkRow {
  row_qname : string;
  row_rpos : Z;
  row_cigar : string;
  row_seq : string;
  row_qual : string;
}.

(** The third component of a diff tuple: a string for ['~'] and ['+'], an
    int for ['-']. *)
Inductive payload := PStr (s : string) | PInt (n : Z).

(** A diff tuple [(typ, pos, mut)]. *)
Record Diff := mkDiff { typ : ascii; pos : Z; mut : payload }.

#[global] Instance payload_eq_dec : EqDecision payload.
Proof. solve_decision. Defined.
#[global] Instance Diff_eq_dec : EqDecision Diff.
Proof. solve_decision. Defined.
#[global] Instance Row_eq_dec : EqDecision Row.
Proof. solve_decision. Defined.

Definition Substitution (p : Z) (nt : ascii) : Diff := mkDiff "~" p (PStr (Py.chr nt)).
Definition Insertion (p : Z) (s : string) : Diff := mkDiff "+" p (PStr s).
Definition Deletion (p : Z) (len : Z) : Diff := mkDiff "-" p (PInt len).

(** A missing range [(start, end)]. *)
Abbreviation MissingRange := (Z * Z)%type.

(** ** The CIGAR tokenizer: [re.findall(r'(\d+)([MIDNSHPX=])', cigar)] *)

(** The operator characters of the pattern's character class. *)
Inductive operator := OpM | OpI | OpD | OpN | OpS | OpH | OpP | OpX | OpEq.

#[global] Instance operator_eq_dec : EqDecision operator.
Proof. solve_decision. Defined.

Definition operator_of_ascii (c : ascii) : option operator :=
  if decide (c = "M"%char) then Some OpM
  else if decide (c = "I"%char) then Some OpI
  else if decide (c = "D"%char) then Some OpD
  else if decide (c = "N"%char) then Some OpN
  else if decide (c = "S"%char) then Some OpS
  else if decide (c = "H"%char) then Some OpH
  else if decide (c = "P"%char) then Some OpP
  else if decide (c = "X"%char) then Some OpX
  else if decide (c = "="%char) then Some OpEq
  else None.

(** [\d], on a string of ASCII characters. *)
Definition is_digit (c : ascii) : bool :=
  bool_decide (48 ≤ Py.ord c ≤ 57).

(** A left-to-right scan: [run] holds the digits read since the last
    non-digit or the last match.  A match is a maximal non-empty run of
    digits directly followed by an operator character; anything else is
    skipped, as [findall] does. *)
Fixpoint findall_from (run : string) (s : string) : list (string * operator) :=
  match s with
  | EmptyString => []
  | String c s' =>
      if is_digit c then findall_from (run +:+ Py.chr c) s'
      else match operator_of_ascii c with
           | Some op =>
               if decide (run = EmptyString) then findall_from EmptyString s'
               else (run, op) :: findall_from EmptyString s'
           | None => findall_from EmptyString s'
           end
  end.

Definition findall (cigar : string) : list (string * operator) :=
  findall_from EmptyString cigar.

(** ** [encode_diffs] *)

(** The local variables of the loop over the tokens. *)
Record EncState := mkEnc {
  left : Z;
  rpos : Z;
  diffs : list Diff;
  missing : list MissingRange;
}.

Section encode_diffs.
Variables (reflen : Z) (alphabet : string) (minq : Z).

(** The inner loop of the ['X'] branch, one base of the run. *)
Definition mismatch_base (rpos : Z) (subqual : string)
    (acc : list Diff * list MissingRange) (ic : nat * ascii)
    : outcome (list Diff * list MissingRange) :=
  let '(i, nt) := ic in
  c ← Py.str_index subqual i;
  let q := Py.ord c - 33 in
  if Py.char_in nt alphabet && bool_decide (minq ≤ q)
  then mret (acc.1 ++ [Substitution (rpos + Z.of_nat i) nt], acc.2)
  else mret (acc.1, acc.2 ++ [(rpos + Z.of_nat i, rpos + Z.of_nat i + 1)]).

Fixpoint mismatch_run (rpos : Z) (subqual : string)
    (acc : list Diff * list MissingRange) (bases : list (nat * ascii))
    : outcome (list Diff * list MissingRange) :=
  match bases with
  | [] => mret acc
  | ic :: bases' =>
      acc' ← mismatch_base rpos subqual acc ic;
      mismatch_run rpos subqual acc' bases'
  end.

(** One iteration of [for length, operator in tokens]. *)
Definition encode_token (seq qual : string) (st : EncState)
    (tok : string * operator) : outcome EncState :=
  let length := Py.int tok.1 in
  let substr := Py.slice seq (left st) length in
  let subqual := Py.slice qual (left st) length in
  match tok.2 with
  | OpX =>
      '(ds, ms) ←
        (if Py.char_in "N" substr
         then mret (diffs st, missing st ++ [(rpos st, rpos st + length)])
         else mismatch_run (rpos st) subqual (diffs st, missing st)
                (Py.enumerate substr));
      mret (mkEnc (left st + length) (rpos st + length) ds ms)
  | OpS =>
      mret (mkEnc (left st + length) (rpos st) (diffs st) (missing st))
  | OpI =>
      mret (mkEnc (left st + length) (rpos st)
              (diffs st ++ [Insertion (rpos st) substr]) (missing st))
  | OpD =>
      mret (mkEnc (left st) (rpos st + length)
              (diffs st ++ [Deletion (rpos st) length]) (missing st))
  | OpEq =>
      mret (mkEnc (left st + length) (rpos st + length) (diffs st) (missing st))
  | OpH => mret st
  | OpM | OpN | OpP => SystemExit
  end.

Fixpoint encode_tokens (seq qual : string) (st : EncState)
    (tokens : list (string * operator)) : outcome EncState :=
  match tokens with
  | [] => mret st
  | tok :: tokens' =>
      st' ← encode_token seq qual st tok;
      encode_tokens seq qual st' tokens'
  end.

(** The state before the loop. *)
Definition encode_init (row : Row) : EncState :=
  mkEnc 0 (row_rpos row) []
    (if decide (row_rpos row > 0) then [(0, row_rpos row)] else []).

(** The state when the loop over the tokens is left. *)
Definition encode_loop (row : Row) : outcome EncState :=
  encode_tokens (row_seq row) (row_qual row) (encode_init row)
    (findall (row_cigar row)).

Definition encode_diffs (row : Row)
    : outcome (string * list Diff * list MissingRange) :=
  st ← encode_loop row;
  let missing :=
    if decide (rpos st < reflen) then missing st ++ [(rpos st, reflen)]
    else missing st in
  mret (row_qname row, diffs st, missing).

End encode_diffs.

(** ** [check_miss] and [merge_diffs] *)

(** [check_miss] appends to, or inserts into, the list it is given and
    returns that same list; the model returns the updated list.  Were the
    two mates to share one list, the second call would see the list that
    the first has updated and leave it alone ([check_miss_twice]), which
    is what two calls on equal lists give here. *)
Definition check_miss (miss : list MissingRange) : outcome (list MissingRange) :=
  if decide (length miss < 2)%nat then
    m0 ← Py.index miss 0;
    if decide (m0.1 = 0) then mret (miss ++ [(29903, 29903)])
    else if decide (m0.2 = 29903) then mret ((0, 0) :: miss)
    else SystemExit
  else mret miss.

(** [list(set(l))]: the elements of [l] without repetition, in the order
    in which the interpreter happens to iterate over the set. *)
Class SetOrder := {
  list_of_set : list Diff → list Diff;
  list_of_set_NoDup l : NoDup (list_of_set l);
  list_of_set_elem l x : x ∈ list_of_set l ↔ x ∈ l;
}.

(** One iteration order: first occurrences, in list order. *)
Definition first_seen_order : SetOrder :=
  {| list_of_set := remove_dups;
     list_of_set_NoDup := NoDup_remove_dups;
     list_of_set_elem := λ l x, elem_of_remove_dups l x |}.

(** The test of the last loop of [merge_diffs]. *)
Definition single_cover (cov_union cov_intersect : Z * Z) (loc : Z) : bool :=
  bool_decide (cov_union.1 ≤ loc ≤ cov_union.2)
  && negb (bool_decide (cov_intersect.1 ≤ loc ≤ cov_intersect.2)).

(** [for i in range(len(diff_diffs))] *)
Fixpoint merge_loop (cov_union cov_intersect : Z * Z)
    (diff_diffs : list Diff) (diff_loc : list Z)
    (return_diffs : list Diff) (range : list nat) : outcome (list Diff) :=
  match range with
  | [] => mret return_diffs
  | i :: range' =>
      loc ← Py.index diff_loc i;
      if single_cover cov_union cov_intersect loc then
        d ← Py.index diff_diffs i;
        merge_loop cov_union cov_intersect diff_diffs diff_loc
          (return_diffs ++ [d]) range'
      else
        merge_loop cov_union cov_intersect diff_diffs diff_loc
          return_diffs range'
  end.

(** [[value for value in diff1 if value in diff2]] *)
Definition in_both (diff1 diff2 : list Diff) : list Diff :=
  filter (λ value, value ∈ diff2) diff1.

Definition merge_diffs {order : SetOrder} (diff1 diff2 : list Diff)
    (miss1 miss2 : list MissingRange)
    : outcome (list Diff * list (Z * Z)) :=
  miss1 ← check_miss miss1;
  miss2 ← check_miss miss2;
  lo1 ← snd <$> Py.index miss1 0;
  hi1 ← fst <$> Py.index miss1 1;
  lo2 ← snd <$> Py.index miss2 0;
  hi2 ← fst <$> Py.index miss2 1;
  if decide (miss1 = miss2) then
    mret (in_both diff1 diff2, [(lo1, hi1)])
  else if decide (lo1 > hi2 ∨ lo2 > hi1) then
    mret (list_of_set (diff1 ++ diff2), [(lo1, hi1); (lo2, hi2)])
  else
    let cov_union := (Z.min lo1 lo2, Z.max hi1 hi2) in
    let cov_intersect := (Z.max lo1 lo2, Z.min hi1 hi2) in
    let all_diffs := list_of_set (diff1 ++ diff2) in
    let return_diffs := in_both diff1 diff2 in
    let diff_diffs := filter (λ value, value ∉ return_diffs) all_diffs in
    let diff_loc := pos <$> diff_diffs in
    return_diffs ← merge_loop cov_union cov_intersect diff_diffs diff_loc
                     return_diffs (seq 0 (length diff_diffs));
    mret (return_diffs, [cov_union]).

(** ** [matchmaker] *)

(** The generator, started with the dictionary [cached_rows]: the pairs it
    yields, in order, and the dictionary it leaves behind when [samfile]
    is exhausted. *)
Fixpoint matchmaker_from (cached_rows : gmap string Row) (samfile : list Row)
    : list (Row * Row) * gmap string Row :=
  match samfile with
  | [] => ([], cached_rows)
  | row :: samfile' =>
      let qname := row_qname row in
      match cached_rows !! qname with
      | None => matchmaker_from (<[qname := row]> cached_rows) samfile'
      | Some old_row =>
          let '(pairs, left_over) :=
            matchmaker_from (delete qname cached_rows) samfile' in
          ((old_row, row) :: pairs, left_over)
      end
  end.

Definition matchmaker (samfile : list Row) : list (Row * Row) :=
  (matchmaker_from ∅ samfile).1.

(** ** [parse_mm2] *)

(** A monadic left fold: a [for] loop whose body may fail. *)
Fixpoint for_each {A S} (body : S → A → outcome S) (s : S) (l : list A)
    : outcome S :=
  match l with
  | [] => mret s
  | x :: l' => s' ← body s x; for_each body s' l'
  end.

(** An element of [res]: [{"diff": diffs, "mutations": mut}]. *)
Record ResRow (Label : Type) := mkRes {
  diff : list Diff;
  mutations : list Label;
}.
Arguments mkRes {Label} diff mutations.
Arguments diff {Label} r.
Arguments mutations {Label} r.

(** The local variables of [parse_mm2]. *)
Record ParseState (Label : Type) := mkParse {
  count : Z;
  total_coverage : gmap Z Z;
  res : list (ResRow Label);
}.
Arguments mkParse {Label} count total_coverage res.
Arguments count {Label} p.
Arguments total_coverage {Label} p.
Arguments res {Label} p.

(** [total_coverage[pos] += 1] *)
Definition bump (total_coverage : gmap Z Z) (pos : Z) : outcome (gmap Z Z) :=
  depth ← Py.getitem total_coverage pos;
  mret (<[pos := depth + 1]> total_coverage).

(** [for pos in range(left, right): total_coverage[pos] += 1] *)
Definition cover (total_coverage : gmap Z Z) (interval : Z * Z)
    : outcome (gmap Z Z) :=
  for_each bump total_coverage (seqZ interval.1 (interval.2 - interval.1)).

(** The coverage of a single read: the gaps between consecutive missing
    ranges. *)
Definition gap (miss : list MissingRange) (coverage : list (Z * Z)) (i : nat)
    : outcome (list (Z * Z)) :=
  m ← Py.index miss i;
  m' ← Py.index miss (i + 1);
  if decide (m.2 = m'.1) then mret coverage
  else mret (coverage ++ [(m.2, m'.1)]).

Definition gaps (miss : list MissingRange) : outcome (list (Z * Z)) :=
  for_each (gap miss) [] (seq 0 (length miss - 1)).

(** [dict([(pos, 0) for pos in range(maxpos)])] *)
Definition zero_coverage (maxpos : Z) : gmap Z Z :=
  list_to_map ((λ pos, (pos, 0)) <$> seqZ 0 maxpos).

(** [stop and count > stop] *)
Definition stop_reached (stop : option Z) (count : Z) : bool :=
  match stop with
  | None => false
  | Some stop => bool_decide (stop ≠ 0) && bool_decide (count > stop)
  end.

Section parse_mm2.
Context {Label : Type} (parse_mutation : Diff → Label) {order : SetOrder}.

(** What the loop body does once [diffs] and [coverage] are known. *)
Definition record_result (st : ParseState Label) (diffs : list Diff)
    (coverage : list (Z * Z)) : outcome (ParseState Label) :=
  total_coverage ← for_each cover (total_coverage st) coverage;
  let mut := parse_mutation <$> diffs in
  mret (mkParse (count st + 1) total_coverage
          (res st ++ [mkRes diffs mut])).

Definition parse_pair (st : ParseState Label) (row : Row * Row)
    : outcome (ParseState Label) :=
  let '(r1, r2) := row in
  '(_, diff1, miss1) ← encode_diffs 29903 "ACGT" 10 r1;
  '(_, diff2, miss2) ← encode_diffs 29903 "ACGT" 10 r2;
  '(diffs, coverage) ← merge_diffs diff1 diff2 miss1 miss2;
  record_result st diffs coverage.

Definition parse_single (st : ParseState Label) (row : Row)
    : outcome (ParseState Label) :=
  '(_, diffs, miss) ← encode_diffs 29903 "ACGT" 10 row;
  coverage ← gaps miss;
  record_result st diffs coverage.

(** [for row in iter], with its [break]. *)
Fixpoint parse_loop {A} (body : ParseState Label → A → outcome (ParseState Label))
    (stop : option Z) (st : ParseState Label) (iter : list A)
    : outcome (ParseState Label) :=
  match iter with
  | [] => mret st
  | row :: iter' =>
      st' ← body st row;
      if stop_reached stop (count st') then mret st'
      else parse_loop body stop st' iter'
  end.

Definition parse_mm2 (mm2 : list Row) (paired : bool) (stop : option Z)
    (maxpos : Z) : outcome (list (ResRow Label) * gmap Z Z) :=
  let st := mkParse 0 (zero_coverage maxpos) [] in
  st ← (if paired then parse_loop parse_pair stop st (matchmaker mm2)
        else parse_loop parse_single stop st mm2);
  mret (res st, total_coverage st).

End parse_mm2.

(** ** [get_frequencies] *)

(** [{'label': label, 'count': count}]; the field ['count'] is [tally]
    here, [count] being the counter of [parse_mm2]. *)
Record Tally (Label : Type) := mkTally {
  label : Label;
  tally : float;
}.
Arguments mkTally {Label} label tally.
Arguments label {Label} t.
Arguments tally {Label} t.

(** An int as an operand of a division of floats: the int itself, with no
    rounding, whatever its size. *)
Definition exact_int (n : Z) : SpecFloat.spec_float :=
  match n with
  | Z0 => SpecFloat.S754_zero false
  | Zpos m => SpecFloat.S754_finite false m 0
  | Zneg m => SpecFloat.S754_finite true m 0
  end.

(** [1/denom] for a non-zero int [denom]: Python divides the two ints
    exactly and rounds the quotient once, to the nearest binary64 float and
    to the even one of two that are as near; a quotient below the smallest
    float is rounded to 0.  [SFdiv] is the division of IEEE 754 with that
    rounding, here on operands that are not rounded first. *)
Definition reciprocal (denom : Z) : float :=
  FloatOps.SF2Prim
    (SpecFloat.SFdiv FloatOps.prec FloatOps.emax (exact_int 1)
       (exact_int denom)).

(** [str(mut)] *)
Definition payload_str (m : payload) : string :=
  match m with
  | PStr s => s
  | PInt n => Py.str n
  end.

(** [''.join(map(str, [typ, pos+1, mut]))], or with ["."] before [mut]. *)
Definition canonical_key (d : Diff) : string :=
  if decide (typ d = "~"%char)
  then Py.chr (typ d) +:+ Py.str (pos d + 1) +:+ payload_str (mut d)
  else Py.chr (typ d) +:+ Py.str (pos d + 1) +:+ "." +:+ payload_str (mut d).

Section get_frequencies.
Context {Label : Type}.

Abbreviation Counts := (gmap Z (gmap string (Tally Label))).

(** [if pos not in counts: counts.update({pos: {}})] *)
Definition open_pos (pos : Z) (counts : Counts) : Counts :=
  match counts !! pos with
  | None => <[pos := ∅]> counts
  | Some _ => counts
  end.

(** [if key not in counts[pos]:
       counts[pos].update({key: {'label': label, 'count': 0}})] *)
Definition open_key (pos : Z) (key : string) (label : Label)
    (counts : Counts) : outcome Counts :=
  at_pos ← Py.getitem counts pos;
  match at_pos !! key with
  | None => mret (<[pos := <[key := mkTally label PrimFloat.zero]> at_pos]> counts)
  | Some _ => mret counts
  end.

(** [counts[pos][key]['count'] += 1/denom] *)
Definition add_share (pos : Z) (key : string) (denom : Z)
    (counts : Counts) : outcome Counts :=
  at_pos ← Py.getitem counts pos;
  t ← Py.getitem at_pos key;
  let t' := mkTally (label t) (PrimFloat.add (tally t) (reciprocal denom)) in
  mret (<[pos := <[key := t']> at_pos]> counts).

(** The body of [for i, diff in enumerate(row['diff'])]. *)
Definition count_diff (coverage : gmap Z Z) (row : ResRow Label)
    (counts : Counts) (id : nat * Diff) : outcome Counts :=
  let '(i, d) := id in
  label ← Py.index (mutations row) i;
  denom ← Py.getitem coverage (pos d);
  if decide (denom = 0) then mret counts
  else
    let key := canonical_key d in
    counts ← open_key (pos d) key label (open_pos (pos d) counts);
    add_share (pos d) key denom counts.

Definition count_row (coverage : gmap Z Z) (counts : Counts)
    (row : ResRow Label) : outcome Counts :=
  for_each (count_diff coverage row) counts (imap (λ i d, (i, d)) (diff row)).

Definition get_frequencies (res : list (ResRow Label)) (coverage : gmap Z Z)
    : outcome Counts :=
  for_each (count_row coverage) ∅ res.

End get_frequencies.

(** ** [minimap2]: the rows read from the output of the aligner *)

(** String methods that [minimap2] and [contains_run] use. *)
Module PyStr.

(** [s.startswith(prefix)] *)
Fixpoint startswith (prefix s : string) : bool :=
  match prefix, s with
  | EmptyString, _ => true
  | String c prefix', String c' s' =>
      if decide (c = c') then startswith prefix' s' else false
  | String _ _, EmptyString => false
  end.

(** [sub in s] *)
Fixpoint contains (sub s : string) : bool :=
  if startswith sub s then true
  else match s with
       | EmptyString => false
       | String _ s' => contains sub s'
       end.

(** [s.split(c)] for a one-character separator: [field] holds the
    characters read since the last separator. *)
Fixpoint split_from (c : ascii) (field s : string) : list string :=
  match s with
  | EmptyString => [field]
  | String c' s' =>
      if decide (c' = c) then field :: split_from c EmptyString s'
      else split_from c (field +:+ Py.chr c') s'
  end.

Definition split (c : ascii) (s : string) : list string :=
  split_from c EmptyString s.

(** [s.lstrip(c)], [s.rstrip(c)] and [s.strip(c)] for one character. *)
Fixpoint lstrip (c : ascii) (s : string) : string :=
  match s with
  | EmptyString => EmptyString
  | String c' s' => if decide (c' = c) then lstrip c s' else s
  end.

Fixpoint rstrip (c : ascii) (s : string) : string :=
  match s with
  | EmptyString => EmptyString
  | String c' s' =>
      let stripped := rstrip c s' in
      if decide (c' = c ∧ stripped = EmptyString) then EmptyString
      else String c' stripped
  end.

Definition strip (c : ascii) (s : string) : string := rstrip c (lstrip c s).

(** [c.join(fields)] *)
Fixpoint join (c : ascii) (fields : list string) : string :=
  match fields with
  | [] => EmptyString
  | [field] => field
  | field :: fields' => field +:+ String c (join c fields')
  end.

End PyStr.

Definition tab : ascii := "009"%char.
Definition newline : ascii := "010"%char.

(** What the generator does besides yielding rows: the lines it writes
    to the standard error, each determined by the number of the line and
    by the count of reads that did not map. *)
Inductive event :=
  | Yield (row : Row)
  | Report (ln bad : Z).

(** How the generator ends. *)
Inductive ending :=
  | Exhausted
  | ValueError
  | ZeroDivisionError.

(** What one line of the output comes to. *)
Inductive line_kind :=
  | Header
  | Unmapped
  | Mapped (row : Row)
  | Malformed.

Section minimap2.
(** The built-in [int] on a string, [None] when it raises [ValueError],
    and the reporting frequency. *)
Variables (int : string → option Z) (report : Z).

Definition read_line (line : string) : line_kind :=
  if bool_decide (line = EmptyString) || PyStr.startswith "@" line then Header
  else
    match take 11 (PyStr.split tab (PyStr.strip newline line)) with
    | [qname; flag; rname; rpos; _; cigar; _; _; _; seq; qual] =>
        if decide (rname = "*") then Unmapped
        else match int flag with
             | None => Malformed
             | Some flag =>
                 if decide (Z.land flag 0x800 ≠ 0) then Unmapped
                 else match int rpos with
                      | None => Malformed
                      | Some rpos => Mapped (mkRow qname (rpos - 1) cigar seq qual)
                      end
             end
    | _ => Malformed
    end.

(** The loop [for ln, line in enumerate(output)], from line [ln] on, with
    [bad] reads that did not map so far. *)
Fixpoint minimap2_from (ln bad : Z) (output : list string)
    : list event * ending :=
  match output with
  | [] => ([], Exhausted)
  | line :: output' =>
      if decide (report = 0) then ([], ZeroDivisionError)
      else
        let reports :=
          if decide (ln `mod` report = 0 ∧ ln > 0) then [Report ln bad]
          else [] in
        match read_line line with
        | Header =>
            let '(events, e) := minimap2_from (ln + 1) bad output' in
            (reports ++ events, e)
        | Unmapped =>
            let '(events, e) := minimap2_from (ln + 1) (bad + 1) output' in
            (reports ++ events, e)
        | Mapped row =>
            let '(events, e) := minimap2_from (ln + 1) bad output' in
            (reports ++ Yield row :: events, e)
        | Malformed => (reports, ValueError)
        end
  end.

Definition minimap2 (output : list string) : list event * ending :=
  minimap2_from 0 0 output.

End minimap2.

(** The rows among the events. *)
Definition yielded (events : list event) : list Row :=
  omap (λ e, match e with Yield row => Some row | Report _ _ => None end) events.

(** The row of a line that holds one. *)
Definition mapped_row (kind : line_kind) : option Row :=
  match kind with
  | Mapped row => Some row
  | Header | Unmapped | Malformed => None
  end.

(** ** process.py: [contains_run] and [get_runs] *)

Fixpoint contains_run (run : string) (usr_list : list string) : bool :=
  match usr_list with
  | [] => false
  | directory :: usr_list' =>
      if PyStr.contains directory run then true
      else contains_run run usr_list'
  end.

(** What [get_runs] comes to: the set of runs, with the set of the paths
    that the callback was told are ignored, or the [TypeError] of calling
    the default callback [None]. *)
Inductive get_runs_result :=
  | Runs (runs ignored : gset string)
  | TypeError.

Section get_runs.
(** [os.path.split], and whether a callback is given. *)
Variables (os_path_split : string → string * string) (callback : bool).

(** The first loop, over [paths]: the sets [runs] and [ignored]. *)
Definition get_runs_file (ignore_list runs_list : list string)
    (sets : gset string * gset string) (file : string)
    : gset string * gset string :=
  let '(path, filename) := os_path_split file in
  if contains_run path ignore_list then (sets.1, {[path]} ∪ sets.2)
  else if bool_decide (length runs_list = 0%nat) || contains_run path runs_list
  then ({[path]} ∪ sets.1, sets.2)
  else sets.

Definition get_runs (paths ignore_list runs_list : list string)
    : get_runs_result :=
  let '(runs, ignored) :=
    foldl (get_runs_file ignore_list runs_list) (∅, ∅) paths in
  if decide (ignored = ∅) then Runs runs ignored
  else if callback then Runs runs ignored
  else TypeError.

End get_runs.

(** ** Well-formed CIGAR strings *)

(** The length of query sequence a token accounts for: ['M'], ['='], ['X'],
    ['S'] and ['I'] consume the query, the other operators do not. *)
Definition query_consumed (tok : string * operator) : Z :=
  match tok.2 with
  | OpM | OpEq | OpX | OpS | OpI => Py.int tok.1
  | OpD | OpH | OpN | OpP => 0
  end.

Definition query_length (tokens : list (string * operator)) : Z :=
  foldr (λ tok n, query_consumed tok + n) 0 tokens.

(** The CIGAR string of [row] uses operators of [ops] only, and the query
    lengths of its tokens add up to the length of the query sequence. *)
Definition well_formed_over (ops : list operator) (row : Row) : Prop :=
  Forall (λ tok, tok.2 ∈ ops) (findall (row_cigar row))
  ∧ query_length (findall (row_cigar row))
    = Z.of_nat (String.length (row_seq row)).

(** ** Covered spans *)

(** The covered span [(lo, hi)] that [merge_diffs] reads off a mate's
    missing ranges: [lo = miss[0][1]] and [hi = miss[1][0]] after
    [check_miss]. *)
Definition covered_span (miss : list MissingRange) : outcome (Z * Z) :=
  miss ← check_miss miss;
  lo ← snd <$> Py.index miss 0;
  hi ← fst <$> Py.index miss 1;
  mret (lo, hi).

(** ** The order of the missing ranges *)

(** The ranges of [miss] are intervals that follow one another, the first
    not before [lo] and the last not beyond [hi]. *)
Fixpoint chained (lo : Z) (miss : list MissingRange) (hi : Z) : Prop :=
  match miss with
  | [] => lo ≤ hi
  | (a, b) :: miss' => lo ≤ a ∧ a ≤ b ∧ chained b miss' hi
  end.

Definition digits_only (s : string) : Prop :=
  Forall (λ c, is_digit c) (String.list_ascii_of_string s).

(** ** Counting the records of a query name *)

(** The number of rows of [samfile] that carry [qname]. *)
Definition arrivals (qname : string) (samfile : list Row) : nat :=
  length (filter (λ row, row_qname row = qname) samfile).

(** 1 when a row is cached under [qname], 0 otherwise. *)
Definition pending (cached_rows : gmap string Row) (qname : string) : nat :=
  match cached_rows !! qname with
  | Some _ => 1
  | None => 0
  end.

(** The number of pairs whose second row carries [qname]. *)
Definition pairs_of (qname : string) (pairs : list (Row * Row)) : nat :=
  length (filter (λ pair, row_qname pair.2 = qname) pairs).

(** Every cached row is stored under its own query name. *)
Definition keyed_by_qname (cached_rows : gmap string Row) : Prop :=
  ∀ qname row, cached_rows !! qname = Some row → row_qname row = qname.

(** ** Reading the table of frequencies *)

(** [counts[pos][key]], when both keys are present. *)
Definition entry {Label} (counts : gmap Z (gmap string (Tally Label)))
    (pos : Z) (key : string) : option (Tally Label) :=
  counts !! pos ≫= λ at_pos, at_pos !! key.

(** The sum accumulated so far under [(pos, key)]: 0 before the first
    contribution. *)
Definition running_sum {Label} (counts : gmap Z (gmap string (Tally Label)))
    (pos : Z) (key : string) : float :=
  match entry counts pos key with
  | Some t => tally t
  | None => PrimFloat.zero
  end.

(** How often a diff at [p] with the key [key] occurs in a list of diffs. *)
Definition occurrences (diffs : list Diff) (p : Z) (key : string) : nat :=
  length (filter (λ d, pos d = p ∧ canonical_key d = key) diffs).

(** The sum of [n] shares [1/denom], added one after the other to 0.0 as
    [counts[pos][key]['count'] += 1/denom] does. *)
Definition share_sum (denom : Z) (n : nat) : float :=
  Nat.iter n (λ sum, PrimFloat.add sum (reciprocal denom)) PrimFloat.zero.

(** The sums of [counts] are those of the diffs [seen] so far: under every
    position of non-zero depth and every key, one share for each diff seen,
    and an entry when one diff at least was seen. *)
Definition sums_of {Label} (coverage : gmap Z Z) (seen : list Diff)
    (counts : gmap Z (gmap string (Tally Label))) : Prop :=
  ∀ p key denom,
    coverage !! p = Some denom → denom ≠ 0 →
    running_sum counts p key = share_sum denom (occurrences seen p key)
    ∧ (is_Some (entry counts p key) ↔ (0 < occurrences seen p key)%nat).

(** What [get_frequencies] does to [counts] for a diff at [pos] with key
    [key], label [label] and depth [denom ≠ 0]. *)
Definition credit {Label} (pos : Z) (key : string) (label0 : Label) (denom : Z)
    (counts : gmap Z (gmap string (Tally Label)))
    : gmap Z (gmap string (Tally Label)) :=
  let at_pos := default ∅ (counts !! pos) in
  let t := default (mkTally label0 PrimFloat.zero) (at_pos !! key) in
  <[pos := <[key := mkTally (label t)
                      (PrimFloat.add (tally t) (reciprocal denom))]> at_pos]>
    counts.

(** The positions that [counts] holds all have a non-zero depth. *)
Definition only_covered {Label} (coverage : gmap Z Z)
    (counts : gmap Z (gmap string (Tally Label))) : Prop :=
  ∀ p, is_Some (counts !! p) →
       ∃ denom, coverage !! p = Some denom ∧ denom ≠ 0.

(** The row has a label for each of its diffs, as [parse_mm2] builds it,
    and the depth table has an entry for the position of each diff. *)
Definition countable_row {Label} (coverage : gmap Z Z) (row : ResRow Label)
    : Prop :=
  (length (diff row) ≤ length (mutations row))%nat
  ∧ Forall (λ d, is_Some (coverage !! pos d)) (diff row).

(** ** Fatal errors *)

(** The ways in which the body of the loop over the pairs reaches
    [sys.exit()]: in [encode_diffs] for the first row, in [encode_diffs]
    for the second, or in [merge_diffs]. *)
Definition pair_exits {order : SetOrder} (r1 r2 : Row) : Prop :=
  encode_diffs 29903 "ACGT" 10 r1 = SystemExit
  ∨ (∃ q1 diff1 miss1,
       encode_diffs 29903 "ACGT" 10 r1 = Returned (q1, diff1, miss1)
       ∧ (encode_diffs 29903 "ACGT" 10 r2 = SystemExit
          ∨ ∃ q2 diff2 miss2,
              encode_diffs 29903 "ACGT" 10 r2 = Returned (q2, diff2, miss2)
              ∧ merge_diffs diff1 diff2 miss1 miss2 = SystemExit)).

(** ** Writing a CIGAR string, and what its tokens consume *)

Definition operator_char (op : operator) : ascii :=
  match op with
  | OpM => "M" | OpI => "I" | OpD => "D" | OpN => "N" | OpS => "S"
  | OpH => "H" | OpP => "P" | OpX => "X" | OpEq => "="
  end%char.

(** The CIGAR string made of [tokens], each a length followed by its
    operator. *)
Definition render (tokens : list (string * operator)) : string :=
  foldr (λ tok s, tok.1 +:+ String (operator_char tok.2) s) EmptyString tokens.

(** The length of reference a token accounts for in the loop of
    [encode_diffs]: ['='], ['X'] and ['D'] move the reference cursor. *)
Definition ref_consumed (tok : string * operator) : Z :=
  match tok.2 with
  | OpEq | OpX | OpD => Py.int tok.1
  | OpM | OpI | OpN | OpS | OpH | OpP => 0
  end.

Definition ref_length (tokens : list (string * operator)) : Z :=
  foldr (λ tok n, ref_consumed tok + n) 0 tokens.

(** The diffs that [encode_diffs] builds: a substitution by a base of
    [alphabet] other than N, an insertion, or a deletion of a length that
    is not negative. *)
Definition diff_event (alphabet : string) (d : Diff) : Prop :=
  (∃ nt, d = Substitution (pos d) nt ∧ Py.char_in nt alphabet
         ∧ nt ≠ "N"%char)
  ∨ (∃ s, d = Insertion (pos d) s)
  ∨ (∃ n, d = Deletion (pos d) n ∧ 0 ≤ n).

(** The positions of [diffs], each as a range of its own. *)
Definition positions (diffs : list Diff) : list MissingRange :=
  (λ d, (pos d, pos d)) <$> diffs.

(** What the loop of [encode_diffs] keeps about its list of diffs:
    positions that do not decrease, between [lo] and the reference cursor,
    and diffs of the three kinds. *)
Definition diffs_kept (alphabet : string) (lo : Z) (diffs : list Diff)
    (cursor : Z) : Prop :=
  chained lo (positions diffs) cursor ∧ Forall (diff_event alphabet) diffs.

(** The number of intervals of [coverage] that hold [p]: what the loop of
    [parse_mm2] over [coverage] adds to the depth of [p]. *)
Definition covering (p : Z) (coverage : list (Z * Z)) : nat :=
  length (filter (λ iv : Z * Z, iv.1 ≤ p < iv.2) coverage).

(** The stream in which the two rows of each pair follow one another. *)
Fixpoint interleave (pairs : list (Row * Row)) : list Row :=
  match pairs with
  | [] => []
  | (r1, r2) :: pairs' => r1 :: r2 :: interleave pairs'
  end.

(** The stretches between consecutive missing ranges, those of length 0
    left out. *)
Fixpoint between (miss : list MissingRange) : list (Z * Z) :=
  match miss with
  | m :: (m' :: _) as miss' =>
      (if decide (m.2 = m'.1) then [] else [(m.2, m'.1)]) ++ between miss'
  | _ => []
  end.

(** What the loop of [parse_mm2] keeps about its local variables: [count]
    is the number of rows of [res], every row holds the labels of its
    diffs, the depth table has the positions from 0 to [maxpos - 1], and no
    depth is below 0 or above [count]. *)
Definition parse_invariant {Label} (parse_mutation : Diff → Label)
    (maxpos : Z) (st : ParseState Label) : Prop :=
  count st = Z.of_nat (length (res st))
  ∧ Forall (λ row, mutations row = parse_mutation <$> diff row) (res st)
  ∧ (∀ p, is_Some (total_coverage st !! p) ↔ 0 ≤ p < maxpos)
  ∧ (∀ p depth, total_coverage st !! p = Some depth → 0 ≤ depth ≤ count st).

(** What the loop of [parse_mm2] iterates over. *)
Definition parse_items (mm2 : list Row) (paired : bool) : nat :=
  if paired then length (matchmaker mm2) else length mm2.

(** The call returns, or raises [e]: it raises no other exception and
    does not leave through [sys.exit()]. *)
Definition raises_only {A} (e : exn) (m : outcome A) : Prop :=
  returned m ∨ m = Raised e.

(** A read used to try the properties of [encode_diffs] on: two soft
    clipped bases, two matches, two mismatches, an insertion, a deletion
    and a hard clip, from position 5. *)
Definition example_read : Row :=
  mkRow "read" 5 "2S2=2X1I3D1H" "AAACGTA" "IIIIIII".

(** [int] on the strings that are non-empty runs of digits, and
    [ValueError] on the others: an instance of the built-in to try
    [minimap2] with. *)
Definition int_of_digits (s : string) : option Z :=
  if decide (s ≠ EmptyString ∧ digits_only s) then Some (Py.int s) else None.

(** The fields of a line of SAM to try [minimap2] with. *)
Definition example_line : list string :=
  ["q1"; "99"; "NC_045512"; "101"; "60"; "5="; "="; "200"; "100";
   "ACGTA"; "IIIII"].

(** * Properties *)

(** ** The outcome monad *)

Lemma bind_Returned {A B} (f : A → outcome B) (a : A) :
  Returned a ≫= f = f a.
Proof. reflexivity. Qed.

Lemma bind_Returned_inv {A B} (f : A → outcome B) (m : outcome A) (b : B) :
  m ≫= f = Returned b → ∃ a, m = Returned a ∧ f a = Returned b.
Proof. destruct m; simpl; intros; by eauto. Qed.

Lemma bind_SystemExit {A B} (f : A → outcome B) (m : outcome A) :
  m = SystemExit → m ≫= f = SystemExit.
Proof. by intros ->. Qed.

Lemma for_each_app {A S} (body : S → A → outcome S) (s : S) (l1 l2 : list A) :
  for_each body s (l1 ++ l2) = for_each body s l1 ≫= λ s', for_each body s' l2.
Proof.
  revert s. induction l1 as [|x l1 IH]; intros s; simpl; [done|].
  destruct (body s x); simpl; auto.
Qed.

(** A membership in a literal list that evaluates to false. *)
Ltac absurd_member H :=
  exfalso; revert H;
  match goal with |- ?P → False => change (¬ P) end;
  apply (proj1 (bool_decide_eq_false _)); reflexivity.

(** A membership, or a list of memberships, in literal lists. *)
Ltac literal_members :=
  repeat first [ apply Forall_nil_2 | apply Forall_cons_2 ];
  by apply (bool_decide_unpack _).

(** ** Strings *)

Lemma length_substring (n m : nat) (s : string) :
  String.length (String.substring n m s) = (m `min` (String.length s - n))%nat.
Proof.
  revert n m.
  induction s as [|c s IH]; intros [|n] [|m];
    cbn [String.substring String.length]; rewrite ?IH; lia.
Qed.

Lemma get_is_Some (s : string) (i : nat) :
  (i < String.length s)%nat → ∃ c, String.get i s = Some c.
Proof.
  revert i. induction s as [|c s IH]; intros [|i] Hi; simpl in *; try lia; eauto.
  apply IH. lia.
Qed.

Lemma length_list_ascii (s : string) :
  length (String.list_ascii_of_string s) = String.length s.
Proof. induction s; simpl; congruence. Qed.

Lemma enumerate_index (s : string) (i : nat) (c : ascii) :
  (i, c) ∈ Py.enumerate s → (i < String.length s)%nat.
Proof.
  unfold Py.enumerate. intros Hin.
  apply elem_of_lookup_imap in Hin as (j & c' & [= -> ->] & Hj).
  rewrite <- length_list_ascii. by eapply lookup_lt_Some.
Qed.

Lemma slice_shorter (seq qual : string) (left length : Z) :
  (String.length seq ≤ String.length qual)%nat →
  (String.length (Py.slice seq left length)
   ≤ String.length (Py.slice qual left length))%nat.
Proof. unfold Py.slice. rewrite !length_substring. lia. Qed.

(** ** The query cursor of [encode_diffs] *)

Section query_cursor.
Variables (alphabet : string) (minq : Z).

Lemma mismatch_run_returns rpos subqual acc bases :
  (∀ i c, (i, c) ∈ bases → (i < String.length subqual)%nat) →
  returned (mismatch_run alphabet minq rpos subqual acc bases).
Proof.
  revert acc. induction bases as [|[i nt] bases IH]; intros acc Hidx; simpl.
  - by eexists.
  - destruct (get_is_Some subqual i) as [c Hc].
    { eapply Hidx. left. }
    unfold Py.str_index. rewrite Hc. simpl.
    destruct (_ && _); simpl; apply IH; intros; eapply Hidx; by right.
Qed.

(** A token with one of the six operators the loop handles moves the
    query cursor by the query length of the token. *)
Lemma encode_token_cursor seq qual st tok :
  tok.2 ∈ [OpEq; OpX; OpS; OpI; OpD; OpH] →
  (String.length seq ≤ String.length qual)%nat →
  ∃ st', encode_token alphabet minq seq qual st tok = Returned st'
         ∧ left st' = left st + query_consumed tok.
Proof.
  intros Hop Hlen. unfold encode_token, query_consumed.
  destruct tok as [digits op]; simpl in *.
  destruct op; try (by absurd_member Hop);
    try (eexists; split; [reflexivity|simpl; lia]).
  destruct (Py.char_in _ _); simpl.
  - eexists; split; [reflexivity|done].
  - destruct (mismatch_run_returns (rpos st)
               (Py.slice qual (left st) (Py.int digits))
               (diffs st, missing st)
               (Py.enumerate (Py.slice seq (left st) (Py.int digits))))
      as [[ds ms] ->].
    + intros i c Hin%enumerate_index.
      pose proof (slice_shorter seq qual (left st) (Py.int digits) Hlen). lia.
    + eexists; split; [reflexivity|done].
Qed.

Lemma encode_tokens_cursor seq qual st tokens :
  Forall (λ tok, tok.2 ∈ [OpEq; OpX; OpS; OpI; OpD; OpH]) tokens →
  (String.length seq ≤ String.length qual)%nat →
  ∃ st', encode_tokens alphabet minq seq qual st tokens = Returned st'
         ∧ left st' = left st + query_length tokens.
Proof.
  intros Hops Hlen. revert st.
  induction Hops as [|tok tokens Hop _ IH]; intros st; simpl.
  - eexists; split; [done|lia].
  - destruct (encode_token_cursor seq qual st tok Hop Hlen) as (st1 & -> & H1).
    simpl. destruct (IH st1) as (st2 & -> & H2).
    eexists; split; [done|]. unfold query_length in *. simpl. lia.
Qed.

End query_cursor.

(** C2, as stated, fails: ['M'] belongs to the claim's operator set, and
    the loop leaves through [sys.exit()] on it. *)
Lemma C2_operator_M_exits :
  ¬ (∀ alphabet minq row,
       well_formed_over [OpM; OpEq; OpX; OpS; OpI; OpD; OpH] row →
       ∃ st, encode_loop alphabet minq row = Returned st
             ∧ left st = Z.of_nat (String.length (row_seq row))).
Proof.
  intros Hclaim.
  destruct (Hclaim "ACGT" 10 (mkRow "read" 0 "4M" "ACGT" "IIII")) as (st & Hst & _).
  - split; [|reflexivity]. vm_compute findall. literal_members.
  - vm_compute in Hst. discriminate.
Qed.

(** A quality string shorter than the sequence makes the ['X'] branch
    raise [IndexError], whatever the CIGAR string. *)
Example encode_short_quality :
  encode_loop "ACGT" 10 (mkRow "read" 0 "2=2X" "ACGT" "II") = Raised IndexError.
Proof. reflexivity. Qed.

(** C2 (amended): for every row whose CIGAR string is well formed over
    ['='], ['X'], ['S'], ['I'], ['D'] and ['H'], and whose quality string is
    at least as long as its sequence, the loop of [encode_diffs] ends
    normally and leaves the query cursor [left] at the length of the query
    sequence, and [encode_diffs] returns. *)
Theorem C2_final_query_cursor (reflen : Z) (alphabet : string) (minq : Z)
    (row : Row) :
  well_formed_over [OpEq; OpX; OpS; OpI; OpD; OpH] row →
  (String.length (row_seq row) ≤ String.length (row_qual row))%nat →
  (∃ st, encode_loop alphabet minq row = Returned st
         ∧ left st = Z.of_nat (String.length (row_seq row)))
  ∧ returned (encode_diffs reflen alphabet minq row).
Proof.
  intros [Hops Hsum] Hqual. unfold encode_diffs, encode_loop.
  destruct (encode_tokens_cursor alphabet minq (row_seq row) (row_qual row)
              (encode_init row) _ Hops Hqual) as (st & Hst & Hleft).
  rewrite Hst. split; [|by eexists].
  exists st. split; [done|]. rewrite Hleft, Hsum. simpl. lia.
Qed.

Lemma C2_final_query_cursor_witness :
  (∃ st, encode_loop "ACGT" 10
           (mkRow "read" 5 "2S2=2X1I3D1H" "AAACGTA" "IIIIIII")
         = Returned st
         ∧ left st = 7)
  ∧ returned (encode_diffs 29903 "ACGT" 10
                (mkRow "read" 5 "2S2=2X1I3D1H" "AAACGTA" "IIIIIII")).
Proof.
  apply (C2_final_query_cursor 29903 "ACGT" 10
           (mkRow "read" 5 "2S2=2X1I3D1H" "AAACGTA" "IIIIIII")).
  - split; [|reflexivity]. vm_compute findall. literal_members.
  - simpl. lia.
Defined.

(** ** [check_miss] *)

Lemma check_miss_nil : check_miss [] = Raised IndexError.
Proof. reflexivity. Qed.

Lemma check_miss_single (a b : Z) :
  check_miss [(a, b)]
  = if decide (a = 0) then Returned [(a, b); (29903, 29903)]
    else if decide (b = 29903) then Returned [(0, 0); (a, b)]
    else SystemExit.
Proof. unfold check_miss. simpl. by repeat case_decide. Qed.

Lemma check_miss_long (miss : list MissingRange) :
  (2 ≤ length miss)%nat → check_miss miss = Returned miss.
Proof. intros. unfold check_miss. case_decide; [lia|done]. Qed.

Lemma check_miss_Returned (miss miss' : list MissingRange) :
  check_miss miss = Returned miss' →
  (∃ b, miss = [(0, b)] ∧ miss' = [(0, b); (29903, 29903)])
  ∨ (∃ a, a ≠ 0 ∧ miss = [(a, 29903)] ∧ miss' = [(0, 0); (a, 29903)])
  ∨ ((2 ≤ length miss)%nat ∧ miss' = miss).
Proof.
  destruct miss as [|[a b] [|m miss]].
  - done.
  - rewrite check_miss_single. repeat case_decide; intros [= <-]; subst.
    + left. eauto.
    + right; left. eauto.
  - rewrite check_miss_long by (simpl; lia). intros [= <-].
    right; right. split; [simpl; lia|done].
Qed.

(** The list has been updated in place: a second call leaves it alone. *)
Lemma check_miss_twice (miss miss' : list MissingRange) :
  check_miss miss = Returned miss' → check_miss miss' = Returned miss'.
Proof.
  intros [(b & -> & ->)|[(a & _ & -> & ->)|[? ->]]]%check_miss_Returned;
    by apply check_miss_long.
Qed.

Lemma covered_span_Returned (miss : list MissingRange) (lo hi : Z) :
  covered_span miss = Returned (lo, hi) →
  ∃ x y rest, check_miss miss = Returned ((x, lo) :: (hi, y) :: rest).
Proof.
  unfold covered_span. intros (miss' & Hcheck & Hrest)%bind_Returned_inv.
  destruct miss' as [|[x lo'] [|[hi' y] rest]]; try done.
  injection Hrest as -> ->. eauto.
Qed.

(** ** [merge_diffs] *)

Lemma in_both_spec (diff1 diff2 : list Diff) (d : Diff) :
  d ∈ in_both diff1 diff2 ↔ d ∈ diff1 ∧ d ∈ diff2.
Proof. unfold in_both. rewrite list_elem_of_filter. tauto. Qed.

Lemma filter_all {A} (P : A → Prop) `{∀ x, Decision (P x)} (l : list A) :
  (∀ x, x ∈ l → P x) → filter P l = l.
Proof.
  induction l as [|x l IH]; intros Hall; [done|].
  rewrite filter_cons_True by (apply Hall; left).
  f_equal. apply IH. intros y Hy. apply Hall. by right.
Qed.

Lemma filter_none {A} (P : A → Prop) `{∀ x, Decision (P x)} (l : list A) :
  (∀ x, x ∈ l → ¬ P x) → filter P l = [].
Proof.
  induction l as [|x l IH]; intros Hnone; [done|].
  rewrite filter_cons_False by (apply Hnone; left).
  apply IH. intros y Hy. apply Hnone. by right.
Qed.

Lemma in_both_same (diff1 : list Diff) : in_both diff1 diff1 = diff1.
Proof. unfold in_both. by apply filter_all. Qed.

Lemma list_of_set_union {order : SetOrder} (diff1 diff2 : list Diff) (d : Diff) :
  d ∈ list_of_set (diff1 ++ diff2) ↔ d ∈ diff1 ∨ d ∈ diff2.
Proof. by rewrite list_of_set_elem, elem_of_app. Qed.

Lemma list_of_set_singleton {order : SetOrder} (d : Diff) : list_of_set [d] = [d].
Proof.
  pose proof (list_of_set_NoDup [d]) as Hnd.
  pose proof (list_of_set_elem [d]) as Hel.
  destruct (list_of_set [d]) as [|x [|y l]].
  - specialize (Hel d). rewrite elem_of_nil in Hel. exfalso. apply Hel. left.
  - f_equal. apply list_elem_of_singleton, Hel. left.
  - exfalso. apply NoDup_cons in Hnd as [Hx _]. apply Hx.
    assert (x = d) as -> by (apply list_elem_of_singleton, Hel; left).
    assert (y = d) as -> by (apply list_elem_of_singleton, Hel; right; left).
    left.
Qed.

Lemma index_middle {A} (l1 l2 : list A) (x : A) :
  Py.index (l1 ++ x :: l2) (length l1) = Returned x.
Proof. unfold Py.index. by rewrite list_lookup_middle. Qed.

Lemma index_fmap_middle {A B} (f : A → B) (l1 l2 : list A) (x : A) :
  Py.index (f <$> l1 ++ x :: l2) (length l1) = Returned (f x).
Proof.
  unfold Py.index. by rewrite list_lookup_fmap, list_lookup_middle.
Qed.

(** The loop over the indices of [diff_diffs] appends the diffs that pass
    the test, in order. *)
Lemma merge_loop_from cov_union cov_intersect (before after : list Diff)
    (return_diffs : list Diff) :
  merge_loop cov_union cov_intersect (before ++ after)
    (pos <$> before ++ after) return_diffs
    (seq (length before) (length after))
  = Returned (return_diffs
              ++ filter (λ d, single_cover cov_union cov_intersect (pos d)) after).
Proof.
  revert before return_diffs.
  induction after as [|d after IH]; intros before return_diffs; simpl.
  - by rewrite filter_nil, app_nil_r.
  - rewrite index_fmap_middle, index_middle. simpl.
    specialize (IH (before ++ [d])).
    rewrite <- app_assoc, length_app, Nat.add_1_r in IH. simpl in IH.
    destruct (single_cover cov_union cov_intersect (pos d)) eqn:Hd; simpl.
    + rewrite IH, filter_cons_True by (by rewrite Hd).
      by rewrite <- app_assoc.
    + rewrite IH, filter_cons_False by (rewrite Hd; intros []). done.
Qed.

Lemma merge_loop_filter cov_union cov_intersect (diff_diffs return_diffs : list Diff) :
  merge_loop cov_union cov_intersect diff_diffs (pos <$> diff_diffs)
    return_diffs (seq 0 (length diff_diffs))
  = Returned (return_diffs
              ++ filter (λ d, single_cover cov_union cov_intersect (pos d))
                   diff_diffs).
Proof. apply (merge_loop_from cov_union cov_intersect []). Qed.

(** [merge_diffs] on two lists that [check_miss] has brought to at least
    two ranges each. *)
Lemma merge_diffs_normalized {order : SetOrder} diff1 diff2 miss1 miss2
    x1 lo1 hi1 y1 rest1 x2 lo2 hi2 y2 rest2 :
  check_miss miss1 = Returned ((x1, lo1) :: (hi1, y1) :: rest1) →
  check_miss miss2 = Returned ((x2, lo2) :: (hi2, y2) :: rest2) →
  merge_diffs diff1 diff2 miss1 miss2
  = if decide ((x1, lo1) :: (hi1, y1) :: rest1 = (x2, lo2) :: (hi2, y2) :: rest2)
    then Returned (in_both diff1 diff2, [(lo1, hi1)])
    else if decide (lo1 > hi2 ∨ lo2 > hi1)
    then Returned (list_of_set (diff1 ++ diff2), [(lo1, hi1); (lo2, hi2)])
    else Returned
           (in_both diff1 diff2
            ++ filter (λ d, single_cover (lo1 `min` lo2, hi1 `max` hi2)
                              (lo1 `max` lo2, hi1 `min` hi2) (pos d))
                 (filter (λ value, value ∉ in_both diff1 diff2)
                    (list_of_set (diff1 ++ diff2))),
            [(lo1 `min` lo2, hi1 `max` hi2)]).
Proof.
  intros H1 H2. unfold merge_diffs. rewrite H1, H2. simpl.
  repeat case_decide; try done.
  by rewrite merge_loop_filter.
Qed.

(** ** Empty and single-range lists of missing ranges *)

(** A read that starts at 0 and reaches the end of the genome has no
    missing range. *)
Example full_genome_read :
  encode_diffs 29903 "ACGT" 10
    (mkRow "read" 0 "29903=" (Py.repeat "A" (Z.to_nat 29903))
       (Py.repeat "I" (Z.to_nat 29903)))
  = Returned ("read", [], []).
Proof. vm_compute. reflexivity. Qed.

(** A full-length read whose only missing range is an ['N'] inside it. *)
Example full_genome_read_with_N :
  encode_diffs 29903 "ACGT" 10
    (mkRow "read" 0 "10=1X29892="
       (Py.repeat "A" 10 +:+ "N" +:+ Py.repeat "A" (Z.to_nat 29892))
       (Py.repeat "I" (Z.to_nat 29903)))
  = Returned ("read", [], [(10, 11)]).
Proof. vm_compute. reflexivity. Qed.

(** C9, as stated, fails: when the first mate's list is a single range
    that [check_miss] cannot restore, [sys.exit()] is reached before the
    empty list of the second mate is looked at. *)
Lemma C9_first_mate_exits_first :
  ¬ (∀ (order : SetOrder) diff1 diff2 miss1 miss2,
       miss1 = [] ∨ miss2 = [] →
       merge_diffs diff1 diff2 miss1 miss2 = Raised IndexError).
Proof.
  intros Hclaim.
  specialize (Hclaim first_seen_order [] [] [(10, 11)] [] (or_intror eq_refl)).
  vm_compute in Hclaim. discriminate.
Qed.

(** C9 (amended): [merge_diffs] raises [IndexError] when the first mate's
    list of missing ranges is empty, and when the second mate's is empty
    and [check_miss] returns for the first mate's; with an empty list for
    either mate it never returns a merged result. *)
Theorem C9_empty_missing_list {order : SetOrder} (diff1 diff2 : list Diff)
    (miss : list MissingRange) :
  merge_diffs diff1 diff2 [] miss = Raised IndexError
  ∧ (returned (check_miss miss) →
     merge_diffs diff1 diff2 miss [] = Raised IndexError)
  ∧ ¬ returned (merge_diffs diff1 diff2 miss []).
Proof.
  split; [done|]. split.
  - intros [miss' Hmiss]. unfold merge_diffs. by rewrite Hmiss.
  - intros [r Hr]. unfold merge_diffs in Hr.
    destruct (check_miss miss); discriminate.
Qed.

Lemma C9_empty_missing_list_witness :
  merge_diffs (order := first_seen_order) [Substitution 100 "T"] [] [(0, 50); (200, 29903)] []
  = Raised IndexError.
Proof.
  apply (C9_empty_missing_list (order := first_seen_order)
           [Substitution 100 "T"] [] [(0, 50); (200, 29903)]).
  by eexists.
Defined.

(** A read that lies at position 0 and consumes no reference position
    leaves one range [(0, reflen)], which [check_miss] restores whatever
    [reflen] is. *)
Example soft_clipped_read :
  encode_diffs 100 "ACGT" 10 (mkRow "read" 0 "5S" "AAAAA" "IIIII")
  = Returned ("read", [], [(0, 100)])
  ∧ check_miss [(0, 100)] = Returned [(0, 100); (29903, 29903)].
Proof. split; reflexivity. Qed.

(** C10, as stated, fails: a single range whose left bound is 0 is taken by
    the first restoration case, whatever its right bound. *)
Lemma C10_left_bound_zero :
  ¬ (∀ g a : Z, g ≠ 29903 → check_miss [(a, g)] = SystemExit).
Proof.
  intros Hclaim. specialize (Hclaim 100 0). rewrite check_miss_single in Hclaim.
  simpl in Hclaim. by specialize (Hclaim ltac:(lia)).
Qed.

(** C10 (amended): for every genome length [g] other than 29903, a single
    missing range [(a, g)] with [a ≠ 0] matches neither restoration case of
    [check_miss], which leaves through [sys.exit()]; so does [merge_diffs]
    when the first mate has that list. *)
Theorem C10_fixed_genome_length (g a : Z) :
  g ≠ 29903 → a ≠ 0 →
  check_miss [(a, g)] = SystemExit
  ∧ ∀ (order : SetOrder) diff1 diff2 miss2,
      merge_diffs diff1 diff2 [(a, g)] miss2 = SystemExit.
Proof.
  intros Hg Ha.
  assert (check_miss [(a, g)] = SystemExit) as Hexit.
  { rewrite check_miss_single. by repeat case_decide. }
  split; [done|]. intros order diff1 diff2 miss2.
  unfold merge_diffs. by rewrite Hexit.
Qed.

Lemma C10_fixed_genome_length_witness :
  check_miss [(100, 30000)] = SystemExit
  ∧ ∀ (order : SetOrder) diff1 diff2 miss2,
      merge_diffs diff1 diff2 [(100, 30000)] miss2 = SystemExit.
Proof. apply (C10_fixed_genome_length 30000 100); lia. Defined.

(** The range of C10 as [encode_diffs] produces it for a genome of length
    30000. *)
Example other_genome_length :
  encode_diffs 30000 "ACGT" 10
    (mkRow "read" 0 "100=" (Py.repeat "A" 100) (Py.repeat "I" 100))
  = Returned ("read", [], [(100, 30000)]).
Proof. vm_compute. reflexivity. Qed.

(** ** Disjoint spans *)

(** Two spans that touch ([hi1 = lo2]) are not taken by the branch for
    spans that do not overlap: one interval is returned for both. *)
Lemma C3_touching_spans :
  ¬ (∀ (order : SetOrder) diff1 diff2 miss1 miss2 lo1 hi1 lo2 hi2,
       covered_span miss1 = Returned (lo1, hi1) →
       covered_span miss2 = Returned (lo2, hi2) →
       hi1 ≤ lo2 ∨ hi2 ≤ lo1 →
       ∃ merged,
         merge_diffs diff1 diff2 miss1 miss2
         = Returned (merged, [(lo1, hi1); (lo2, hi2)])
         ∧ ∀ d, d ∈ merged ↔ d ∈ diff1 ∨ d ∈ diff2).
Proof.
  intros Hclaim.
  destruct (Hclaim first_seen_order [Substitution 10 "T"] []
              [(100, 29903)] [(0, 100); (200, 29903)] 0 100 100 200)
    as (merged & Hmerged & _); [done|done|lia|].
  vm_compute in Hmerged. discriminate.
Qed.

(** The part of C3 that the code meets: for two spans that are intervals
    ([lo ≤ hi]) and lie strictly apart ([hi1 < lo2] or [hi2 < lo1]),
    [merge_diffs] returns the union of the two lists of diffs, without
    repetition, and the two spans. *)
Theorem C3_disjoint_spans {order : SetOrder} (diff1 diff2 : list Diff)
    (miss1 miss2 : list MissingRange) (lo1 hi1 lo2 hi2 : Z) :
  covered_span miss1 = Returned (lo1, hi1) →
  covered_span miss2 = Returned (lo2, hi2) →
  lo1 ≤ hi1 → lo2 ≤ hi2 →
  hi1 < lo2 ∨ hi2 < lo1 →
  merge_diffs diff1 diff2 miss1 miss2
  = Returned (list_of_set (diff1 ++ diff2), [(lo1, hi1); (lo2, hi2)])
  ∧ NoDup (list_of_set (diff1 ++ diff2))
  ∧ ∀ d, d ∈ list_of_set (diff1 ++ diff2) ↔ d ∈ diff1 ∨ d ∈ diff2.
Proof.
  intros (x1 & y1 & rest1 & H1)%covered_span_Returned
         (x2 & y2 & rest2 & H2)%covered_span_Returned Hspan1 Hspan2 Hapart.
  split; [|split; [apply list_of_set_NoDup|apply list_of_set_union]].
  rewrite (merge_diffs_normalized _ _ _ _ _ _ _ _ _ _ _ _ _ _ H1 H2).
  case_decide as Heq; [injection Heq as -> -> -> -> ->; lia|].
  case_decide; [done|lia].
Qed.

Lemma C3_disjoint_spans_witness :
  merge_diffs (order := first_seen_order) [Substitution 100 "T"] []
    [(10000, 29903)] [(0, 20000)]
  = Returned ([Substitution 100 "T"], [(0, 10000); (20000, 29903)]).
Proof.
  apply (C3_disjoint_spans (order := first_seen_order) [Substitution 100 "T"] []
           [(10000, 29903)] [(0, 20000)] 0 10000 20000 29903);
    first [reflexivity | lia].
Defined.

(** C3 fails on the code where two spans touch.  The first mate covers
    [[0, 100)], the second [[100, 200)] and reports a substitution at 100.
    The spans satisfy [hi1 ≤ lo2] and share no position, and only the
    second mate covers the position 100; yet the test [lo2 > hi1] of the
    branch for spans that do not overlap is strict, the branch for
    overlapping spans is taken, a single interval is returned for both
    mates and the substitution is dropped: the result is neither the union
    of the diffs nor the two intervals. *)
Theorem C3_touching_diff_dropped :
  encode_diffs 29903 "ACGT" 10
    (mkRow "pair" 0 "100=" (Py.repeat "A" 100) (Py.repeat "I" 100))
  = Returned ("pair", [], [(100, 29903)])
  ∧ encode_diffs 29903 "ACGT" 10
      (mkRow "pair" 100 "1X99=" ("T" +:+ Py.repeat "A" 99) (Py.repeat "I" 100))
    = Returned ("pair", [Substitution 100 "T"], [(0, 100); (200, 29903)])
  ∧ covered_span [(100, 29903)] = Returned (0, 100)
  ∧ covered_span [(0, 100); (200, 29903)] = Returned (100, 200)
  ∧ (100 ≤ 100 ∨ 200 ≤ 0)
  ∧ ∀ order : SetOrder,
      merge_diffs [] [Substitution 100 "T"]
        [(100, 29903)] [(0, 100); (200, 29903)]
      = Returned ([], [(0, 200)])
      ∧ Substitution 100 "T" ∈ list_of_set ([] ++ [Substitution 100 "T"])
      ∧ merge_diffs [] [Substitution 100 "T"]
          [(100, 29903)] [(0, 100); (200, 29903)]
        ≠ Returned (list_of_set ([] ++ [Substitution 100 "T"]),
                    [(0, 100); (100, 200)]).
Proof.
  assert (∀ order : SetOrder,
            merge_diffs [] [Substitution 100 "T"]
              [(100, 29903)] [(0, 100); (200, 29903)]
            = Returned ([], [(0, 200)])) as Hmerge.
  { intros order.
    rewrite (merge_diffs_normalized [] [Substitution 100 "T"]
               [(100, 29903)] [(0, 100); (200, 29903)]
               0 0 100 29903 [] 0 100 200 29903 []) by reflexivity.
    simpl app. rewrite list_of_set_singleton. reflexivity. }
  split; [vm_compute; reflexivity|].
  split; [vm_compute; reflexivity|].
  split; [reflexivity|]. split; [reflexivity|]. split; [lia|].
  intros order. split; [apply Hmerge|]. split.
  - apply list_of_set_elem. simpl. left.
  - rewrite Hmerge. discriminate.
Qed.

(** ** Overlapping spans *)

Lemma single_cover_spec (cov_union cov_intersect : Z * Z) (loc : Z) :
  single_cover cov_union cov_intersect loc
  ↔ cov_union.1 ≤ loc ≤ cov_union.2
    ∧ ¬ cov_intersect.1 ≤ loc ≤ cov_intersect.2.
Proof.
  unfold single_cover.
  rewrite andb_True, negb_True, !bool_decide_spec. tauto.
Qed.

(** What the last branch of [merge_diffs] returns: the diffs of both
    mates, and the diffs of one mate whose position lies in the closed
    interval [[min lo, max hi]] and not in the closed interval
    [[max lo, min hi]]. *)
Lemma merge_diffs_overlap {order : SetOrder} (diff1 diff2 : list Diff)
    (miss1 miss2 norm1 norm2 : list MissingRange) (lo1 hi1 lo2 hi2 : Z) :
  check_miss miss1 = Returned norm1 →
  check_miss miss2 = Returned norm2 →
  covered_span miss1 = Returned (lo1, hi1) →
  covered_span miss2 = Returned (lo2, hi2) →
  norm1 ≠ norm2 →
  lo1 ≤ hi2 → lo2 ≤ hi1 →
  ∃ merged,
    merge_diffs diff1 diff2 miss1 miss2
    = Returned (merged, [(lo1 `min` lo2, hi1 `max` hi2)])
    ∧ ∀ d, d ∈ merged ↔
        (d ∈ diff1 ∧ d ∈ diff2)
        ∨ ((d ∈ diff1 ∨ d ∈ diff2) ∧ ¬ (d ∈ diff1 ∧ d ∈ diff2)
           ∧ lo1 `min` lo2 ≤ pos d ≤ hi1 `max` hi2
           ∧ ¬ lo1 `max` lo2 ≤ pos d ≤ hi1 `min` hi2).
Proof.
  intros Hn1 Hn2 (x1 & y1 & rest1 & H1)%covered_span_Returned
         (x2 & y2 & rest2 & H2)%covered_span_Returned Hne Hlo1 Hlo2.
  rewrite (merge_diffs_normalized _ _ _ _ _ _ _ _ _ _ _ _ _ _ H1 H2).
  case_decide as Heq; [congruence|].
  case_decide; [lia|].
  eexists; split; [done|]. intros d.
  rewrite elem_of_app, !list_elem_of_filter, list_of_set_union,
    single_cover_spec, !in_both_spec.
  simpl. tauto.
Qed.

(** C4 fails on the code at the upper end of the intersection.  The first
    mate covers [[0, 100)], the second [[50, 200)] and reports a
    substitution at 100, a position that only the second mate covers: it
    lies in the half-open union [[0, 200)] and outside the half-open
    intersection [[50, 100)], and yet [merge_diffs] drops it. *)
Theorem C4_boundary_diff_dropped :
  encode_diffs 29903 "ACGT" 10
    (mkRow "pair" 0 "100=" (Py.repeat "A" 100) (Py.repeat "I" 100))
  = Returned ("pair", [], [(100, 29903)])
  ∧ encode_diffs 29903 "ACGT" 10
      (mkRow "pair" 50 "50=1X99="
         (Py.repeat "A" 50 +:+ "T" +:+ Py.repeat "A" 99) (Py.repeat "I" 150))
    = Returned ("pair", [Substitution 100 "T"], [(0, 50); (200, 29903)])
  ∧ covered_span [(100, 29903)] = Returned (0, 100)
  ∧ covered_span [(0, 50); (200, 29903)] = Returned (50, 200)
  ∧ (0 `min` 50 ≤ pos (Substitution 100 "T") < 100 `max` 200
     ∧ ¬ 0 `max` 50 ≤ pos (Substitution 100 "T") < 100 `min` 200)
  ∧ ∀ order : SetOrder,
      merge_diffs [] [Substitution 100 "T"] [(100, 29903)] [(0, 50); (200, 29903)]
      = Returned ([], [(0, 200)]).
Proof.
  repeat split; try (vm_compute; reflexivity); try (simpl; lia).
  intros order.
  rewrite (merge_diffs_normalized [] [Substitution 100 "T"]
             [(100, 29903)] [(0, 50); (200, 29903)]
             0 0 100 29903 [] 0 50 200 29903 []) by reflexivity.
  simpl app. rewrite list_of_set_singleton. reflexivity.
Qed.

(** ** The missing ranges of [encode_diffs] follow one another *)

Lemma chained_snoc (lo hi a b : Z) (miss : list MissingRange) :
  chained lo miss hi → hi ≤ a → a ≤ b → chained lo (miss ++ [(a, b)]) b.
Proof.
  revert lo. induction miss as [|[x y] miss IH]; intros lo; simpl.
  - lia.
  - intros (? & ? & ?) ? ?. repeat split; auto.
Qed.

Lemma chained_mono (lo hi hi' : Z) (miss : list MissingRange) :
  chained lo miss hi → hi ≤ hi' → chained lo miss hi'.
Proof.
  revert lo. induction miss as [|[x y] miss IH]; intros lo; simpl.
  - lia.
  - intros (? & ? & ?) ?. repeat split; auto.
Qed.

Lemma chained_first_two (lo hi x l h y : Z) (rest : list MissingRange) :
  chained lo ((x, l) :: (h, y) :: rest) hi → l ≤ h.
Proof. simpl. tauto. Qed.

Lemma list_ascii_app (s1 s2 : string) :
  String.list_ascii_of_string (s1 +:+ s2)
  = String.list_ascii_of_string s1 ++ String.list_ascii_of_string s2.
Proof. induction s1 as [|c s1 IH]; simpl; [done|by rewrite IH]. Qed.

Lemma int_nonneg (s : string) : digits_only s → 0 ≤ Py.int s.
Proof.
  unfold digits_only, Py.int.
  assert (∀ l acc, Forall (λ c, is_digit c) l → 0 ≤ acc →
            0 ≤ foldl (λ acc c, 10 * acc + Py.digit_value c) acc l) as Hfold.
  { induction l as [|c l IH]; intros acc Hl Hacc; simpl; [done|].
    apply Forall_cons in Hl as [Hc Hl]. apply IH; [done|].
    unfold is_digit in Hc. apply bool_decide_unpack in Hc.
    unfold Py.digit_value. lia. }
  intros. by apply Hfold.
Qed.

Lemma findall_from_digits (run s : string) :
  digits_only run →
  Forall (λ tok, digits_only tok.1) (findall_from run s).
Proof.
  revert run. induction s as [|c s IH]; intros run Hrun; simpl; [constructor|].
  destruct (is_digit c) eqn:Hc.
  - apply IH. unfold digits_only. rewrite list_ascii_app. simpl.
    apply Forall_app. split; [done|]. repeat constructor. by rewrite Hc.
  - destruct (operator_of_ascii c); [case_decide|];
      try constructor; try done; apply IH; constructor.
Qed.

Lemma findall_lengths (cigar : string) :
  Forall (λ tok, 0 ≤ Py.int tok.1) (findall cigar).
Proof.
  eapply Forall_impl; [apply findall_from_digits; constructor|].
  intros tok. apply int_nonneg.
Qed.

Section chained_ranges.
Variables (reflen : Z) (alphabet : string) (minq : Z).

Lemma mismatch_run_chained lo rpos subqual (bases : list ascii) :
  ∀ (k : nat) acc acc',
    chained lo acc.2 (rpos + Z.of_nat k) →
    mismatch_run alphabet minq rpos subqual acc
      (imap (λ i c, ((k + i)%nat, c)) bases) = Returned acc' →
    chained lo acc'.2 (rpos + Z.of_nat (k + length bases)).
Proof.
  induction bases as [|nt bases IH]; intros k acc acc' Hacc; simpl.
  - intros [= <-]. by rewrite Nat.add_0_r.
  - intros (acc1 & Hbase & Hrun)%bind_Returned_inv.
    rewrite (imap_ext _ (λ i c, ((S k + i)%nat, c))) in Hrun
      by (intros; simpl; f_equal; lia).
    replace (k + S (length bases))%nat with (S k + length bases)%nat by lia.
    apply (IH (S k) acc1); [|done].
    unfold mismatch_base in Hbase.
    apply bind_Returned_inv in Hbase as (c & _ & Hbase).
    rewrite Nat.add_0_r in Hbase.
    destruct (_ && _); injection Hbase as <-; simpl.
    + eapply chained_mono; [done|lia].
    + replace (rpos + Z.of_nat (S k)) with (rpos + Z.of_nat k + 1) by lia.
      apply chained_snoc with (hi := rpos + Z.of_nat k); [done|lia..].
Qed.

Lemma encode_token_chained lo seq qual st st' tok :
  0 ≤ Py.int tok.1 →
  chained lo (missing st) (rpos st) →
  encode_token alphabet minq seq qual st tok = Returned st' →
  chained lo (missing st') (rpos st').
Proof.
  intros Hlen Hst. unfold encode_token.
  destruct tok as [digits []]; simpl in *; try done;
    try (intros [= <-]; simpl; first [done | eapply chained_mono; [done|lia]]).
  destruct (Py.char_in _ _).
  - intros [= <-]; simpl. eapply chained_snoc; [done|lia..].
  - intros ([ds ms] & Hrun & [= <-])%bind_Returned_inv. simpl.
    apply (mismatch_run_chained lo _ _ _ 0%nat) in Hrun;
      [|simpl; by rewrite Z.add_0_r].
    eapply chained_mono; [done|].
    simpl. rewrite length_list_ascii. unfold Py.slice.
    rewrite length_substring. lia.
Qed.

Lemma encode_tokens_chained lo seq qual tokens :
  ∀ st st',
    Forall (λ tok, 0 ≤ Py.int tok.1) tokens →
    chained lo (missing st) (rpos st) →
    encode_tokens alphabet minq seq qual st tokens = Returned st' →
    chained lo (missing st') (rpos st').
Proof.
  induction tokens as [|tok tokens IH]; intros st st' Hlen Hst; simpl.
  - by intros [= <-].
  - apply Forall_cons in Hlen as [Htok Hlen].
    intros (st1 & H1 & Hrest)%bind_Returned_inv.
    eapply IH; [done| |done]. by eapply encode_token_chained.
Qed.

Lemma encode_diffs_chained row qname diffs miss :
  encode_diffs reflen alphabet minq row = Returned (qname, diffs, miss) →
  ∃ lo hi, chained lo miss hi.
Proof.
  unfold encode_diffs.
  intros (st & Hloop & [= _ _ <-])%bind_Returned_inv.
  assert (∃ lo, chained lo (missing st) (rpos st)) as [lo Hst].
  { unfold encode_loop in Hloop.
    exists (0 `min` row_rpos row).
    eapply encode_tokens_chained; [apply findall_lengths| |done].
    unfold encode_init; simpl. case_decide; simpl; lia. }
  case_decide.
  - exists lo, reflen. eapply chained_snoc; [done|lia..].
  - by exists lo, (rpos st).
Qed.

End chained_ranges.

(** ** Identical spans *)

Lemma covered_span_check_miss (miss norm : list MissingRange) (lo hi : Z) :
  check_miss miss = Returned norm →
  covered_span miss = Returned (lo, hi) →
  ∃ x y rest, norm = (x, lo) :: (hi, y) :: rest.
Proof.
  intros Hnorm (x & y & rest & Hspan)%covered_span_Returned.
  rewrite Hnorm in Hspan. injection Hspan as ->. eauto.
Qed.

(** Two mates with the same span get the diffs they share and that span,
    whichever branch of [merge_diffs] is taken, as soon as their lists are
    the same or the span is an interval. *)
Lemma merge_diffs_same_span {order : SetOrder} (diff1 diff2 : list Diff)
    (miss1 miss2 norm1 norm2 : list MissingRange) (lo hi : Z) :
  check_miss miss1 = Returned norm1 →
  check_miss miss2 = Returned norm2 →
  covered_span miss1 = Returned (lo, hi) →
  covered_span miss2 = Returned (lo, hi) →
  norm1 = norm2 ∨ lo ≤ hi →
  merge_diffs diff1 diff2 miss1 miss2
  = Returned (in_both diff1 diff2, [(lo, hi)]).
Proof.
  intros Hn1 Hn2 (x1 & y1 & rest1 & H1)%covered_span_Returned
         (x2 & y2 & rest2 & H2)%covered_span_Returned Hor.
  rewrite (merge_diffs_normalized _ _ _ _ _ _ _ _ _ _ _ _ _ _ H1 H2).
  case_decide as Heq; [done|].
  destruct Hor as [Hsame|Hle]; [congruence|].
  case_decide; [lia|].
  rewrite Z.min_id, Z.max_id, filter_none, app_nil_r; [done|].
  intros d _ Hd%single_cover_spec. simpl in Hd. lia.
Qed.

(** Lists that come out of [encode_diffs] and give the same span are the
    same after [check_miss], unless the span is an interval. *)
Lemma same_span_same_list_or_interval (l1 h1 l2 h2 lo hi : Z)
    (miss1 miss2 norm1 norm2 : list MissingRange) :
  chained l1 miss1 h1 → chained l2 miss2 h2 →
  check_miss miss1 = Returned norm1 →
  check_miss miss2 = Returned norm2 →
  covered_span miss1 = Returned (lo, hi) →
  covered_span miss2 = Returned (lo, hi) →
  norm1 = norm2 ∨ lo ≤ hi.
Proof.
  intros Hc1 Hc2 Hn1 Hn2 Hs1 Hs2.
  destruct (covered_span_check_miss _ _ _ _ Hn1 Hs1) as (x1 & y1 & r1 & E1).
  destruct (covered_span_check_miss _ _ _ _ Hn2 Hs2) as (x2 & y2 & r2 & E2).
  apply check_miss_Returned in Hn1 as [(b1 & -> & ->)|[(a1 & ? & -> & ->)|[_ ->]]];
  apply check_miss_Returned in Hn2 as [(b2 & -> & ->)|[(a2 & ? & -> & ->)|[_ ->]]];
    simplify_eq; auto;
    try (right; lia);
    try (right; by eapply chained_first_two).
Qed.

(** C5: two mates whose covered spans have the same [lo] and the same
    [hi] get exactly the diffs that both report, and the single interval
    [(lo, hi)]; a mate merged with itself gets its own diffs back. *)
Theorem C5_identical_spans {order : SetOrder} (reflen : Z) (alphabet : string)
    (minq : Z) (r1 r2 : Row) (q1 q2 : string) (diff1 diff2 : list Diff)
    (miss1 miss2 : list MissingRange) (lo hi : Z) :
  encode_diffs reflen alphabet minq r1 = Returned (q1, diff1, miss1) →
  encode_diffs reflen alphabet minq r2 = Returned (q2, diff2, miss2) →
  covered_span miss1 = Returned (lo, hi) →
  covered_span miss2 = Returned (lo, hi) →
  merge_diffs diff1 diff2 miss1 miss2
  = Returned (in_both diff1 diff2, [(lo, hi)])
  ∧ (∀ d, d ∈ in_both diff1 diff2 ↔ d ∈ diff1 ∧ d ∈ diff2)
  ∧ merge_diffs diff1 diff1 miss1 miss1 = Returned (diff1, [(lo, hi)]).
Proof.
  intros (l1 & h1 & Hc1)%encode_diffs_chained
         (l2 & h2 & Hc2)%encode_diffs_chained Hs1 Hs2.
  destruct (covered_span_Returned _ _ _ Hs1) as (x1 & y1 & rest1 & Hn1).
  destruct (covered_span_Returned _ _ _ Hs2) as (x2 & y2 & rest2 & Hn2).
  split; [|split].
  - apply (merge_diffs_same_span _ _ _ _ _ _ _ _ Hn1 Hn2 Hs1 Hs2).
    apply (same_span_same_list_or_interval _ _ _ _ _ _ _ _ _ _
             Hc1 Hc2 Hn1 Hn2 Hs1 Hs2).
  - apply in_both_spec.
  - rewrite (merge_diffs_same_span diff1 diff1 _ _ _ _ _ _ Hn1 Hn1 Hs1 Hs1)
      by (by left).
    by rewrite in_both_same.
Qed.

Lemma C5_identical_spans_witness :
  merge_diffs (order := first_seen_order) [Deletion 30 3] []
    [(0, 10); (53, 29903)] [(0, 10); (53, 29903)]
  = Returned ([], [(10, 53)])
  ∧ merge_diffs (order := first_seen_order) [Deletion 30 3] [Deletion 30 3]
      [(0, 10); (53, 29903)] [(0, 10); (53, 29903)]
    = Returned ([Deletion 30 3], [(10, 53)]).
Proof.
  pose proof (C5_identical_spans (order := first_seen_order) 29903 "ACGT" 10
    (mkRow "pair" 10 "20=3D20=" (Py.repeat "A" 40) (Py.repeat "I" 40))
    (mkRow "pair" 10 "43=" (Py.repeat "A" 43) (Py.repeat "I" 43))
    "pair" "pair" [Deletion 30 3] [] [(0, 10); (53, 29903)]
    [(0, 10); (53, 29903)] 10 53) as Hmerge.
  destruct Hmerge as (Hboth & _ & Hself); try (vm_compute; reflexivity).
  split; [exact Hboth|exact Hself].
Defined.

(** ** [matchmaker] *)

Lemma matchmaker_from_pending cached_rows row samfile old_row :
  cached_rows !! row_qname row = Some old_row →
  matchmaker_from cached_rows (row :: samfile)
  = ((old_row, row)
       :: (matchmaker_from (delete (row_qname row) cached_rows) samfile).1,
     (matchmaker_from (delete (row_qname row) cached_rows) samfile).2).
Proof. intros Hold. simpl. rewrite Hold. by destruct (matchmaker_from _ _). Qed.

Lemma matchmaker_from_fresh cached_rows row samfile :
  cached_rows !! row_qname row = None →
  matchmaker_from cached_rows (row :: samfile)
  = matchmaker_from (<[row_qname row := row]> cached_rows) samfile.
Proof. intros Hnone. simpl. by rewrite Hnone. Qed.

Lemma keyed_by_qname_insert cached_rows row :
  keyed_by_qname cached_rows →
  keyed_by_qname (<[row_qname row := row]> cached_rows).
Proof.
  intros Hkeyed qname row' [[<- <-]|[_ ?]]%lookup_insert_Some; [done|].
  by apply Hkeyed.
Qed.

Lemma keyed_by_qname_delete cached_rows qname :
  keyed_by_qname cached_rows → keyed_by_qname (delete qname cached_rows).
Proof. intros Hkeyed q row [_ ?]%lookup_delete_Some. by apply Hkeyed. Qed.

(** The two rows of a pair carry the same query name. *)
Lemma matchmaker_from_same_qname samfile :
  ∀ cached_rows pair,
    keyed_by_qname cached_rows →
    pair ∈ (matchmaker_from cached_rows samfile).1 →
    row_qname pair.1 = row_qname pair.2.
Proof.
  induction samfile as [|row samfile IH]; intros cached_rows pair Hkeyed.
  - simpl. by intros ?%elem_of_nil.
  - destruct (cached_rows !! row_qname row) as [old_row|] eqn:Hold.
    + rewrite (matchmaker_from_pending _ _ _ _ Hold). simpl.
      intros [->|Hin]%elem_of_cons.
      * simpl. by apply Hkeyed.
      * eapply IH; [|done]. by apply keyed_by_qname_delete.
    + rewrite (matchmaker_from_fresh _ _ _ Hold).
      apply IH. by apply keyed_by_qname_insert.
Qed.

(** Every row is either yielded in a pair or left in the dictionary. *)
Lemma matchmaker_from_conservation qname samfile :
  ∀ cached_rows,
    (2 * pairs_of qname (matchmaker_from cached_rows samfile).1
     + pending (matchmaker_from cached_rows samfile).2 qname
     = pending cached_rows qname + arrivals qname samfile)%nat.
Proof.
  unfold pairs_of, arrivals.
  induction samfile as [|row samfile IH]; intros cached_rows.
  - simpl. lia.
  - destruct (cached_rows !! row_qname row) as [old_row|] eqn:Hold.
    + rewrite (matchmaker_from_pending _ _ _ _ Hold). simpl.
      specialize (IH (delete (row_qname row) cached_rows)).
      destruct (decide (row_qname row = qname)) as [<-|Hne].
      * rewrite !filter_cons_True by done. simpl.
        unfold pending in *. rewrite lookup_delete_eq in IH. rewrite Hold. lia.
      * rewrite !filter_cons_False by done.
        unfold pending in *. by rewrite lookup_delete_ne in IH.
    + rewrite (matchmaker_from_fresh _ _ _ Hold).
      specialize (IH (<[row_qname row := row]> cached_rows)).
      destruct (decide (row_qname row = qname)) as [<-|Hne].
      * rewrite filter_cons_True by done. simpl.
        unfold pending in *. rewrite lookup_insert_eq in IH. rewrite Hold. lia.
      * rewrite filter_cons_False by done.
        unfold pending in *. by rewrite lookup_insert_ne in IH.
Qed.

Lemma pairs_of_zero qname pairs pair :
  pairs_of qname pairs = 0%nat → pair ∈ pairs → row_qname pair.2 ≠ qname.
Proof.
  unfold pairs_of. intros Hnil%nil_length_inv Hin Hq.
  eapply (filter_nil_not_elem_of _ _ pair); done.
Qed.

(** C8: [matchmaker] yields [(old_row, row)] and forgets [old_row] when the
    query name of [row] is cached, and caches [row] otherwise; a third row
    of a query name finds the first two paired and becomes the cached row
    of that name; every row of a query name is either yielded in a pair or
    left in the dictionary, which is dropped at the end, so that a query
    name that arrives once yields no pair. *)
Theorem C8_matchmaker :
  (∀ cached_rows row samfile old_row,
     cached_rows !! row_qname row = Some old_row →
     matchmaker_from cached_rows (row :: samfile)
     = ((old_row, row)
          :: (matchmaker_from (delete (row_qname row) cached_rows) samfile).1,
        (matchmaker_from (delete (row_qname row) cached_rows) samfile).2))
  ∧ (∀ cached_rows row samfile,
       cached_rows !! row_qname row = None →
       matchmaker_from cached_rows (row :: samfile)
       = matchmaker_from (<[row_qname row := row]> cached_rows) samfile)
  ∧ (∀ first second third samfile,
       row_qname second = row_qname first →
       row_qname third = row_qname first →
       matchmaker_from ∅ (first :: second :: third :: samfile)
       = ((first, second)
            :: (matchmaker_from {[row_qname first := third]} samfile).1,
          (matchmaker_from {[row_qname first := third]} samfile).2))
  ∧ (∀ samfile qname,
       (2 * pairs_of qname (matchmaker samfile)
        + pending (matchmaker_from ∅ samfile).2 qname
        = arrivals qname samfile)%nat)
  ∧ (∀ samfile qname pair,
       arrivals qname samfile = 1%nat →
       pair ∈ matchmaker samfile →
       row_qname pair.1 ≠ qname ∧ row_qname pair.2 ≠ qname).
Proof.
  split; [exact matchmaker_from_pending|].
  split; [exact matchmaker_from_fresh|].
  split; [|split].
  - intros first second third samfile H2 H3.
    rewrite matchmaker_from_fresh by done.
    rewrite (matchmaker_from_pending _ _ _ first)
      by (by rewrite H2, lookup_insert_eq).
    rewrite H2, delete_insert_id by done.
    rewrite matchmaker_from_fresh by done.
    by rewrite H3, insert_empty.
  - intros samfile qname.
    pose proof (matchmaker_from_conservation qname samfile ∅) as Hcons.
    unfold pending at 2 in Hcons. by rewrite lookup_empty in Hcons.
  - intros samfile qname pair Harr Hin.
    pose proof (matchmaker_from_conservation qname samfile ∅) as Hcons.
    unfold pending at 2 in Hcons. rewrite lookup_empty, Harr in Hcons.
    assert (row_qname pair.2 ≠ qname) as Hsecond.
    { eapply pairs_of_zero; [|exact Hin]. unfold matchmaker. lia. }
    split; [|done].
    by rewrite (matchmaker_from_same_qname samfile ∅ pair) by done.
Qed.

Lemma C8_matchmaker_witness :
  matchmaker_from ∅
    [mkRow "a" 0 "5=" "ACGTA" "IIIII"; mkRow "a" 3 "5=" "TACGT" "IIIII";
     mkRow "a" 9 "5=" "CCGTA" "IIIII"; mkRow "b" 0 "5=" "ACGTA" "IIIII"]
  = ([(mkRow "a" 0 "5=" "ACGTA" "IIIII", mkRow "a" 3 "5=" "TACGT" "IIIII")],
     (matchmaker_from {["a" := mkRow "a" 9 "5=" "CCGTA" "IIIII"]}
        [mkRow "b" 0 "5=" "ACGTA" "IIIII"]).2).
Proof.
  exact (proj1 (proj2 (proj2 C8_matchmaker))
           (mkRow "a" 0 "5=" "ACGTA" "IIIII") (mkRow "a" 3 "5=" "TACGT" "IIIII")
           (mkRow "a" 9 "5=" "CCGTA" "IIIII") [mkRow "b" 0 "5=" "ACGTA" "IIIII"]
           eq_refl eq_refl).
Defined.

(** ** [get_frequencies] *)

(** Two facts about loops whose body may fail. *)
Lemma for_each_returns {A S} (body : S → A → outcome S) (I : S → Prop)
    (P : A → Prop) (l : list A) :
  (∀ s x, I s → P x → ∃ s', body s x = Returned s' ∧ I s') →
  ∀ s, I s → Forall P l → ∃ s', for_each body s l = Returned s' ∧ I s'.
Proof.
  intros Hbody. induction l as [|x l IH]; intros s Hs Hl; simpl.
  - by exists s.
  - apply Forall_cons in Hl as [Hx Hl].
    destruct (Hbody s x Hs Hx) as (s1 & -> & Hs1). simpl. by apply IH.
Qed.

Lemma for_each_reaches {A S} (body : S → A → outcome S) (Q : S → Prop)
    (E : A → Prop) (l : list A) :
  (∀ s x s', body s x = Returned s' → Q s → Q s') →
  (∀ s x s', body s x = Returned s' → E x → Q s') →
  ∀ s s', for_each body s l = Returned s' → Q s ∨ Exists E l → Q s'.
Proof.
  intros Hkeep Hset. induction l as [|x l IH]; intros s s'; simpl.
  - intros [= <-] [?|?%Exists_nil]; done.
  - intros (s1 & H1 & Hrest)%bind_Returned_inv Hor.
    apply (IH s1 s' Hrest).
    destruct Hor as [?|[?|?]%Exists_cons]; eauto.
Qed.

(** A loop that keeps an invariant on what it has seen so far. *)
Lemma for_each_seen {A B S} (body : S → A → outcome S)
    (I : list B → S → Prop) (proj : A → list B) (l : list A) :
  (∀ s x s' seen,
     body s x = Returned s' → I seen s → I (seen ++ proj x) s') →
  ∀ s s' seen,
    for_each body s l = Returned s' → I seen s → I (seen ++ l ≫= proj) s'.
Proof.
  intros Hbody. induction l as [|x l IH]; intros s s' seen; simpl.
  - intros [= <-]. by rewrite app_nil_r.
  - intros (s1 & H1 & Hrest)%bind_Returned_inv Hs.
    rewrite app_assoc. apply (IH s1 s' _ Hrest). by eapply Hbody.
Qed.

Lemma imap_bind_snd {B} (l : list B) (g : nat → nat) :
  imap (λ i d, (g i, d)) l ≫= (λ id, [id.2]) = l.
Proof.
  revert g. induction l as [|d l IH]; intros g; [done|].
  simpl. f_equal. apply (IH (g ∘ S)).
Qed.

Lemma occurrences_snoc (seen : list Diff) (d : Diff) (p : Z) (key : string) :
  occurrences (seen ++ [d]) p key
  = if decide (pos d = p ∧ canonical_key d = key)
    then S (occurrences seen p key)
    else occurrences seen p key.
Proof.
  unfold occurrences. rewrite filter_app, length_app.
  case_decide.
  - rewrite filter_cons_True by done. simpl. lia.
  - rewrite filter_cons_False by done. simpl. lia.
Qed.

Section frequencies.
Context {Label : Type}.
Implicit Types (counts : gmap Z (gmap string (Tally Label))).
Implicit Types (coverage : gmap Z Z) (row : ResRow Label) (d : Diff).

(** A diff at a position of depth 0 changes nothing and raises nothing. *)
Lemma count_diff_zero coverage row counts i d lab :
  mutations row !! i = Some lab →
  coverage !! pos d = Some 0 →
  count_diff coverage row counts (i, d) = Returned counts.
Proof.
  intros Hlab Hcov. unfold count_diff, Py.index, Py.getitem.
  by rewrite Hlab, Hcov.
Qed.

Lemma count_diff_nonzero coverage row counts i d lab denom :
  mutations row !! i = Some lab →
  coverage !! pos d = Some denom →
  denom ≠ 0 →
  count_diff coverage row counts (i, d)
  = Returned (credit (pos d) (canonical_key d) lab denom counts).
Proof.
  intros Hlab Hcov Hdenom.
  unfold count_diff, Py.index, Py.getitem. rewrite Hlab, Hcov. simpl.
  rewrite decide_False by done.
  unfold open_pos, open_key, add_share, Py.getitem, credit, mret, outcome_ret.
  destruct (counts !! pos d) as [at_pos|] eqn:Hpos; simpl.
  - rewrite Hpos. simpl.
    destruct (at_pos !! canonical_key d) as [t|] eqn:Hkey; simpl.
    + rewrite Hpos. simpl. by rewrite Hkey.
    + repeat (rewrite lookup_insert_eq; simpl).
      by rewrite !insert_insert_eq.
  - repeat (rewrite ?lookup_insert_eq, ?lookup_empty; simpl).
    by rewrite !insert_insert_eq.
Qed.

(** [credit] adds [1/denom] to the sum kept under [(p, key)] ... *)
Lemma entry_credit_eq counts p key lab denom :
  ∃ t, entry (credit p key lab denom counts) p key = Some t
       ∧ tally t = PrimFloat.add (running_sum counts p key) (reciprocal denom).
Proof.
  unfold entry, credit, running_sum, entry.
  rewrite lookup_insert_eq. simpl. rewrite lookup_insert_eq.
  eexists; split; [done|]. simpl.
  destruct (counts !! p) as [at_pos|]; simpl; [|by rewrite lookup_empty].
  by destruct (at_pos !! key).
Qed.

(** ... and touches no other sum. *)
Lemma entry_credit_ne counts p key lab denom p' key' :
  (p', key') ≠ (p, key) →
  entry (credit p key lab denom counts) p' key' = entry counts p' key'.
Proof.
  intros Hne. unfold entry, credit.
  destruct (decide (p' = p)) as [->|]; [|by rewrite lookup_insert_ne].
  rewrite lookup_insert_eq. simpl.
  rewrite lookup_insert_ne by congruence.
  destruct (counts !! p); simpl; [done|by rewrite lookup_empty].
Qed.

Lemma entry_credit_keeps counts p key lab denom p' key' :
  is_Some (entry counts p' key') →
  is_Some (entry (credit p key lab denom counts) p' key').
Proof.
  destruct (decide ((p', key') = (p, key))) as [[= -> ->]|Hne].
  - intros _. destruct (entry_credit_eq counts p key lab denom) as (t & -> & _).
    by eexists.
  - by rewrite entry_credit_ne.
Qed.

Lemma lookup_credit counts p key lab denom p' :
  is_Some (credit p key lab denom counts !! p')
  ↔ is_Some (counts !! p') ∨ p' = p.
Proof.
  unfold credit. rewrite lookup_insert_is_Some'.
  split; intros [?|?]; auto.
Qed.

Lemma count_diff_Returned coverage row counts counts' i d :
  count_diff coverage row counts (i, d) = Returned counts' →
  ∃ lab denom,
    mutations row !! i = Some lab
    ∧ coverage !! pos d = Some denom
    ∧ counts' = if decide (denom = 0) then counts
                else credit (pos d) (canonical_key d) lab denom counts.
Proof.
  intros Hret.
  destruct (mutations row !! i) as [lab|] eqn:Hlab;
    [|unfold count_diff, Py.index in Hret; by rewrite Hlab in Hret].
  destruct (coverage !! pos d) as [denom|] eqn:Hcov;
    [|unfold count_diff, Py.index, Py.getitem in Hret;
      by rewrite Hlab, Hcov in Hret].
  exists lab, denom. split; [done|]. split; [done|].
  case_decide as Hdenom.
  - subst denom. rewrite (count_diff_zero _ _ _ _ _ lab) in Hret by done.
    by injection Hret.
  - rewrite (count_diff_nonzero _ _ _ _ _ lab denom) in Hret by done.
    by injection Hret.
Qed.

Lemma count_diff_only_covered coverage row counts i d :
  only_covered coverage counts →
  is_Some (mutations row !! i) → is_Some (coverage !! pos d) →
  ∃ counts', count_diff coverage row counts (i, d) = Returned counts'
             ∧ only_covered coverage counts'.
Proof.
  intros Hcounts [lab Hlab] [denom Hcov].
  destruct (decide (denom = 0)) as [->|Hdenom].
  - exists counts. split; [|done]. by eapply count_diff_zero.
  - eexists. split; [by eapply count_diff_nonzero|].
    intros p [?| ->]%lookup_credit; [by apply Hcounts|eauto].
Qed.

Lemma count_row_only_covered coverage row counts :
  only_covered coverage counts → countable_row coverage row →
  ∃ counts', count_row coverage counts row = Returned counts'
             ∧ only_covered coverage counts'.
Proof.
  intros Hcounts [Hlen Hpos]. unfold count_row.
  apply (for_each_returns _ (only_covered coverage)
           (λ id, is_Some (mutations row !! id.1)
                  ∧ is_Some (coverage !! pos id.2))); [|done|].
  - intros s [i d] Hs [Hi Hd]. by apply count_diff_only_covered.
  - apply Forall_forall. intros [i d] Hin.
    apply elem_of_lookup_imap in Hin as (j & d' & [= -> ->] & Hj). split; simpl.
    + apply lookup_lt_is_Some. apply lookup_lt_Some in Hj. lia.
    + rewrite Forall_forall in Hpos. apply Hpos.
      by eapply list_elem_of_lookup_2.
Qed.

Lemma count_diff_keeps coverage row counts counts' id p k :
  count_diff coverage row counts id = Returned counts' →
  is_Some (entry counts p k) → is_Some (entry counts' p k).
Proof.
  destruct id as [i d].
  intros (lab & denom & _ & _ & ->)%count_diff_Returned Hentry.
  case_decide; [done|]. by apply entry_credit_keeps.
Qed.

Lemma count_row_reaches coverage row counts counts' d denom :
  count_row coverage counts row = Returned counts' →
  coverage !! pos d = Some denom → denom ≠ 0 →
  is_Some (entry counts (pos d) (canonical_key d)) ∨ d ∈ diff row →
  is_Some (entry counts' (pos d) (canonical_key d)).
Proof.
  intros Hrow Hcov Hdenom Hor. unfold count_row in Hrow.
  apply (for_each_reaches _
           (λ counts, is_Some (entry counts (pos d) (canonical_key d)))
           (λ id, id.2 = d) _
           (λ s x s', count_diff_keeps coverage row s s' x _ _)) in Hrow;
    [done| |].
  - intros s [i d'] s' (lab & denom' & _ & Hcov' & ->)%count_diff_Returned.
    simpl. intros ->. rewrite Hcov in Hcov'. injection Hcov' as <-.
    rewrite decide_False by done.
    destruct (entry_credit_eq s (pos d) (canonical_key d) lab denom)
      as (t & -> & _).
    by eexists.
  - destruct Hor as [?|Hin]; [by left|right].
    apply Exists_exists.
    apply list_elem_of_lookup in Hin as [i Hi].
    exists (i, d). split; [|done].
    apply elem_of_lookup_imap. eauto.
Qed.

(** One diff more: its share is added under its position and its key,
    when its position has a depth other than 0. *)
Lemma count_diff_sums coverage row counts counts' i d seen :
  count_diff coverage row counts (i, d) = Returned counts' →
  sums_of coverage seen counts →
  sums_of coverage (seen ++ [d]) counts'.
Proof.
  intros (lab & denom' & _ & Hcov' & ->)%count_diff_Returned Hseen.
  intros p key denom Hcov Hdenom.
  destruct (Hseen p key denom Hcov Hdenom) as [Hsum Hentry].
  rewrite occurrences_snoc.
  destruct (decide (pos d = p ∧ canonical_key d = key)) as [[<- <-]|Hother].
  - rewrite Hcov in Hcov'. injection Hcov' as <-.
    rewrite decide_False by done.
    destruct (entry_credit_eq counts (pos d) (canonical_key d) lab denom)
      as (t & Ht & Htally).
    unfold running_sum at 1. rewrite Ht, Htally, Hsum.
    split; [done|]. split; [lia|by eexists].
  - assert ((p, key) ≠ (pos d, canonical_key d)) as Hne
      by (intros [= -> ->]; by apply Hother).
    case_decide; [done|].
    unfold running_sum at 1. rewrite entry_credit_ne by done.
    split; [exact Hsum|done].
Qed.

Lemma count_row_sums coverage row counts counts' seen :
  count_row coverage counts row = Returned counts' →
  sums_of coverage seen counts →
  sums_of coverage (seen ++ diff row) counts'.
Proof.
  intros Hrow Hseen. unfold count_row in Hrow.
  rewrite <- (imap_bind_snd (diff row) id).
  apply (for_each_seen (count_diff coverage row) (sums_of coverage)
           (λ id, [id.2]) _
           (λ s x, match x with
                   | (i, d) => λ s' seen', count_diff_sums coverage row s s' i d seen'
                   end) counts counts' seen Hrow Hseen).
Qed.

Lemma get_frequencies_sums coverage (res : list (ResRow Label)) counts :
  get_frequencies res coverage = Returned counts →
  sums_of coverage (res ≫= diff) counts.
Proof.
  intros Hres.
  apply (for_each_seen (count_row coverage) (sums_of coverage) diff res
           (λ s x s' seen, count_row_sums coverage x s s' seen)
           ∅ counts [] Hres).
  intros p key denom _ _. unfold running_sum, entry. rewrite lookup_empty.
  split; [done|]. change (occurrences [] p key) with 0%nat.
  split; [by intros [? ?]|lia].
Qed.

End frequencies.

(** The shares of small and of large depths: the quotient is rounded once,
    also when the depth itself is not a float. *)
Lemma reciprocal_rounds_once :
  reciprocal 1 = 1%float
  ∧ reciprocal 10 = 0x1.999999999999ap-4%float
  ∧ reciprocal (-4) = (-0.25)%float
  ∧ reciprocal (2 ^ 53 + 1) = 0x1.fffffffffffffp-54%float
  ∧ reciprocal (2 ^ 63) = 0x1p-63%float
  ∧ reciprocal (2 ^ 1075) = 0%float.
Proof. repeat split; vm_compute; reflexivity. Qed.

(** C6: a diff at a position of depth 0 leaves the table of frequencies
    as it is and raises nothing, however often it occurs, so that the
    table returned by [get_frequencies] has nothing under a position of
    depth 0; a diff at a position of non-zero depth has its entry. *)
Theorem C6_zero_depth_excluded {Label : Type} (res : list (ResRow Label))
    (coverage : gmap Z Z) :
  Forall (countable_row coverage) res →
  (∀ row counts i d lab,
     row ∈ res → mutations row !! i = Some lab → coverage !! pos d = Some 0 →
     count_diff coverage row counts (i, d) = Returned counts)
  ∧ ∃ counts,
      get_frequencies res coverage = Returned counts
      ∧ (∀ p, coverage !! p = Some 0 → counts !! p = None)
      ∧ (∀ row d denom,
           row ∈ res → d ∈ diff row →
           coverage !! pos d = Some denom → denom ≠ 0 →
           is_Some (entry counts (pos d) (canonical_key d))).
Proof.
  intros Hres. split.
  { intros row counts i d lab _. apply count_diff_zero. }
  destruct (for_each_returns (count_row coverage) (only_covered coverage)
              (countable_row coverage) res
              (λ s x Hs Hx, count_row_only_covered coverage x s Hs Hx) ∅)
    as (counts & Hcounts & Hcovered); [|done|].
  { intros p [? Hp]. by rewrite lookup_empty in Hp. }
  exists counts. split; [done|]. split.
  - intros p Hzero. destruct (counts !! p) eqn:Hp; [|done].
    destruct (Hcovered p) as (denom & Hdenom & ?); [by eexists|congruence].
  - intros row d denom Hrow Hd Hcov Hdenom.
    apply (for_each_reaches (count_row coverage)
             (λ counts, is_Some (entry counts (pos d) (canonical_key d)))
             (λ row, d ∈ diff row) res) with (s := ∅) (s' := counts).
    + intros s x s' Hx Hs. eapply count_row_reaches; eauto.
    + intros s x s' Hx Hin. eapply count_row_reaches; eauto.
    + done.
    + right. apply Exists_exists. eauto.
Qed.

Lemma C6_zero_depth_excluded_witness :
  ∃ counts : gmap Z (gmap string (Tally string)),
    get_frequencies
      [mkRes [Substitution 7 "T"; Deletion 100 3] ["S:A3V"; "del"];
       mkRes [Substitution 7 "T"] ["S:A3V"]]
      (<[7 := 0]> {[100 := 4]})
    = Returned counts
    ∧ (∀ p, (<[7 := 0]> {[100 := 4]} : gmap Z Z) !! p = Some 0 →
            counts !! p = None)
    ∧ (∀ row d denom,
         row ∈ [mkRes [Substitution 7 "T"; Deletion 100 3] ["S:A3V"; "del"];
                mkRes [Substitution 7 "T"] ["S:A3V"]] →
         d ∈ diff row →
         (<[7 := 0]> {[100 := 4]} : gmap Z Z) !! pos d = Some denom →
         denom ≠ 0 →
         is_Some (entry counts (pos d) (canonical_key d))).
Proof.
  apply (C6_zero_depth_excluded
           [mkRes [Substitution 7 "T"; Deletion 100 3] ["S:A3V"; "del"];
            mkRes [Substitution 7 "T"] ["S:A3V"]]
           (<[7 := 0]> {[100 := 4]})).
  repeat constructor; simpl; by eexists.
Defined.

(** C7: a diff at a position of depth [denom ≠ 0] adds [1/denom] to the
    sum kept under its position and its key, and to no other sum; so the
    sum that [get_frequencies] returns under a position of depth
    [denom ≠ 0] and a key is [1/denom] added to 0.0 once for every diff of
    the rows with that position and key, and there is an entry when there
    is such a diff; the key is the marker of the diff, its position counted
    from 1 and, for a substitution, the new base, or else a dot and the
    payload; two substitutions of T at position 100, of depth 10, add up to
    twice 1/10, the float 0.2. *)
Theorem C7_frequency_share {Label : Type} :
  (∀ coverage (row : ResRow Label) counts i d lab denom,
     mutations row !! i = Some lab →
     coverage !! pos d = Some denom →
     denom ≠ 0 →
     ∃ counts' t,
       count_diff coverage row counts (i, d) = Returned counts'
       ∧ entry counts' (pos d) (canonical_key d) = Some t
       ∧ tally t
         = PrimFloat.add (running_sum counts (pos d) (canonical_key d))
             (reciprocal denom)
       ∧ ∀ p k, (p, k) ≠ (pos d, canonical_key d) →
                entry counts' p k = entry counts p k)
  ∧ (∀ (res : list (ResRow Label)) coverage,
       Forall (countable_row coverage) res →
       ∃ counts,
         get_frequencies res coverage = Returned counts
         ∧ ∀ p key denom,
             coverage !! p = Some denom → denom ≠ 0 →
             running_sum counts p key
             = share_sum denom (occurrences (res ≫= diff) p key)
             ∧ (is_Some (entry counts p key)
                ↔ (0 < occurrences (res ≫= diff) p key)%nat))
  ∧ (∀ p nt,
       canonical_key (Substitution p nt) = "~" +:+ Py.str (p + 1) +:+ Py.chr nt)
  ∧ (∀ p s,
       canonical_key (Insertion p s) = "+" +:+ Py.str (p + 1) +:+ "." +:+ s)
  ∧ (∀ p n,
       canonical_key (Deletion p n)
       = "-" +:+ Py.str (p + 1) +:+ "." +:+ Py.str n)
  ∧ (∀ lab : Label,
       ∃ counts t,
         get_frequencies
           [mkRes [Substitution 100 "T"] [lab]; mkRes [Substitution 100 "T"] [lab]]
           {[100 := 10]}
         = Returned counts
         ∧ entry counts 100 "~101T" = Some t
         ∧ label t = lab
         ∧ tally t = PrimFloat.mul 2 (reciprocal 10)
         ∧ tally t = 0x1.999999999999ap-3%float).
Proof.
  split; [|split; [|repeat split]].
  - intros coverage row counts i d lab denom Hlab Hcov Hdenom.
    destruct (entry_credit_eq counts (pos d) (canonical_key d) lab denom)
      as (t & Ht & Hsum).
    exists (credit (pos d) (canonical_key d) lab denom counts), t.
    split; [by apply count_diff_nonzero|]. split; [done|]. split; [done|].
    intros p k Hne. by apply entry_credit_ne.
  - intros res coverage Hres.
    destruct (for_each_returns (count_row coverage) (only_covered coverage)
                (countable_row coverage) res
                (λ s x Hs Hx, count_row_only_covered coverage x s Hs Hx) ∅)
      as (counts & Hcounts & _); [|done|].
    { intros p [? Hp]. by rewrite lookup_empty in Hp. }
    exists counts. split; [done|]. by apply get_frequencies_sums.
  - intros lab. eexists _, _.
    split; [vm_compute; reflexivity|].
    split; [vm_compute; reflexivity|].
    split; [reflexivity|]. split; vm_compute; reflexivity.
Qed.

Lemma C7_frequency_share_witness :
  ∃ counts : gmap Z (gmap string (Tally string)),
    get_frequencies
      [mkRes [Substitution 100 "T"; Deletion 5 3] ["S:A34V"; "del"];
       mkRes [Deletion 5 3; Substitution 100 "T"; Insertion 5 "AC"]
         ["del"; "S:A34V"; "ins"]]
      (<[5 := 3]> {[100 := 10]})
    = Returned counts
    ∧ running_sum counts 100 "~101T" = 0x1.999999999999ap-3%float
    ∧ running_sum counts 5 "-6.3" = 0x1.5555555555555p-1%float
    ∧ running_sum counts 5 "+6.AC" = 0x1.5555555555555p-2%float.
Proof.
  destruct (proj1 (proj2 (C7_frequency_share (Label := string)))
              [mkRes [Substitution 100 "T"; Deletion 5 3] ["S:A34V"; "del"];
               mkRes [Deletion 5 3; Substitution 100 "T"; Insertion 5 "AC"]
                 ["del"; "S:A34V"; "ins"]]
              (<[5 := 3]> {[100 := 10]}))
    as (counts & Hret & Hsums).
  { repeat constructor; simpl; by eexists. }
  exists counts. split; [exact Hret|].
  split; [|split].
  - rewrite (proj1 (Hsums 100 "~101T" 10 eq_refl ltac:(lia))).
    vm_compute. reflexivity.
  - rewrite (proj1 (Hsums 5 "-6.3" 3 eq_refl ltac:(lia))).
    vm_compute. reflexivity.
  - rewrite (proj1 (Hsums 5 "+6.AC" 3 eq_refl ltac:(lia))).
    vm_compute. reflexivity.
Defined.

(** ** [sys.exit()] ends the run *)

Lemma encode_tokens_app alphabet minq seq qual st tokens1 tokens2 :
  encode_tokens alphabet minq seq qual st (tokens1 ++ tokens2)
  = encode_tokens alphabet minq seq qual st tokens1
    ≫= λ st', encode_tokens alphabet minq seq qual st' tokens2.
Proof.
  revert st. induction tokens1 as [|tok tokens1 IH]; intros st; simpl; [done|].
  destruct (encode_token alphabet minq seq qual st tok); simpl; auto.
Qed.

(** The operators that the pattern of [findall] accepts and the loop of
    [encode_diffs] does not handle. *)
Lemma encode_token_unexpected alphabet minq seq qual st digits op :
  op ∈ [OpM; OpN; OpP] →
  encode_token alphabet minq seq qual st (digits, op) = SystemExit.
Proof. intros Hop. destruct op; try done; by absurd_member Hop. Qed.

Lemma encode_diffs_unexpected reflen alphabet minq row tokens digits op rest st :
  findall (row_cigar row) = tokens ++ (digits, op) :: rest →
  op ∈ [OpM; OpN; OpP] →
  encode_tokens alphabet minq (row_seq row) (row_qual row) (encode_init row)
    tokens = Returned st →
  encode_diffs reflen alphabet minq row = SystemExit.
Proof.
  intros Hfind Hop Htokens. unfold encode_diffs, encode_loop.
  rewrite Hfind, encode_tokens_app, Htokens. simpl.
  by rewrite encode_token_unexpected.
Qed.

Lemma merge_diffs_unexpected {order : SetOrder} diff1 diff2 miss1 miss2 :
  check_miss miss1 = SystemExit
  ∨ (returned (check_miss miss1) ∧ check_miss miss2 = SystemExit) →
  merge_diffs diff1 diff2 miss1 miss2 = SystemExit.
Proof.
  unfold merge_diffs. intros [->|[[norm1 ->] ->]]; done.
Qed.

Section fatal.
Context {Label : Type} (parse_mutation : Diff → Label) {order : SetOrder}.

Lemma parse_pair_exits st r1 r2 :
  pair_exits r1 r2 → parse_pair parse_mutation st (r1, r2) = SystemExit.
Proof.
  unfold parse_pair.
  intros [->|(q1 & d1 & m1 & -> & [->|(q2 & d2 & m2 & -> & Hmerge)])];
    simpl; [done..|].
  by rewrite Hmerge.
Qed.

Lemma parse_loop_exits {A}
    (body : ParseState Label → A → outcome (ParseState Label))
    stop st row iter :
  body st row = SystemExit →
  parse_loop body stop st (row :: iter) = SystemExit.
Proof. intros Hbody. simpl. by rewrite Hbody. Qed.

Lemma matchmaker_first_pair r1 r2 mm2 :
  row_qname r2 = row_qname r1 →
  matchmaker (r1 :: r2 :: mm2) = (r1, r2) :: matchmaker mm2.
Proof.
  intros Hq. unfold matchmaker.
  rewrite matchmaker_from_fresh by done.
  rewrite (matchmaker_from_pending _ _ _ r1)
    by (by rewrite Hq, lookup_insert_eq).
  simpl. by rewrite Hq, delete_insert_id.
Qed.

End fatal.

(** C1, as stated, fails: a pair that reaches [sys.exit()] is not skipped;
    the run ends there, and nothing is returned. *)
Lemma C1_exit_is_not_a_skip :
  ¬ (∀ (order : SetOrder) (r1 r2 : Row) (mm2 : list Row) stop maxpos,
       row_qname r2 = row_qname r1 →
       pair_exits r1 r2 →
       parse_mm2 (λ _, ()) (r1 :: r2 :: mm2) true stop maxpos
       = parse_mm2 (λ _, ()) mm2 true stop maxpos).
Proof.
  intros Hclaim.
  specialize (Hclaim first_seen_order
                (mkRow "a" 0 "5M" "ACGTA" "IIIII")
                (mkRow "a" 3 "5=" "TACGT" "IIIII") [] None 0 eq_refl).
  vm_compute in Hclaim. by specialize (Hclaim (or_introl eq_refl)).
Qed.

(** C1 (amended): an operator that the loop of [encode_diffs] does not
    handle (['M'], ['N'] or ['P']), and a single missing range that
    [check_miss] cannot restore, end the interpreter through
    [sys.exit()]; [parse_mm2] then returns nothing, whatever follows in the
    stream, for paired and for single reads. *)
Theorem C1_errors_end_the_run {Label : Type} (parse_mutation : Diff → Label)
    {order : SetOrder} :
  (∀ reflen alphabet minq row tokens digits op rest st,
     findall (row_cigar row) = tokens ++ (digits, op) :: rest →
     op ∈ [OpM; OpN; OpP] →
     encode_tokens alphabet minq (row_seq row) (row_qual row)
       (encode_init row) tokens = Returned st →
     encode_diffs reflen alphabet minq row = SystemExit)
  ∧ (∀ a b, a ≠ 0 → b ≠ 29903 → check_miss [(a, b)] = SystemExit)
  ∧ (∀ diff1 diff2 miss1 miss2,
       check_miss miss1 = SystemExit
       ∨ (returned (check_miss miss1) ∧ check_miss miss2 = SystemExit) →
       merge_diffs diff1 diff2 miss1 miss2 = SystemExit)
  ∧ (∀ st r1 r2 iter stop,
       pair_exits r1 r2 →
       parse_loop (parse_pair parse_mutation) stop st ((r1, r2) :: iter)
       = SystemExit)
  ∧ (∀ r1 r2 mm2 stop maxpos,
       row_qname r2 = row_qname r1 →
       pair_exits r1 r2 →
       parse_mm2 parse_mutation (r1 :: r2 :: mm2) true stop maxpos
       = SystemExit)
  ∧ (∀ row mm2 stop maxpos,
       encode_diffs 29903 "ACGT" 10 row = SystemExit →
       parse_mm2 parse_mutation (row :: mm2) false stop maxpos = SystemExit).
Proof.
  split; [exact encode_diffs_unexpected|].
  split; [intros a b Ha Hb; rewrite check_miss_single; by repeat case_decide|].
  split; [exact merge_diffs_unexpected|].
  split; [|split].
  - intros st r1 r2 iter stop Hexit.
    apply parse_loop_exits. by apply parse_pair_exits.
  - intros r1 r2 mm2 stop maxpos Hq Hexit. unfold parse_mm2.
    rewrite matchmaker_first_pair by done.
    rewrite parse_loop_exits; [done|]. by apply parse_pair_exits.
  - intros row mm2 stop maxpos Hexit. unfold parse_mm2.
    rewrite parse_loop_exits; [done|].
    unfold parse_single. by rewrite Hexit.
Qed.

Lemma C1_errors_end_the_run_witness :
  parse_mm2 (order := first_seen_order) (λ _, ())
    [mkRow "a" 0 "5M" "ACGTA" "IIIII"; mkRow "a" 3 "5=" "TACGT" "IIIII";
     mkRow "b" 0 "5=" "ACGTA" "IIIII"; mkRow "b" 3 "5=" "TACGT" "IIIII"]
    true None 29903
  = SystemExit.
Proof.
  apply (proj1 (proj2 (proj2 (proj2 (proj2
           (C1_errors_end_the_run (order := first_seen_order) (λ _, ()))))))).
  - reflexivity.
  - left. reflexivity.
Defined.


(** * Further properties of the code *)

(** ** The tokenizer *)

Lemma append_cons (c : ascii) (s1 s2 : string) :
  String c s1 +:+ s2 = String c (s1 +:+ s2).
Proof. reflexivity. Qed.

Lemma append_assoc (s1 s2 s3 : string) :
  (s1 +:+ s2) +:+ s3 = s1 +:+ (s2 +:+ s3).
Proof.
  induction s1 as [|c s1 IH]; [done|]. by rewrite !append_cons, IH.
Qed.

Lemma append_empty_r (s : string) : s +:+ EmptyString = s.
Proof. induction s as [|c s IH]; [done|]. by rewrite append_cons, IH. Qed.

Lemma digits_only_cons (c : ascii) (s : string) :
  digits_only (String c s) ↔ is_digit c ∧ digits_only s.
Proof.
  unfold digits_only. simpl.
  apply (Forall_cons (λ c : ascii, Is_true (is_digit c))).
Qed.

Lemma findall_from_run (run digits rest : string) :
  digits_only digits →
  findall_from run (digits +:+ rest) = findall_from (run +:+ digits) rest.
Proof.
  revert run. induction digits as [|c digits IH]; intros run Hdigits.
  - by rewrite append_empty_r.
  - apply digits_only_cons in Hdigits as [Hc Hdigits].
    rewrite append_cons. simpl.
    destruct (is_digit c); [|done].
    rewrite IH by done. by rewrite append_assoc.
Qed.

Lemma operator_char_scanned (op : operator) :
  is_digit (operator_char op) = false
  ∧ operator_of_ascii (operator_char op) = Some op.
Proof. by destruct op. Qed.

Lemma findall_from_nonempty (run s : string) :
  Forall (λ tok, tok.1 ≠ EmptyString) (findall_from run s).
Proof.
  revert run. induction s as [|c s IH]; intros run; simpl; [constructor|].
  destruct (is_digit c); [done|].
  destruct (operator_of_ascii c); [|done].
  case_decide; [done|]. by constructor.
Qed.

(** X1: [findall] reads back the tokens of a CIGAR string written from
    lengths that are non-empty runs of digits. *)
Theorem X1_findall_render (tokens : list (string * operator)) :
  Forall (λ tok, tok.1 ≠ EmptyString ∧ digits_only tok.1) tokens →
  findall (render tokens) = tokens.
Proof.
  unfold findall.
  induction 1 as [|[digits op] tokens [Hne Hdigits] _ IH]; simpl in *; [done|].
  rewrite findall_from_run by done. simpl.
  destruct (operator_char_scanned op) as [-> ->].
  rewrite decide_False by done. by rewrite IH.
Qed.

Lemma X1_findall_render_witness :
  findall (render [("12", OpEq); ("3", OpX); ("40", OpS)])
  = [("12", OpEq); ("3", OpX); ("40", OpS)].
Proof.
  apply (X1_findall_render [("12", OpEq); ("3", OpX); ("40", OpS)]).
  repeat constructor; by vm_compute.
Defined.

(** X2: every token that [findall] returns has a length that is a
    non-empty run of digits, so that [int(length)] is a number that is not
    negative, whatever the CIGAR string holds. *)
Theorem X2_findall_tokens (cigar : string) :
  Forall (λ tok, tok.1 ≠ EmptyString ∧ digits_only tok.1 ∧ 0 ≤ Py.int tok.1)
    (findall cigar).
Proof.
  unfold findall. apply Forall_and. split; [apply findall_from_nonempty|].
  eapply Forall_impl; [apply findall_from_digits; constructor|].
  intros tok Hdigits. split; [done|]. by apply int_nonneg.
Qed.

(** ** The cursors, the missing ranges and the diffs of [encode_diffs] *)

Lemma chained_bounds (lo hi : Z) (miss : list MissingRange) :
  chained lo miss hi →
  lo ≤ hi ∧ Forall (λ m, lo ≤ m.1 ∧ m.1 ≤ m.2 ∧ m.2 ≤ hi) miss.
Proof.
  revert lo. induction miss as [|[a b] miss IH]; intros lo; simpl.
  - intros. split; [done|constructor].
  - intros (Hlo & Hab & [Hbhi Hrest]%IH). split; [lia|].
    constructor; [simpl; lia|].
    eapply Forall_impl; [done|]. simpl. intros m. lia.
Qed.

Lemma chained_ordered (lo hi : Z) (miss : list MissingRange) :
  chained lo miss hi →
  ∀ i j mi mj,
    (i < j)%nat → miss !! i = Some mi → miss !! j = Some mj → mi.2 ≤ mj.1.
Proof.
  revert lo. induction miss as [|[a b] miss IH]; intros lo; simpl.
  - intros _ i j mi mj _ Hi. by rewrite lookup_nil in Hi.
  - intros (_ & _ & Hrest) [|i] [|j] mi mj Hij; simpl; try lia.
    + intros [= <-] Hj. simpl.
      apply chained_bounds in Hrest as [_ Hall].
      rewrite Forall_forall in Hall.
      apply list_elem_of_lookup_2, Hall in Hj. lia.
    + apply (IH b Hrest). lia.
Qed.

Lemma positions_snoc (diffs : list Diff) (d : Diff) :
  positions (diffs ++ [d]) = positions diffs ++ [(pos d, pos d)].
Proof. unfold positions. by rewrite fmap_app. Qed.

Lemma char_in_enumerate (s : string) (i : nat) (c : ascii) :
  (i, c) ∈ Py.enumerate s → Py.char_in c s = true.
Proof.
  unfold Py.enumerate. intros (j & c' & [= -> ->] & Hj)%elem_of_lookup_imap.
  apply list_elem_of_lookup_2 in Hj. clear j.
  induction s as [|c0 s IH]; simpl in *; [by apply elem_of_nil in Hj|].
  case_decide; [done|]. apply elem_of_cons in Hj as [?|?]; [done|by apply IH].
Qed.

Section encode_invariants.
Variables (alphabet : string) (minq : Z).

Lemma diffs_kept_mono lo diffs cursor cursor' :
  diffs_kept alphabet lo diffs cursor → cursor ≤ cursor' → diffs_kept alphabet lo diffs cursor'.
Proof. intros [? ?] ?. split; [by eapply chained_mono|done]. Qed.

Lemma diffs_kept_snoc lo diffs cursor cursor' d :
  diffs_kept alphabet lo diffs cursor →
  cursor ≤ pos d → pos d ≤ cursor' → diff_event alphabet d →
  diffs_kept alphabet lo (diffs ++ [d]) cursor'.
Proof.
  intros [? ?] ? ? ?. split.
  - rewrite positions_snoc.
    eapply chained_mono; [by eapply chained_snoc|done].
  - apply Forall_app. split; [done|by constructor].
Qed.

Lemma mismatch_run_diffs_kept lo rpos subqual (bases : list ascii) :
  ∀ (k : nat) acc acc',
    Forall (λ nt, nt ≠ "N"%char) bases →
    diffs_kept alphabet lo acc.1 (rpos + Z.of_nat k) →
    mismatch_run alphabet minq rpos subqual acc
      (imap (λ i c, ((k + i)%nat, c)) bases) = Returned acc' →
    diffs_kept alphabet lo acc'.1 (rpos + Z.of_nat (k + length bases)).
Proof.
  induction bases as [|nt bases IH]; intros k acc acc' Hbases Hacc; simpl.
  - intros [= <-]. by rewrite Nat.add_0_r.
  - apply Forall_cons in Hbases as [Hnt Hbases].
    intros (acc1 & Hbase & Hrun)%bind_Returned_inv.
    rewrite (imap_ext _ (λ i c, ((S k + i)%nat, c))) in Hrun
      by (intros; simpl; f_equal; lia).
    replace (k + S (length bases))%nat with (S k + length bases)%nat by lia.
    apply (IH (S k) acc1); [done| |done].
    unfold mismatch_base in Hbase.
    apply bind_Returned_inv in Hbase as (c & _ & Hbase).
    rewrite Nat.add_0_r in Hbase.
    destruct (Py.char_in nt alphabet) eqn:Hin; simpl in Hbase;
      [destruct (bool_decide (minq ≤ Py.ord c - 33))|];
      injection Hbase as <-; simpl.
    + eapply diffs_kept_snoc; [done|simpl; lia..|].
      left. exists nt. by rewrite Hin.
    + eapply diffs_kept_mono; [done|lia].
    + eapply diffs_kept_mono; [done|lia].
Qed.

(** One token moves the two cursors by what it consumes and keeps the
    list of diffs in order. *)
Lemma encode_token_step lo seq qual st st' tok :
  0 ≤ Py.int tok.1 →
  encode_token alphabet minq seq qual st tok = Returned st' →
  left st' = left st + query_consumed tok
  ∧ rpos st' = rpos st + ref_consumed tok
  ∧ (diffs_kept alphabet lo (diffs st) (rpos st) → diffs_kept alphabet lo (diffs st') (rpos st')).
Proof.
  intros Hlen. unfold encode_token, query_consumed, ref_consumed.
  destruct tok as [digits []]; simpl in *; try done;
    try (intros [= <-]; simpl; split; [lia|split; [lia|intros Hst]]).
  - eapply diffs_kept_snoc; [done|simpl; lia..|]. right; left. by eexists.
  - eapply diffs_kept_snoc; [done|simpl; lia..|]. right; right. by eexists.
  - done.
  - done.
  - destruct (Py.char_in "N" _) eqn:HN.
    + intros [= <-]; simpl. split; [lia|split; [lia|intros Hst]].
      eapply diffs_kept_mono; [done|lia].
    + intros ([ds ms] & Hrun & [= <-])%bind_Returned_inv. simpl.
      split; [lia|split; [lia|intros Hst]].
      apply (mismatch_run_diffs_kept lo _ _ _ 0%nat) in Hrun; simpl in *.
      * eapply diffs_kept_mono; [done|].
        rewrite length_list_ascii. unfold Py.slice.
        rewrite length_substring. lia.
      * apply Forall_forall. intros nt Hnt ->.
        apply list_elem_of_lookup in Hnt as [i Hi].
        assert ((i, "N"%char) ∈ Py.enumerate
                  (Py.slice seq (left st) (Py.int digits))) as Henum.
        { apply elem_of_lookup_imap. eauto. }
        apply char_in_enumerate in Henum. congruence.
      * by rewrite Z.add_0_r.
  - eapply diffs_kept_mono; [done|lia].
Qed.

Lemma encode_tokens_steps lo seq qual tokens :
  ∀ st st',
    Forall (λ tok, 0 ≤ Py.int tok.1) tokens →
    encode_tokens alphabet minq seq qual st tokens = Returned st' →
    left st' = left st + query_length tokens
    ∧ rpos st' = rpos st + ref_length tokens
    ∧ rpos st ≤ rpos st'
    ∧ (diffs_kept alphabet lo (diffs st) (rpos st) →
       diffs_kept alphabet lo (diffs st') (rpos st')).
Proof.
  induction tokens as [|tok tokens IH]; intros st st' Hlen; simpl.
  - intros [= <-]. split; [lia|split; [lia|split; [lia|tauto]]].
  - apply Forall_cons in Hlen as [Htok Hlen].
    intros (st1 & H1 & Hrest)%bind_Returned_inv.
    destruct (encode_token_step lo _ _ _ _ _ Htok H1) as (Hl1 & Hr1 & Hk1).
    destruct (IH _ _ Hlen Hrest) as (Hl & Hr & Hle & Hk).
    unfold query_length, ref_length in *. simpl.
    assert (0 ≤ ref_consumed tok).
    { unfold ref_consumed. destruct tok as [? []]; simpl in *; lia. }
    split; [lia|split; [lia|split; [lia|auto]]].
Qed.

End encode_invariants.

(** X3: when the loop of [encode_diffs] ends normally, the query cursor
    has moved by the lengths of the ['='], ['X'], ['S'] and ['I'] tokens
    and the reference cursor by those of the ['='], ['X'] and ['D'] tokens;
    when the reference cursor ends before [reflen], the last missing
    range of [encode_diffs] runs from there to [reflen]. *)
Theorem X3_encode_cursors (reflen : Z) (alphabet : string) (minq : Z)
    (row : Row) (qname : string) (ds : list Diff) (miss : list MissingRange) :
  encode_diffs reflen alphabet minq row = Returned (qname, ds, miss) →
  ∃ st,
    encode_loop alphabet minq row = Returned st
    ∧ left st = query_length (findall (row_cigar row))
    ∧ rpos st = row_rpos row + ref_length (findall (row_cigar row))
    ∧ (rpos st < reflen → last miss = Some (rpos st, reflen))
    ∧ (reflen ≤ rpos st → miss = missing st).
Proof.
  unfold encode_diffs. intros (st & Hloop & [= _ _ <-])%bind_Returned_inv.
  exists st. split; [done|]. unfold encode_loop in Hloop.
  destruct (encode_tokens_steps alphabet minq 0 _ _ _ _ _
              (findall_lengths _) Hloop) as (Hleft & Hrpos & _).
  simpl in *. split; [lia|]. split; [lia|].
  case_decide; split; try lia; intros _; [apply last_snoc|done].
Qed.

Lemma X3_encode_cursors_witness :
  ∃ st,
    encode_loop "ACGT" 10 example_read = Returned st
    ∧ left st = query_length (findall (row_cigar example_read))
    ∧ rpos st = row_rpos example_read
                + ref_length (findall (row_cigar example_read))
    ∧ (rpos st < 29903 → last [(0, 5); (12, 29903)] = Some (rpos st, 29903))
    ∧ (29903 ≤ rpos st → [(0, 5); (12, 29903)] = missing st).
Proof.
  apply (X3_encode_cursors 29903 "ACGT" 10 example_read "read"
           [Substitution 7 "G"; Substitution 8 "T"; Insertion 9 "A";
            Deletion 9 3]).
  vm_compute. reflexivity.
Defined.

(** X4: the missing ranges that [encode_diffs] returns are intervals
    ([start ≤ end]), none starts before 0 or before the position of the
    read, and each ends where the next starts or before it. *)
Theorem X4_missing_ranges_ordered (reflen : Z) (alphabet : string) (minq : Z)
    (row : Row) (qname : string) (ds : list Diff) (miss : list MissingRange) :
  encode_diffs reflen alphabet minq row = Returned (qname, ds, miss) →
  Forall (λ m, 0 `min` row_rpos row ≤ m.1 ∧ m.1 ≤ m.2) miss
  ∧ ∀ i j mi mj,
      (i < j)%nat → miss !! i = Some mi → miss !! j = Some mj → mi.2 ≤ mj.1.
Proof.
  unfold encode_diffs. intros (st & Hloop & [= _ _ <-])%bind_Returned_inv.
  assert (chained (0 `min` row_rpos row) (missing st) (rpos st)) as Hst.
  { unfold encode_loop in Hloop.
    eapply encode_tokens_chained; [apply findall_lengths| |done].
    unfold encode_init; simpl. case_decide; simpl; lia. }
  assert (∃ hi, chained (0 `min` row_rpos row)
                  (if decide (rpos st < reflen)
                   then missing st ++ [(rpos st, reflen)] else missing st) hi)
    as [hi Hmiss].
  { case_decide; [|by eexists].
    eexists. eapply chained_snoc; [done|lia..]. }
  split; [|by eapply chained_ordered].
  apply chained_bounds in Hmiss as [_ Hall].
  eapply Forall_impl; [done|]. simpl. tauto.
Qed.

Lemma X4_missing_ranges_ordered_witness :
  Forall (λ m : MissingRange, 0 `min` row_rpos example_read ≤ m.1 ∧ m.1 ≤ m.2)
    [(0, 5); (12, 29903)]
  ∧ ∀ i j mi mj,
      (i < j)%nat →
      [(0, 5); (12, 29903)] !! i = Some mi →
      [(0, 5); (12, 29903)] !! j = Some mj → mi.2 ≤ mj.1.
Proof.
  apply (X4_missing_ranges_ordered 29903 "ACGT" 10 example_read "read"
           [Substitution 7 "G"; Substitution 8 "T"; Insertion 9 "A";
            Deletion 9 3]).
  vm_compute. reflexivity.
Defined.

Lemma encode_diffs_diffs_kept reflen alphabet minq row qname ds miss :
  encode_diffs reflen alphabet minq row = Returned (qname, ds, miss) →
  diffs_kept alphabet (row_rpos row) ds
    (row_rpos row + ref_length (findall (row_cigar row))).
Proof.
  unfold encode_diffs. intros (st & Hloop & [= _ <- _])%bind_Returned_inv.
  unfold encode_loop in Hloop.
  destruct (encode_tokens_steps alphabet minq (row_rpos row) _ _ _ _ _
              (findall_lengths _) Hloop) as (_ & Hrpos & _ & Hkept).
  simpl in *. rewrite <- Hrpos. apply Hkept.
  split; [simpl; lia|constructor].
Qed.

(** X5: the diffs that [encode_diffs] returns lie between the position of
    the read and the position where its alignment ends, and their
    positions never decrease along the list. *)
Theorem X5_diff_positions (reflen : Z) (alphabet : string) (minq : Z)
    (row : Row) (qname : string) (ds : list Diff) (miss : list MissingRange) :
  encode_diffs reflen alphabet minq row = Returned (qname, ds, miss) →
  Forall (λ d, row_rpos row ≤ pos d
               ≤ row_rpos row + ref_length (findall (row_cigar row))) ds
  ∧ ∀ i j di dj,
      (i < j)%nat → ds !! i = Some di → ds !! j = Some dj → pos di ≤ pos dj.
Proof.
  intros [Hchain _]%encode_diffs_diffs_kept. split.
  - apply chained_bounds in Hchain as [_ Hall].
    unfold positions in Hall. rewrite Forall_fmap in Hall.
    eapply Forall_impl; [done|]. simpl. intros d. lia.
  - intros i j di dj Hij Hi Hj.
    apply (chained_ordered _ _ _ Hchain i j (pos di, pos di) (pos dj, pos dj));
      [done|unfold positions; rewrite list_lookup_fmap..].
    + by rewrite Hi.
    + by rewrite Hj.
Qed.

Lemma X5_diff_positions_witness :
  Forall (λ d, row_rpos example_read ≤ pos d
               ≤ row_rpos example_read
                 + ref_length (findall (row_cigar example_read)))
    [Substitution 7 "G"; Substitution 8 "T"; Insertion 9 "A"; Deletion 9 3]
  ∧ ∀ i j di dj,
      (i < j)%nat →
      [Substitution 7 "G"; Substitution 8 "T"; Insertion 9 "A"; Deletion 9 3]
        !! i = Some di →
      [Substitution 7 "G"; Substitution 8 "T"; Insertion 9 "A"; Deletion 9 3]
        !! j = Some dj →
      pos di ≤ pos dj.
Proof.
  apply (X5_diff_positions 29903 "ACGT" 10 example_read "read" _
           [(0, 5); (12, 29903)]).
  vm_compute. reflexivity.
Defined.

(** X6: every diff that [encode_diffs] returns is a substitution by a
    base of [alphabet] that is not N, an insertion, or a deletion of a
    length that is not negative; an N is never reported as a substitution,
    even with N in [alphabet]. *)
Theorem X6_diff_events (reflen : Z) (alphabet : string) (minq : Z)
    (row : Row) (qname : string) (ds : list Diff) (miss : list MissingRange) :
  encode_diffs reflen alphabet minq row = Returned (qname, ds, miss) →
  Forall (diff_event alphabet) ds.
Proof. by intros [_ Hevents]%encode_diffs_diffs_kept. Qed.

Lemma X6_diff_events_witness :
  Forall (diff_event "ACGTN")
    [Substitution 7 "G"; Substitution 8 "T"; Insertion 9 "A"; Deletion 9 3].
Proof.
  apply (X6_diff_events 29903 "ACGTN" 10 example_read "read" _
           [(0, 5); (12, 29903)]).
  vm_compute. reflexivity.
Defined.

(** ** Keys of the table of frequencies *)

Lemma canonical_key_unfold (d : Diff) :
  canonical_key d
  = String (typ d)
      (Py.str (pos d + 1)
       +:+ (if decide (typ d = "~"%char) then payload_str (mut d)
            else "." +:+ payload_str (mut d))).
Proof. unfold canonical_key, Py.chr. by case_decide. Qed.

(** X7: two diffs of the kinds that [encode_diffs] builds, at the same
    position, get the same key only when they are the same diff: different
    events at one position never share a sum in [get_frequencies]. *)
Theorem X7_canonical_key_inj (alphabet alphabet' : string) (d d' : Diff) :
  diff_event alphabet d → diff_event alphabet' d' →
  pos d = pos d' →
  canonical_key d = canonical_key d' →
  d = d'.
Proof.
  intros Hd Hd' Hpos. rewrite !canonical_key_unfold, Hpos.
  intros [= Htyp Hrest]. apply String.app_inj in Hrest.
  destruct d as [t p m], d' as [t' p' m']. simpl in *. subst t' p'.
  f_equal.
  destruct Hd as [(nt & Hd & _)|[(s0 & Hd)|(n & Hd & _)]];
    destruct Hd' as [(nt' & Hd' & _)|[(s' & Hd')|(n' & Hd' & _)]];
    unfold Substitution, Insertion, Deletion in *; simplify_eq; simpl in *.
  - by rewrite Hrest.
  - by apply String.app_inj in Hrest as ->.
  - apply String.app_inj in Hrest. by apply (inj pretty) in Hrest as ->.
Qed.

Lemma X7_canonical_key_inj_witness :
  Substitution 7 "G" = Substitution 7 "G".
Proof.
  apply (X7_canonical_key_inj "ACGT" "ACGT" (Substitution 7 "G")
           (Substitution 7 "G")); try reflexivity;
    left; exists "G"%char; by vm_compute.
Defined.

(** ** [check_miss] and the outcomes of [merge_diffs] *)

Lemma check_miss_returned (miss : list MissingRange) :
  returned (check_miss miss)
  ↔ (2 ≤ length miss)%nat
    ∨ ∃ a b, miss = [(a, b)] ∧ (a = 0 ∨ b = 29903).
Proof.
  split.
  - intros [norm [(b & -> & _)|[(a & _ & -> & _)|[? _]]]%check_miss_Returned];
      eauto 6.
  - intros [?|(a & b & -> & Hab)].
    + rewrite check_miss_long by done. by eexists.
    + rewrite check_miss_single. repeat case_decide; try by eexists. lia.
Qed.

(** X8: when [check_miss] returns, its list has at least two ranges and
    keeps every range it was given, with at most one range added; a second
    call leaves that list as it is. *)
Theorem X8_check_miss_normalizes (miss norm : list MissingRange) :
  check_miss miss = Returned norm →
  (2 ≤ length norm ≤ length miss + 1)%nat
  ∧ miss `sublist_of` norm
  ∧ check_miss norm = Returned norm.
Proof.
  intros Hnorm. split; [|split; [|by eapply check_miss_twice]].
  - apply check_miss_Returned in Hnorm
      as [(b & -> & ->)|[(a & _ & -> & ->)|[? ->]]]; simpl; lia.
  - apply check_miss_Returned in Hnorm
      as [(b & -> & ->)|[(a & _ & -> & ->)|[? ->]]]; [| |done].
    + by apply sublist_skip, sublist_nil_l.
    + by apply sublist_cons.
Qed.

Lemma X8_check_miss_normalizes_witness :
  (2 ≤ length [(0, 0)%Z; (100, 29903)%Z]
   ≤ length [(100, 29903)%Z] + 1)%nat
  ∧ [(100, 29903)] `sublist_of` [(0, 0); (100, 29903)]
  ∧ check_miss [(0, 0); (100, 29903)] = Returned [(0, 0); (100, 29903)].
Proof.
  apply (X8_check_miss_normalizes [(100, 29903)] [(0, 0); (100, 29903)]).
  reflexivity.
Defined.

Lemma check_miss_two (miss norm : list MissingRange) :
  check_miss miss = Returned norm →
  ∃ x lo hi y rest, norm = (x, lo) :: (hi, y) :: rest.
Proof.
  intros [(b & _ & ->)|[(a & _ & _ & ->)|[Hlen ->]]]%check_miss_Returned;
    [by eauto 6..|].
  destruct miss as [|[x lo] [|[hi y] rest]]; simpl in Hlen; [lia..|].
  by eauto 6.
Qed.

Lemma merge_diffs_Returned {order : SetOrder} diff1 diff2 miss1 miss2 r :
  merge_diffs diff1 diff2 miss1 miss2 = Returned r →
  ∃ x1 lo1 hi1 y1 rest1 x2 lo2 hi2 y2 rest2,
    check_miss miss1 = Returned ((x1, lo1) :: (hi1, y1) :: rest1)
    ∧ check_miss miss2 = Returned ((x2, lo2) :: (hi2, y2) :: rest2).
Proof.
  unfold merge_diffs.
  intros (norm1 & Hn1 & (norm2 & Hn2 & _)%bind_Returned_inv)%bind_Returned_inv.
  destruct (check_miss_two _ _ Hn1) as (x1 & lo1 & hi1 & y1 & rest1 & ->).
  destruct (check_miss_two _ _ Hn2) as (x2 & lo2 & hi2 & y2 & rest2 & ->).
  by eauto 12.
Qed.

(** X9: [merge_diffs] returns exactly when [check_miss] returns for both
    lists, that is when each list has two ranges or more, or a single range
    that starts at 0 or ends at 29903; otherwise it raises or exits. *)
Theorem X9_merge_diffs_returns {order : SetOrder} (diff1 diff2 : list Diff)
    (miss1 miss2 : list MissingRange) :
  returned (merge_diffs diff1 diff2 miss1 miss2)
  ↔ ((2 ≤ length miss1)%nat ∨ ∃ a b, miss1 = [(a, b)] ∧ (a = 0 ∨ b = 29903))
    ∧ ((2 ≤ length miss2)%nat ∨ ∃ a b, miss2 = [(a, b)] ∧ (a = 0 ∨ b = 29903)).
Proof.
  rewrite <- !check_miss_returned. split.
  - intros [r (? & ? & ? & ? & ? & ? & ? & ? & ? & ? & H1 & H2)%merge_diffs_Returned].
    split; by eexists.
  - intros [[norm1 H1] [norm2 H2]].
    destruct (check_miss_two _ _ H1) as (x1 & lo1 & hi1 & y1 & rest1 & ->).
    destruct (check_miss_two _ _ H2) as (x2 & lo2 & hi2 & y2 & rest2 & ->).
    rewrite (merge_diffs_normalized _ _ _ _ _ _ _ _ _ _ _ _ _ _ H1 H2).
    repeat case_decide; by eexists.
Qed.

(** ** What [merge_diffs] keeps *)

(** X10: for two mates whose spans overlap or touch and whose lists of
    missing ranges differ, [merge_diffs] returns the interval from the
    smaller [lo] to the larger [hi], the diffs of both mates, and the diffs
    of one mate whose position lies in the closed interval
    [[min lo, max hi]] and outside the closed interval
    [[max lo, min hi]]. *)
Theorem X10_overlap_closed_intervals {order : SetOrder}
    (diff1 diff2 : list Diff) (miss1 miss2 norm1 norm2 : list MissingRange)
    (lo1 hi1 lo2 hi2 : Z) :
  check_miss miss1 = Returned norm1 →
  check_miss miss2 = Returned norm2 →
  covered_span miss1 = Returned (lo1, hi1) →
  covered_span miss2 = Returned (lo2, hi2) →
  norm1 ≠ norm2 →
  lo1 ≤ hi2 → lo2 ≤ hi1 →
  ∃ merged,
    merge_diffs diff1 diff2 miss1 miss2
    = Returned (merged, [(lo1 `min` lo2, hi1 `max` hi2)])
    ∧ ∀ d, d ∈ merged ↔
        (d ∈ diff1 ∧ d ∈ diff2)
        ∨ ((d ∈ diff1 ∨ d ∈ diff2) ∧ ¬ (d ∈ diff1 ∧ d ∈ diff2)
           ∧ lo1 `min` lo2 ≤ pos d ≤ hi1 `max` hi2
           ∧ ¬ lo1 `max` lo2 ≤ pos d ≤ hi1 `min` hi2).
Proof.
  intros Hn1 Hn2 Hs1 Hs2 Hne Hlo1 Hlo2.
  destruct (merge_diffs_overlap diff1 diff2 _ _ _ _ _ _ _ _
              Hn1 Hn2 Hs1 Hs2 Hne Hlo1 Hlo2) as (merged & Hmerge & Hin).
  by exists merged.
Qed.

Lemma X10_overlap_closed_intervals_witness :
  ∃ merged,
    merge_diffs (order := first_seen_order)
      [Substitution 20 "A"; Substitution 70 "C"]
      [Substitution 70 "C"; Substitution 80 "G"; Substitution 150 "T"]
      [(100, 29903)] [(0, 50); (200, 29903)]
    = Returned (merged, [(0 `min` 50, 100 `max` 200)])
    ∧ ∀ d, d ∈ merged ↔
        (d ∈ [Substitution 20 "A"; Substitution 70 "C"]
         ∧ d ∈ [Substitution 70 "C"; Substitution 80 "G"; Substitution 150 "T"])
        ∨ ((d ∈ [Substitution 20 "A"; Substitution 70 "C"]
            ∨ d ∈ [Substitution 70 "C"; Substitution 80 "G";
                   Substitution 150 "T"])
           ∧ ¬ (d ∈ [Substitution 20 "A"; Substitution 70 "C"]
                ∧ d ∈ [Substitution 70 "C"; Substitution 80 "G";
                       Substitution 150 "T"])
           ∧ 0 `min` 50 ≤ pos d ≤ 100 `max` 200
           ∧ ¬ 0 `max` 50 ≤ pos d ≤ 100 `min` 200).
Proof.
  apply (X10_overlap_closed_intervals (order := first_seen_order)
           [Substitution 20 "A"; Substitution 70 "C"]
           [Substitution 70 "C"; Substitution 80 "G"; Substitution 150 "T"]
           [(100, 29903)] [(0, 50); (200, 29903)]
           [(0, 0); (100, 29903)] [(0, 50); (200, 29903)] 0 100 50 200);
    first [reflexivity | done | lia].
Defined.

(** X11: whatever branch it takes, [merge_diffs] returns every diff that
    both mates report and no diff that neither reports. *)
Theorem X11_between_both_and_either {order : SetOrder}
    (diff1 diff2 merged : list Diff) (miss1 miss2 : list MissingRange)
    (coverage : list (Z * Z)) :
  merge_diffs diff1 diff2 miss1 miss2 = Returned (merged, coverage) →
  ∀ d, (d ∈ diff1 → d ∈ diff2 → d ∈ merged)
       ∧ (d ∈ merged → d ∈ diff1 ∨ d ∈ diff2).
Proof.
  intros Hmerge d.
  destruct (merge_diffs_Returned _ _ _ _ _ Hmerge)
    as (x1 & lo1 & hi1 & y1 & rest1 & x2 & lo2 & hi2 & y2 & rest2 & H1 & H2).
  rewrite (merge_diffs_normalized _ _ _ _ _ _ _ _ _ _ _ _ _ _ H1 H2) in Hmerge.
  repeat case_decide; injection Hmerge as <- <-;
    rewrite ?elem_of_app, ?list_elem_of_filter, ?list_of_set_union,
      ?in_both_spec; tauto.
Qed.

Lemma X11_between_both_and_either_witness :
  (Substitution 100 "T" ∈ [Substitution 100 "T"] →
   Substitution 100 "T" ∈ [] →
   Substitution 100 "T" ∈ [Substitution 100 "T"])
  ∧ (Substitution 100 "T" ∈ [Substitution 100 "T"] →
     Substitution 100 "T" ∈ [Substitution 100 "T"]
     ∨ Substitution 100 "T" ∈ []).
Proof.
  refine (X11_between_both_and_either (order := first_seen_order)
            [Substitution 100 "T"] [] [Substitution 100 "T"]
            [(10000, 29903)] [(0, 20000)] [(0, 10000); (20000, 29903)]
            _ (Substitution 100 "T")).
  reflexivity.
Defined.

(** X12: the order of the two mates does not matter to [merge_diffs]: the
    other order returns the same diffs, as a set, and the same intervals,
    up to their order. *)
Theorem X12_merge_diffs_symmetric {order : SetOrder}
    (diff1 diff2 merged : list Diff) (miss1 miss2 : list MissingRange)
    (coverage : list (Z * Z)) :
  merge_diffs diff1 diff2 miss1 miss2 = Returned (merged, coverage) →
  ∃ merged' coverage',
    merge_diffs diff2 diff1 miss2 miss1 = Returned (merged', coverage')
    ∧ (∀ d, d ∈ merged ↔ d ∈ merged')
    ∧ coverage ≡ₚ coverage'.
Proof.
  intros Hmerge.
  destruct (merge_diffs_Returned _ _ _ _ _ Hmerge)
    as (x1 & lo1 & hi1 & y1 & rest1 & x2 & lo2 & hi2 & y2 & rest2 & H1 & H2).
  rewrite (merge_diffs_normalized _ _ _ _ _ _ _ _ _ _ _ _ _ _ H1 H2) in Hmerge.
  rewrite (merge_diffs_normalized _ _ _ _ _ _ _ _ _ _ _ _ _ _ H2 H1).
  destruct (decide ((x1, lo1) :: (hi1, y1) :: rest1
                    = (x2, lo2) :: (hi2, y2) :: rest2)) as [Heq|Hne].
  - rewrite decide_True by done. injection Hmerge as <- <-.
    injection Heq as -> -> -> -> ->.
    eexists _, _. split; [done|]. split; [|done].
    intros d. rewrite !in_both_spec. tauto.
  - rewrite decide_False by done.
    destruct (decide (lo1 > hi2 ∨ lo2 > hi1)) as [Hapart|Hover].
    + rewrite decide_True by tauto. injection Hmerge as <- <-.
      eexists _, _. split; [done|]. split; [|apply perm_swap].
      intros d. rewrite !list_of_set_union. tauto.
    + rewrite decide_False by tauto. injection Hmerge as <- <-.
      eexists _, _. split; [done|].
      rewrite (Z.min_comm lo2), (Z.max_comm hi2),
        (Z.max_comm lo2), (Z.min_comm hi2).
      split; [|done]. intros d.
      rewrite !elem_of_app, !list_elem_of_filter, !list_of_set_union,
        !in_both_spec. tauto.
Qed.

Lemma X12_merge_diffs_symmetric_witness :
  ∃ merged' coverage',
    merge_diffs (order := first_seen_order) [] [Substitution 100 "T"]
      [(0, 20000)] [(10000, 29903)]
    = Returned (merged', coverage')
    ∧ (∀ d, d ∈ [Substitution 100 "T"] ↔ d ∈ merged')
    ∧ [(0, 10000); (20000, 29903)] ≡ₚ coverage'.
Proof.
  apply (X12_merge_diffs_symmetric (order := first_seen_order)
           [Substitution 100 "T"] [] [Substitution 100 "T"]
           [(10000, 29903)] [(0, 20000)] [(0, 10000); (20000, 29903)]).
  reflexivity.
Defined.

Lemma covering_single (p : Z) (interval : Z * Z) :
  (covering p [interval] ≤ 1)%nat.
Proof. unfold covering. etransitivity; [apply length_filter|]. done. Qed.

Lemma merge_diffs_covering {order : SetOrder}
    (diff1 diff2 merged : list Diff) (miss1 miss2 : list MissingRange)
    (coverage : list (Z * Z)) :
  merge_diffs diff1 diff2 miss1 miss2 = Returned (merged, coverage) →
  (1 ≤ length coverage ≤ 2)%nat
  ∧ ∀ p, (covering p coverage ≤ 1)%nat.
Proof.
  intros Hmerge.
  destruct (merge_diffs_Returned _ _ _ _ _ Hmerge)
    as (x1 & lo1 & hi1 & y1 & rest1 & x2 & lo2 & hi2 & y2 & rest2 & H1 & H2).
  rewrite (merge_diffs_normalized _ _ _ _ _ _ _ _ _ _ _ _ _ _ H1 H2) in Hmerge.
  repeat case_decide; injection Hmerge as <- <-;
    (split; [simpl; lia|intros p]); try apply covering_single.
  unfold covering. destruct (decide (lo1 ≤ p < hi1)).
  - rewrite filter_cons_True, filter_cons_False by (simpl; lia). done.
  - rewrite filter_cons_False by done. apply covering_single.
Qed.

(** X13: [merge_diffs] returns one interval or two, and no position lies
    in both: a pair of mates adds at most 1 to the depth of a position. *)
Theorem X13_covered_at_most_once {order : SetOrder}
    (diff1 diff2 merged : list Diff) (miss1 miss2 : list MissingRange)
    (coverage : list (Z * Z)) :
  merge_diffs diff1 diff2 miss1 miss2 = Returned (merged, coverage) →
  (1 ≤ length coverage ≤ 2)%nat
  ∧ ∀ p, (covering p coverage ≤ 1)%nat.
Proof. apply merge_diffs_covering. Qed.

Lemma X13_covered_at_most_once_witness :
  (1 ≤ length [(0, 10000)%Z; (20000, 29903)%Z] ≤ 2)%nat
  ∧ ∀ p : Z, (covering p [(0, 10000)%Z; (20000, 29903)%Z] ≤ 1)%nat.
Proof.
  apply (X13_covered_at_most_once (order := first_seen_order)
           [Substitution 100 "T"] [] [Substitution 100 "T"]
           [(10000, 29903)] [(0, 20000)] [(0, 10000); (20000, 29903)]).
  reflexivity.
Defined.

(** ** More on [matchmaker] *)

Lemma matchmaker_from_adjacent r1 r2 samfile :
  row_qname r2 = row_qname r1 →
  matchmaker_from ∅ (r1 :: r2 :: samfile)
  = ((r1, r2) :: (matchmaker_from ∅ samfile).1,
     (matchmaker_from ∅ samfile).2).
Proof.
  intros Hq.
  rewrite matchmaker_from_fresh by done.
  rewrite (matchmaker_from_pending _ _ _ r1)
    by (by rewrite Hq, lookup_insert_eq).
  by rewrite Hq, delete_insert_id.
Qed.

(** X14: a stream in which the two mates of every pair follow one another
    is paired as it was written, also when several pairs carry the same
    query name, and no row is left in the dictionary. *)
Theorem X14_matchmaker_interleave (pairs : list (Row * Row)) :
  Forall (λ pair, row_qname pair.2 = row_qname pair.1) pairs →
  matchmaker_from ∅ (interleave pairs) = (pairs, ∅).
Proof.
  induction 1 as [|[r1 r2] pairs Hq _ IH]; [done|].
  cbn [interleave fst snd] in *.
  rewrite matchmaker_from_adjacent by done. by rewrite IH.
Qed.

Lemma X14_matchmaker_interleave_witness :
  matchmaker_from ∅
    (interleave
       [(mkRow "a" 0 "5=" "ACGTA" "IIIII", mkRow "a" 3 "5=" "TACGT" "IIIII");
        (mkRow "a" 9 "5=" "CCGTA" "IIIII", mkRow "a" 7 "5=" "ACGTA" "IIIII")])
  = ([(mkRow "a" 0 "5=" "ACGTA" "IIIII", mkRow "a" 3 "5=" "TACGT" "IIIII");
      (mkRow "a" 9 "5=" "CCGTA" "IIIII", mkRow "a" 7 "5=" "ACGTA" "IIIII")],
     ∅).
Proof.
  apply (X14_matchmaker_interleave
    [(mkRow "a" 0 "5=" "ACGTA" "IIIII", mkRow "a" 3 "5=" "TACGT" "IIIII");
     (mkRow "a" 9 "5=" "CCGTA" "IIIII", mkRow "a" 7 "5=" "ACGTA" "IIIII")]).
  repeat constructor.
Defined.

(** Where the rows of a pair come from: the first from the dictionary or
    from the stream, the second from the stream, with no row of their
    query name between them. *)
Lemma matchmaker_from_origin samfile :
  ∀ cached_rows pair,
    pair ∈ (matchmaker_from cached_rows samfile).1 →
    (∃ l2 l3,
       samfile = l2 ++ pair.2 :: l3
       ∧ Forall (λ row, row_qname row ≠ row_qname pair.2) l2
       ∧ cached_rows !! row_qname pair.2 = Some pair.1)
    ∨ (∃ l1 l2 l3,
         samfile = l1 ++ pair.1 :: l2 ++ pair.2 :: l3
         ∧ Forall (λ row, row_qname row ≠ row_qname pair.2) l2
         ∧ row_qname pair.1 = row_qname pair.2).
Proof.
  induction samfile as [|row samfile IH]; intros cached_rows pair.
  - simpl. by intros ?%elem_of_nil.
  - destruct (cached_rows !! row_qname row) as [old_row|] eqn:Hold.
    + rewrite (matchmaker_from_pending _ _ _ _ Hold). simpl.
      intros [->|Hin]%elem_of_cons.
      * left. exists [], samfile. simpl. by repeat split.
      * destruct (IH _ _ Hin) as [(l2 & l3 & -> & Hl2 & Hc)
                                 |(l1 & l2 & l3 & -> & Hl2 & Hq)].
        -- apply lookup_delete_Some in Hc as [Hne Hc].
           left. exists (row :: l2), l3. split; [done|]. split; [|done].
           by constructor.
        -- right. by exists (row :: l1), l2, l3.
    + rewrite (matchmaker_from_fresh _ _ _ Hold).
      intros Hin.
      destruct (IH _ _ Hin) as [(l2 & l3 & -> & Hl2 & Hc)
                               |(l1 & l2 & l3 & -> & Hl2 & Hq)].
      * apply lookup_insert_Some in Hc as [[Hq <-]|[Hne Hc]].
        -- right. by exists [], l2, l3.
        -- left. exists (row :: l2), l3. split; [done|]. split; [|done].
           by constructor.
      * right. by exists (row :: l1), l2, l3.
Qed.

(** X15: the two rows of a pair that [matchmaker] yields carry the same
    query name, the first stands before the second in the stream, and no
    row of that query name stands between them. *)
Theorem X15_matchmaker_pairs (samfile : list Row) (pair : Row * Row) :
  pair ∈ matchmaker samfile →
  ∃ l1 l2 l3,
    samfile = l1 ++ pair.1 :: l2 ++ pair.2 :: l3
    ∧ Forall (λ row, row_qname row ≠ row_qname pair.2) l2
    ∧ row_qname pair.1 = row_qname pair.2.
Proof.
  intros [(l2 & l3 & _ & _ & Hc)|?]%matchmaker_from_origin; [|done].
  by rewrite lookup_empty in Hc.
Qed.

Lemma X15_matchmaker_pairs_witness :
  ∃ l1 l2 l3,
    [mkRow "a" 0 "5=" "ACGTA" "IIIII"; mkRow "b" 0 "5=" "ACGTA" "IIIII";
     mkRow "a" 3 "5=" "TACGT" "IIIII"]
    = l1 ++ mkRow "a" 0 "5=" "ACGTA" "IIIII"
         :: l2 ++ mkRow "a" 3 "5=" "TACGT" "IIIII" :: l3
    ∧ Forall (λ row, row_qname row ≠ "a") l2
    ∧ "a" = "a".
Proof.
  apply (X15_matchmaker_pairs
           [mkRow "a" 0 "5=" "ACGTA" "IIIII"; mkRow "b" 0 "5=" "ACGTA" "IIIII";
            mkRow "a" 3 "5=" "TACGT" "IIIII"]
           (mkRow "a" 0 "5=" "ACGTA" "IIIII", mkRow "a" 3 "5=" "TACGT" "IIIII")).
  vm_compute. left.
Defined.

(** ** The depth table *)

Lemma zero_coverage_lookup (maxpos p : Z) :
  zero_coverage maxpos !! p = if decide (0 ≤ p < maxpos) then Some 0 else None.
Proof.
  unfold zero_coverage.
  assert (((λ pos : Z, (pos, 0)) <$> seqZ 0 maxpos).*1 = seqZ 0 maxpos) as Hkeys.
  { rewrite <- list_fmap_compose. apply list_fmap_id. }
  case_decide as Hp.
  - apply elem_of_list_to_map_1.
    + rewrite Hkeys. apply NoDup_seqZ.
    + apply list_elem_of_fmap. exists p. split; [done|].
      apply elem_of_seqZ. lia.
  - apply not_elem_of_list_to_map_1. rewrite Hkeys, elem_of_seqZ. lia.
Qed.

Lemma bump_Some (tc : gmap Z Z) (pos depth : Z) :
  tc !! pos = Some depth → bump tc pos = Returned (<[pos := depth + 1]> tc).
Proof. intros Hpos. unfold bump, Py.getitem. by rewrite Hpos. Qed.

Lemma bump_None (tc : gmap Z Z) (pos : Z) :
  tc !! pos = None → bump tc pos = Raised KeyError.
Proof. intros Hpos. unfold bump, Py.getitem. by rewrite Hpos. Qed.

(** What the loop over the positions of an interval has done when it
    ends normally. *)
Lemma bump_range_Returned (n : nat) :
  ∀ (left : Z) (tc tc' : gmap Z Z),
    for_each bump tc (seqZ left (Z.of_nat n)) = Returned tc' →
    ∀ p, tc' !! p
         = if decide (left ≤ p < left + Z.of_nat n)
           then (λ depth, depth + 1) <$> tc !! p else tc !! p.
Proof.
  induction n as [|n IH]; intros left tc tc'.
  - simpl. intros [= <-] p. case_decide; [lia|done].
  - rewrite seqZ_cons by lia.
    replace (Z.pred (Z.of_nat (S n))) with (Z.of_nat n) by lia. simpl.
    intros (tc1 & Hbump & Hrest)%bind_Returned_inv p.
    unfold bump, Py.getitem in Hbump.
    destruct (tc !! left) as [depth|] eqn:Hleft; [|done].
    injection Hbump as <-.
    rewrite (IH _ _ _ Hrest p).
    destruct (decide (p = left)) as [->|Hne].
    + rewrite decide_False, decide_True by lia.
      by rewrite lookup_insert_eq, Hleft.
    + rewrite lookup_insert_ne by done.
      repeat case_decide; try lia; done.
Qed.

Lemma bump_range_returns (n : nat) :
  ∀ (left : Z) (tc : gmap Z Z),
    (∀ p, left ≤ p < left + Z.of_nat n → is_Some (tc !! p)) →
    returned (for_each bump tc (seqZ left (Z.of_nat n))).
Proof.
  induction n as [|n IH]; intros left tc Hall.
  - by eexists.
  - rewrite seqZ_cons by lia.
    replace (Z.pred (Z.of_nat (S n))) with (Z.of_nat n) by lia. simpl.
    destruct (Hall left) as [depth Hleft]; [lia|].
    rewrite (bump_Some _ _ _ Hleft). simpl.
    apply IH. intros p Hp. rewrite lookup_insert_ne by lia. apply Hall. lia.
Qed.

Lemma bump_range_KeyError (n : nat) :
  ∀ (left p : Z) (tc : gmap Z Z),
    left ≤ p < left + Z.of_nat n → tc !! p = None →
    for_each bump tc (seqZ left (Z.of_nat n)) = Raised KeyError.
Proof.
  induction n as [|n IH]; intros left p tc Hp Hnone; [lia|].
  rewrite seqZ_cons by lia.
  replace (Z.pred (Z.of_nat (S n))) with (Z.of_nat n) by lia. simpl.
  destruct (tc !! left) as [depth|] eqn:Hleft;
    [|by rewrite (bump_None _ _ Hleft)].
  rewrite (bump_Some _ _ _ Hleft). simpl.
  apply (IH _ p); [|].
  - destruct (decide (p = left)) as [->|]; [congruence|lia].
  - rewrite lookup_insert_ne; [done|congruence].
Qed.

Lemma cover_unfold (tc : gmap Z Z) (left right : Z) :
  cover tc (left, right)
  = for_each bump tc (seqZ left (Z.of_nat (Z.to_nat (right - left)))).
Proof.
  unfold cover. simpl.
  destruct (decide (0 ≤ right - left)).
  - by rewrite Z2Nat.id.
  - rewrite seqZ_nil by lia.
    replace (Z.to_nat (right - left)) with 0%nat by lia. done.
Qed.

Lemma cover_Returned (tc tc' : gmap Z Z) (interval : Z * Z) :
  cover tc interval = Returned tc' →
  ∀ p, tc' !! p
       = if decide (interval.1 ≤ p < interval.2)
         then (λ depth, depth + 1) <$> tc !! p else tc !! p.
Proof.
  destruct interval as [left right]. rewrite cover_unfold.
  intros Hret p. rewrite (bump_range_Returned _ _ _ _ Hret p). simpl.
  repeat case_decide; try lia; done.
Qed.

(** X16: when every position of the half-open interval has an entry in
    the depth table, the loop over the interval returns, with 1 added to
    the depth of the positions of the interval and every other entry as it
    was; an interval with [right ≤ left] changes nothing. *)
Theorem X16_cover_interval (tc : gmap Z Z) (left right : Z) :
  (∀ p, left ≤ p < right → is_Some (tc !! p)) →
  ∃ tc',
    cover tc (left, right) = Returned tc'
    ∧ ∀ p, tc' !! p
           = if decide (left ≤ p < right)
             then (λ depth, depth + 1) <$> tc !! p else tc !! p.
Proof.
  intros Hall.
  destruct (bump_range_returns (Z.to_nat (right - left)) left tc) as [tc' Hret].
  { intros p Hp. apply Hall. lia. }
  exists tc'. rewrite cover_unfold. split; [done|].
  rewrite <- cover_unfold in Hret. apply (cover_Returned _ _ _ Hret).
Qed.

Lemma X16_cover_interval_witness :
  ∃ tc',
    cover (zero_coverage 10) (2, 5) = Returned tc'
    ∧ ∀ p, tc' !! p
           = if decide (2 ≤ p < 5)
             then (λ depth, depth + 1) <$> zero_coverage 10 !! p
             else zero_coverage 10 !! p.
Proof.
  apply (X16_cover_interval (zero_coverage 10) 2 5).
  intros p Hp. rewrite zero_coverage_lookup. rewrite decide_True by lia.
  by eexists.
Defined.

(** X17: when a position of the interval has no entry in the depth table,
    as for a read that reaches beyond [maxpos] or starts before 0, the
    loop over the interval raises [KeyError]. *)
Theorem X17_cover_outside (tc : gmap Z Z) (left right p : Z) :
  left ≤ p < right → tc !! p = None →
  cover tc (left, right) = Raised KeyError.
Proof.
  intros Hp Hnone. rewrite cover_unfold.
  apply (bump_range_KeyError _ _ p); [lia|done].
Qed.

Lemma X17_cover_outside_witness :
  cover (zero_coverage 10) (8, 12) = Raised KeyError.
Proof.
  apply (X17_cover_outside (zero_coverage 10) 8 12 10); [lia|].
  rewrite zero_coverage_lookup. by rewrite decide_False by lia.
Defined.

(** ** The coverage of a single read *)

Lemma gap_middle (before after : list MissingRange) (m m' : MissingRange)
    (coverage : list (Z * Z)) :
  gap (before ++ m :: m' :: after) coverage (length before)
  = Returned (if decide (m.2 = m'.1) then coverage
              else coverage ++ [(m.2, m'.1)]).
Proof.
  unfold gap. rewrite index_middle. simpl.
  replace (before ++ m :: m' :: after)
    with ((before ++ [m]) ++ m' :: after) by (by rewrite <- app_assoc).
  replace (length before + 1)%nat with (length (before ++ [m]))
    by (rewrite length_app; simpl; lia).
  rewrite index_middle. simpl. by case_decide.
Qed.

Lemma gaps_from (before after : list MissingRange) (coverage : list (Z * Z)) :
  for_each (gap (before ++ after)) coverage
    (seq (length before) (length after - 1))
  = Returned (coverage ++ between after).
Proof.
  revert before coverage.
  induction after as [|m after IH]; intros before coverage.
  - simpl. by rewrite app_nil_r.
  - destruct after as [|m' after].
    + simpl. by rewrite app_nil_r.
    + replace (length (m :: m' :: after) - 1)%nat
        with (S (length (m' :: after) - 1)) by (simpl; lia).
      cbn [seq for_each]. rewrite gap_middle. simpl.
      specialize (IH (before ++ [m])).
      rewrite <- app_assoc, length_app, Nat.add_1_r in IH. simpl in IH.
      rewrite IH. case_decide; [done|]. by rewrite <- app_assoc.
Qed.

Lemma gaps_closed_form (miss : list MissingRange) :
  gaps miss = Returned (between miss).
Proof. apply (gaps_from [] miss []). Qed.

(** X18: the loop of [parse_mm2] over the missing ranges of a single read
    never raises; its coverage is the stretches between consecutive
    missing ranges, those of length 0 left out, so that a read with one
    missing range or none, such as a read that starts at position 0 and
    has no N, gets no coverage. *)
Theorem X18_gaps_between (miss : list MissingRange) :
  gaps miss = Returned (between miss)
  ∧ ((length miss ≤ 1)%nat → gaps miss = Returned []).
Proof.
  pose proof (gaps_closed_form miss) as Hgaps.
  split; [done|]. intros Hlen. rewrite Hgaps.
  destruct miss as [|m [|m' miss]]; simpl in *; [done..|lia].
Qed.

Lemma X18_gaps_between_witness :
  gaps [(100, 29903)] = Returned [].
Proof.
  apply (proj2 (X18_gaps_between [(100, 29903)])). simpl. lia.
Defined.

(** ** The loop of [parse_mm2] *)

Lemma covering_cons (p : Z) (interval : Z * Z) (coverage : list (Z * Z)) :
  covering p (interval :: coverage)
  = ((if decide (interval.1 ≤ p < interval.2)%Z then 1 else 0)
     + covering p coverage)%nat.
Proof.
  unfold covering. case_decide.
  - by rewrite filter_cons_True.
  - by rewrite filter_cons_False.
Qed.

(** The loop over the intervals adds to the depth of a position the
    number of intervals that hold it. *)
Lemma cover_all_Returned (coverage : list (Z * Z)) :
  ∀ tc tc' : gmap Z Z,
    for_each cover tc coverage = Returned tc' →
    ∀ p, tc' !! p = (λ depth, depth + Z.of_nat (covering p coverage)) <$> tc !! p.
Proof.
  induction coverage as [|interval coverage IH]; intros tc tc'; simpl.
  - intros [= <-] p. change (covering p []) with 0%nat.
    destruct (tc !! p); simpl; [f_equal; lia|done].
  - intros (tc1 & H1 & Hrest)%bind_Returned_inv p.
    rewrite (IH _ _ Hrest p), (cover_Returned _ _ _ H1 p), covering_cons.
    case_decide; destruct (tc !! p); simpl; try done; f_equal; lia.
Qed.

(** Below the first of a chain of missing ranges, nothing is covered;
    elsewhere a position lies in one stretch at most. *)
Lemma between_cons (m m' : MissingRange) (miss : list MissingRange) :
  between (m :: m' :: miss)
  = (if decide (m.2 = m'.1) then [] else [(m.2, m'.1)]) ++ between (m' :: miss).
Proof. reflexivity. Qed.

Lemma chained_cons (lo hi a b : Z) (miss : list MissingRange) :
  chained lo ((a, b) :: miss) hi ↔ lo ≤ a ∧ a ≤ b ∧ chained b miss hi.
Proof. reflexivity. Qed.

Lemma between_below (lo hi p : Z) (miss : list MissingRange) :
  chained lo miss hi → p < lo → covering p (between miss) = 0%nat.
Proof.
  revert lo. induction miss as [|[a b] miss IH]; intros lo Hchain Hp; [done|].
  destruct miss as [|[a' b'] miss]; [done|].
  apply chained_cons in Hchain as (Hlo & Hab & Hrest).
  assert (covering p (between ((a', b') :: miss)) = 0%nat) as Hzero.
  { apply (IH b); [done|lia]. }
  rewrite between_cons. cbn [fst snd]. case_decide; [done|].
  cbn [app]. rewrite covering_cons, Hzero. cbn [fst snd].
  by rewrite decide_False by lia.
Qed.

Lemma between_covering (lo hi p : Z) (miss : list MissingRange) :
  chained lo miss hi → (covering p (between miss) ≤ 1)%nat.
Proof.
  revert lo. induction miss as [|[a b] miss IH]; intros lo Hchain.
  { change (covering p (between [])) with 0%nat. lia. }
  destruct miss as [|[a' b'] miss].
  { change (covering p (between [(a, b)])) with 0%nat. lia. }
  apply chained_cons in Hchain as (Hlo & Hab & Hrest).
  specialize (IH b Hrest).
  rewrite between_cons. cbn [fst snd]. case_decide; [done|].
  cbn [app]. rewrite covering_cons. cbn [fst snd].
  case_decide; [|lia].
  apply chained_cons in Hrest as (? & ? & ?).
  rewrite (between_below a' hi p ((a', b') :: miss)); [lia| |lia].
  apply chained_cons. by repeat split; try lia.
Qed.

Section parse_invariants.
Context {Label : Type} (parse_mutation : Diff → Label) {order : SetOrder}.
Variable maxpos : Z.

Lemma record_result_invariant st st' diffs coverage :
  record_result parse_mutation st diffs coverage = Returned st' →
  (∀ p, (covering p coverage ≤ 1)%nat) →
  parse_invariant parse_mutation maxpos st →
  parse_invariant parse_mutation maxpos st' ∧ count st' = count st + 1.
Proof.
  unfold record_result.
  intros (tc' & Hcover & [= <-])%bind_Returned_inv Honce
         (Hcount & Hrows & Hkeys & Hdepth).
  pose proof (cover_all_Returned _ _ _ Hcover) as Htc.
  split; [|done]. unfold parse_invariant. simpl.
  split; [rewrite length_app; simpl; lia|].
  split; [apply Forall_app; split; [done|by constructor]|].
  split.
  - intros p. rewrite Htc, fmap_is_Some. apply Hkeys.
  - intros p depth. rewrite Htc.
    destruct (total_coverage st !! p) as [depth0|] eqn:Hp; [|done].
    intros [= <-]. specialize (Hdepth p depth0 Hp). specialize (Honce p). lia.
Qed.

Lemma parse_pair_invariant st st' row :
  parse_pair parse_mutation st row = Returned st' →
  parse_invariant parse_mutation maxpos st →
  parse_invariant parse_mutation maxpos st' ∧ count st' = count st + 1.
Proof.
  destruct row as [r1 r2]. unfold parse_pair.
  intros ([[q1 diff1] miss1] & _ & Hrest)%bind_Returned_inv.
  apply bind_Returned_inv in Hrest as ([[q2 diff2] miss2] & _ & Hrest).
  apply bind_Returned_inv in Hrest as ([diffs coverage] & Hmerge & Hrecord).
  apply (record_result_invariant _ _ _ _ Hrecord).
  by apply merge_diffs_covering in Hmerge as [_ ?].
Qed.

Lemma parse_single_invariant st st' row :
  parse_single parse_mutation st row = Returned st' →
  parse_invariant parse_mutation maxpos st →
  parse_invariant parse_mutation maxpos st' ∧ count st' = count st + 1.
Proof.
  unfold parse_single.
  intros ([[q diffs] miss] & Hencode & Hrest)%bind_Returned_inv.
  apply bind_Returned_inv in Hrest as (coverage & Hgaps & Hrecord).
  apply (record_result_invariant _ _ _ _ Hrecord).
  intros p. apply encode_diffs_chained in Hencode as (lo & hi & Hchain).
  rewrite gaps_closed_form in Hgaps.
  injection Hgaps as <-. by eapply between_covering.
Qed.

(** The loop: every row that is processed adds one row to [res]; with a
    limit [stop > 0], the loop is left after row [stop + 1]. *)
Lemma parse_loop_invariant {A}
    (body : ParseState Label → A → outcome (ParseState Label)) stop :
  (∀ st row st',
     body st row = Returned st' →
     parse_invariant parse_mutation maxpos st →
     parse_invariant parse_mutation maxpos st' ∧ count st' = count st + 1) →
  ∀ iter st st',
    parse_loop body stop st iter = Returned st' →
    parse_invariant parse_mutation maxpos st →
    parse_invariant parse_mutation maxpos st'
    ∧ count st ≤ count st' ≤ count st + Z.of_nat (length iter)
    ∧ (∀ n, stop = Some n → 0 < n → count st ≤ n →
            count st' = (count st + Z.of_nat (length iter)) `min` (n + 1))
    ∧ ((stop = None ∨ stop = Some 0) →
       count st' = count st + Z.of_nat (length iter)).
Proof.
  intros Hbody. induction iter as [|row iter IH]; intros st st'.
  - simpl. intros [= <-] Hst. split; [done|]. split; [lia|].
    split; [intros; lia|intros; lia].
  - cbn [parse_loop].
    intros (st1 & H1 & Hrest)%bind_Returned_inv Hst.
    destruct (Hbody _ _ _ H1 Hst) as [Hst1 Hcount1].
    destruct (stop_reached stop (count st1)) eqn:Hstop.
    + injection Hrest as <-. split; [done|].
      cbn [length]. split; [lia|].
      unfold stop_reached in Hstop. destruct stop as [n|]; [|done].
      apply andb_prop in Hstop as [Hn%bool_decide_eq_true Hgt%bool_decide_eq_true].
      split.
      * intros ? [= <-] ? ?. lia.
      * intros [?|[= ->]]; done.
    + destruct (IH _ _ Hrest Hst1) as (Hst' & Hle & Hcap & Hall).
      split; [done|]. cbn [length]. split; [lia|]. split.
      * intros n -> Hn Hc.
        unfold stop_reached in Hstop.
        apply andb_false_iff in Hstop
          as [Hz%bool_decide_eq_false|Hgt%bool_decide_eq_false]; [lia|].
        rewrite (Hcap n) by (done || lia). lia.
      * intros Hnone. rewrite Hall by done. lia.
Qed.

End parse_invariants.

Section parse_mm2_properties.
Context {Label : Type} (parse_mutation : Diff → Label) {order : SetOrder}.

Lemma parse_mm2_Returned mm2 paired stop maxpos rows tc :
  parse_mm2 parse_mutation mm2 paired stop maxpos = Returned (rows, tc) →
  parse_invariant parse_mutation maxpos
    (mkParse (Z.of_nat (length rows)) tc rows)
  ∧ (∀ n, stop = Some n → 0 < n →
          Z.of_nat (length rows)
          = Z.of_nat (parse_items mm2 paired) `min` (n + 1))
  ∧ ((stop = None ∨ stop = Some 0) → length rows = parse_items mm2 paired).
Proof.
  unfold parse_mm2, parse_items.
  intros (st & Hloop & [= <- <-])%bind_Returned_inv.
  assert (parse_invariant parse_mutation maxpos
            (mkParse 0 (zero_coverage maxpos) [])) as Hinit.
  { split; [done|]. split; [constructor|]. simpl. split.
    - intros p. rewrite zero_coverage_lookup. case_decide; [|by split; [intros []|lia]].
      split; [done|by eexists].
    - intros p depth. rewrite zero_coverage_lookup.
      case_decide; [|done]. intros [= <-]. lia. }
  assert (parse_invariant parse_mutation maxpos st
          ∧ (∀ n, stop = Some n → 0 < n →
                  count st = Z.of_nat (if paired then length (matchmaker mm2)
                                       else length mm2) `min` (n + 1))
          ∧ ((stop = None ∨ stop = Some 0) →
             count st = Z.of_nat (if paired then length (matchmaker mm2)
                                  else length mm2))) as (Hst & Hcap & Hall).
  { destruct paired.
    - destruct (parse_loop_invariant parse_mutation maxpos _ stop
                  (λ st row st', parse_pair_invariant parse_mutation maxpos st st' row)
                  _ _ _ Hloop Hinit) as (Hst & _ & Hcap & Hall).
      simpl in Hcap, Hall. split; [done|]. split.
      + intros n Hn Hpos. rewrite (Hcap n) by (done || lia). done.
      + intros Hnone. by rewrite Hall.
    - destruct (parse_loop_invariant parse_mutation maxpos _ stop
                  (λ st row st', parse_single_invariant parse_mutation maxpos st st' row)
                  _ _ _ Hloop Hinit) as (Hst & _ & Hcap & Hall).
      simpl in Hcap, Hall. split; [done|]. split.
      + intros n Hn Hpos. rewrite (Hcap n) by (done || lia). done.
      + intros Hnone. by rewrite Hall. }
  destruct Hst as (Hcount & Hrows & Hkeys & Hdepth).
  split; [|split].
  - unfold parse_invariant. simpl. rewrite <- Hcount. done.
  - intros n Hn Hpos. rewrite <- Hcount. by apply Hcap.
  - intros Hnone. apply Nat2Z.inj. rewrite <- Hcount. by apply Hall.
Qed.

End parse_mm2_properties.

(** X19: when [parse_mm2] returns, every row of its list holds the labels
    of its diffs, one label for each diff and in their order; the depth
    table has exactly the positions from 0 to [maxpos - 1]; and no depth is
    below 0 or above the number of rows: a read, or a pair of mates, adds
    at most 1 to the depth of a position. *)
Theorem X19_parse_mm2_results {Label : Type} (parse_mutation : Diff → Label)
    {order : SetOrder} (mm2 : list Row) (paired : bool) (stop : option Z)
    (maxpos : Z) (rows : list (ResRow Label)) (tc : gmap Z Z) :
  parse_mm2 parse_mutation mm2 paired stop maxpos = Returned (rows, tc) →
  Forall (λ row, mutations row = parse_mutation <$> diff row) rows
  ∧ (∀ p, is_Some (tc !! p) ↔ 0 ≤ p < maxpos)
  ∧ (∀ p depth, tc !! p = Some depth → 0 ≤ depth ≤ Z.of_nat (length rows)).
Proof.
  intros [(_ & Hrows & Hkeys & Hdepth) _]%parse_mm2_Returned. done.
Qed.

Lemma X19_parse_mm2_results_witness :
  Forall (λ row : ResRow (), mutations row = (λ _, ()) <$> diff row)
    [mkRes [] []]
  ∧ (∀ p, is_Some ((list_to_map [(0, 1); (1, 1); (2, 1)] : gmap Z Z) !! p)
          ↔ 0 ≤ p < 3)
  ∧ (∀ p depth,
       (list_to_map [(0, 1); (1, 1); (2, 1)] : gmap Z Z) !! p = Some depth →
       0 ≤ depth ≤ Z.of_nat (length [mkRes (Label := ()) [] []])).
Proof.
  apply (X19_parse_mm2_results (order := first_seen_order) (λ _, ())
           [mkRow "a" 0 "2=" "AC" "II"; mkRow "a" 1 "2=" "CG" "II"]
           true None 3).
  vm_compute. reflexivity.
Defined.

(** X20: with a limit [stop] above 0, [parse_mm2] returns [stop + 1] rows
    when the stream has that many reads or pairs (the loop is left when
    the count exceeds [stop]), and one row for each read or pair
    otherwise; without a limit, or with the limit 0, it returns one row
    for each read or pair. *)
Theorem X20_parse_mm2_stop {Label : Type} (parse_mutation : Diff → Label)
    {order : SetOrder} (mm2 : list Row) (paired : bool) (stop : option Z)
    (maxpos : Z) (rows : list (ResRow Label)) (tc : gmap Z Z) :
  parse_mm2 parse_mutation mm2 paired stop maxpos = Returned (rows, tc) →
  (∀ n, stop = Some n → 0 < n →
        Z.of_nat (length rows) = Z.of_nat (parse_items mm2 paired) `min` (n + 1))
  ∧ ((stop = None ∨ stop = Some 0) → length rows = parse_items mm2 paired).
Proof. by intros [_ ?]%parse_mm2_Returned. Qed.

Lemma X20_parse_mm2_stop_witness :
  (∀ n, Some 1 = Some n → 0 < n →
        Z.of_nat (length [mkRes (Label := ()) [] []; mkRes [] []])
        = Z.of_nat
            (parse_items
               [mkRow "a" 0 "2=" "AC" "II"; mkRow "b" 1 "2=" "CG" "II";
                mkRow "c" 0 "2=" "AC" "II"]
               false) `min` (n + 1))
  ∧ ((Some 1 = None ∨ Some 1 = Some 0) →
     length [mkRes (Label := ()) [] []; mkRes [] []]
     = parse_items
         [mkRow "a" 0 "2=" "AC" "II"; mkRow "b" 1 "2=" "CG" "II";
          mkRow "c" 0 "2=" "AC" "II"]
         false).
Proof.
  apply (X20_parse_mm2_stop (order := first_seen_order) (λ _, ())
           [mkRow "a" 0 "2=" "AC" "II"; mkRow "b" 1 "2=" "CG" "II";
            mkRow "c" 0 "2=" "AC" "II"]
           false (Some 1) 3 _ (list_to_map [(0, 0); (1, 1); (2, 1)])).
  vm_compute. reflexivity.
Defined.

(** ** When [get_frequencies] returns *)

Lemma for_each_Returned_Forall {A S} (body : S → A → outcome S)
    (P : A → Prop) :
  (∀ s x s', body s x = Returned s' → P x) →
  ∀ l s s', for_each body s l = Returned s' → Forall P l.
Proof.
  intros Hbody. induction l as [|x l IH]; intros s s'; simpl; [constructor|].
  intros (s1 & H1 & Hrest)%bind_Returned_inv.
  constructor; [by eapply Hbody|by eapply IH].
Qed.

Lemma count_row_Returned {Label} (coverage : gmap Z Z) (row : ResRow Label)
    counts counts' :
  count_row coverage counts row = Returned counts' →
  countable_row coverage row.
Proof.
  unfold count_row. intros Hrow.
  apply (for_each_Returned_Forall _
           (λ id, is_Some (mutations row !! id.1)
                  ∧ is_Some (coverage !! pos id.2))) in Hrow.
  - rewrite Forall_forall in Hrow. split.
    + destruct (diff row) as [|d0 ds] eqn:Hdiff using rev_ind; [simpl; lia|].
      clear IHds.
      destruct (Hrow (length ds, d0)) as [Hlab _].
      { apply elem_of_lookup_imap. exists (length ds), d0. split; [done|].
        by apply list_lookup_middle. }
      apply lookup_lt_is_Some in Hlab. rewrite length_app. simpl in *. lia.
    + apply Forall_forall. intros d [i Hi]%list_elem_of_lookup.
      destruct (Hrow (i, d)) as [_ Hpos]; [|done].
      apply elem_of_lookup_imap. eauto.
  - intros s [i d] s' (lab & denom & Hlab & Hcov & _)%count_diff_Returned.
    split; by eexists.
Qed.

Lemma get_frequencies_returned {Label} (res : list (ResRow Label))
    (coverage : gmap Z Z) :
  returned (get_frequencies res coverage)
  ↔ Forall (countable_row coverage) res.
Proof.
  split.
  - intros [counts Hcounts]. unfold get_frequencies in Hcounts.
    apply (for_each_Returned_Forall _ (countable_row coverage)) in Hcounts;
      [done|].
    intros s row s'. apply count_row_Returned.
  - intros Hres.
    destruct (for_each_returns (count_row coverage) (only_covered coverage)
                (countable_row coverage) res
                (λ s x Hs Hx, count_row_only_covered coverage x s Hs Hx) ∅)
      as (counts & Hcounts & _); [|done|by exists counts].
    intros p [? Hp]. by rewrite lookup_empty in Hp.
Qed.

(** X21: [get_frequencies] returns exactly when every row has a label for
    each of its diffs and the depth table has an entry for the position of
    each diff; it raises otherwise ([IndexError] for the label,
    [KeyError] for the position). *)
Theorem X21_get_frequencies_returns {Label : Type} (res : list (ResRow Label))
    (coverage : gmap Z Z) :
  returned (get_frequencies res coverage)
  ↔ Forall (λ row, (length (diff row) ≤ length (mutations row))%nat
                   ∧ Forall (λ d, is_Some (coverage !! pos d)) (diff row)) res.
Proof. apply get_frequencies_returned. Qed.

Lemma for_each_raises_only {A S} (body : S → A → outcome S) (e : exn)
    (P : A → Prop) (l : list A) :
  (∀ s x, P x → raises_only e (body s x)) →
  Forall P l → ∀ s, raises_only e (for_each body s l).
Proof.
  intros Hbody. induction 1 as [|x l Hx _ IH]; intros s; simpl.
  - left. by eexists.
  - destruct (Hbody s x Hx) as [[s1 ->]| ->]; simpl; [apply IH|by right].
Qed.

Lemma count_diff_raises_only {Label} (coverage : gmap Z Z)
    (row : ResRow Label) counts i d :
  is_Some (mutations row !! i) →
  raises_only KeyError (count_diff coverage row counts (i, d)).
Proof.
  intros [lab Hlab].
  destruct (coverage !! pos d) as [denom|] eqn:Hcov.
  - left. destruct (decide (denom = 0)) as [->|Hdenom].
    + rewrite (count_diff_zero _ _ _ _ _ lab) by done. by eexists.
    + rewrite (count_diff_nonzero _ _ _ _ _ lab denom) by done. by eexists.
  - right. unfold count_diff, Py.index, Py.getitem. by rewrite Hlab, Hcov.
Qed.

Lemma get_frequencies_raises_only {Label} (res : list (ResRow Label))
    (coverage : gmap Z Z) :
  Forall (λ row, (length (diff row) ≤ length (mutations row))%nat) res →
  raises_only KeyError (get_frequencies res coverage).
Proof.
  intros Hres. unfold get_frequencies.
  eapply for_each_raises_only; [|exact Hres].
  intros counts0 row Hrow. simpl in Hrow. unfold count_row.
  apply (for_each_raises_only _ _
           (λ id, is_Some (mutations row !! id.1))).
  - intros counts [i d]. apply count_diff_raises_only.
  - apply Forall_forall. intros [i d] (j & d' & [= -> ->] & Hj)%elem_of_lookup_imap.
    apply lookup_lt_is_Some. apply lookup_lt_Some in Hj. simpl. lia.
Qed.

(** X22: on what [parse_mm2] returns, [get_frequencies] never fails for
    want of a label: it returns exactly when every diff lies at a position
    from 0 to [maxpos - 1], and raises [KeyError] otherwise. *)
Theorem X22_frequencies_of_parse_mm2 {Label : Type}
    (parse_mutation : Diff → Label) {order : SetOrder} (mm2 : list Row)
    (paired : bool) (stop : option Z) (maxpos : Z)
    (rows : list (ResRow Label)) (tc : gmap Z Z) :
  parse_mm2 parse_mutation mm2 paired stop maxpos = Returned (rows, tc) →
  (returned (get_frequencies rows tc)
   ↔ ∀ row d, row ∈ rows → d ∈ diff row → 0 ≤ pos d < maxpos)
  ∧ raises_only KeyError (get_frequencies rows tc).
Proof.
  intros [(_ & Hrows & Hkeys & _) _]%parse_mm2_Returned. simpl in *.
  rewrite Forall_forall in Hrows. split.
  - rewrite get_frequencies_returned, Forall_forall. split.
    + intros Hall row d Hrow Hd. destruct (Hall row Hrow) as [_ Hpos].
      rewrite Forall_forall in Hpos. by apply Hkeys, Hpos.
    + intros Hall row Hrow. split.
      * rewrite (Hrows row Hrow), length_fmap. done.
      * apply Forall_forall. intros d Hd. apply Hkeys. by eapply Hall.
  - apply get_frequencies_raises_only, Forall_forall. intros row Hrow.
    rewrite (Hrows row Hrow), length_fmap. done.
Qed.

Lemma X22_frequencies_of_parse_mm2_witness :
  (returned (get_frequencies [mkRes [Substitution 1 "T"] ["~2T"]]
               (list_to_map [(0, 1); (1, 1); (2, 1)]))
   ↔ ∀ row d, row ∈ [mkRes [Substitution 1 "T"] ["~2T"]] → d ∈ diff row →
              0 ≤ pos d < 3)
  ∧ raises_only KeyError
      (get_frequencies [mkRes [Substitution 1 "T"] ["~2T"]]
         (list_to_map [(0, 1); (1, 1); (2, 1)])).
Proof.
  apply (X22_frequencies_of_parse_mm2 (order := first_seen_order) canonical_key
           [mkRow "a" 0 "1=1X1=" "ATA" "III"; mkRow "a" 0 "1=1X1=" "ATA" "III"]
           true None 3).
  vm_compute. reflexivity.
Defined.

(** ** [minimap2]: which lines become rows *)

Section minimap2_properties.
Variables (int : string → option Z) (report : Z).

Lemma read_line_Mapped (line : string) (row : Row) :
  read_line int line = Mapped row →
  line ≠ EmptyString
  ∧ PyStr.startswith "@" line = false
  ∧ ∃ qname flag rname rpos mapq cigar rnext pnext tlen seq qual f r,
      take 11 (PyStr.split tab (PyStr.strip newline line))
      = [qname; flag; rname; rpos; mapq; cigar; rnext; pnext; tlen; seq; qual]
      ∧ rname ≠ "*"
      ∧ int flag = Some f ∧ Z.land f 0x800 = 0
      ∧ int rpos = Some r
      ∧ row = mkRow qname (r - 1) cigar seq qual.
Proof.
  unfold read_line.
  destruct (bool_decide (line = EmptyString)) eqn:Hempty; [done|].
  destruct (PyStr.startswith "@" line) eqn:Hat; [done|]. simpl.
  apply bool_decide_eq_false in Hempty.
  destruct (take 11 _) as [|qname [|flag [|rname [|rpos [|mapq [|cigar
    [|rnext [|pnext [|tlen [|seq [|qual [|]]]]]]]]]]]]; try done.
  case_decide; [done|].
  destruct (int flag) as [f|] eqn:Hflag; [|done].
  case_decide as Hbit; [done|].
  destruct (int rpos) as [r|] eqn:Hrpos; [|done].
  intros [= <-]. split; [done|]. split; [done|].
  exists qname, flag, rname, rpos, mapq, cigar, rnext, pnext, tlen, seq, qual, f, r.
  repeat split; done.
Qed.

Lemma yielded_app (events1 events2 : list event) :
  yielded (events1 ++ events2) = yielded events1 ++ yielded events2.
Proof. unfold yielded. apply omap_app. Qed.

Lemma minimap2_from_step (ln bad : Z) (line : string) (output : list string) :
  report ≠ 0 →
  ∃ reports,
    yielded reports = []
    ∧ minimap2_from int report ln bad (line :: output)
      = match read_line int line with
        | Header =>
            (reports ++ (minimap2_from int report (ln + 1) bad output).1,
             (minimap2_from int report (ln + 1) bad output).2)
        | Unmapped =>
            (reports ++ (minimap2_from int report (ln + 1) (bad + 1) output).1,
             (minimap2_from int report (ln + 1) (bad + 1) output).2)
        | Mapped row =>
            (reports
               ++ Yield row :: (minimap2_from int report (ln + 1) bad output).1,
             (minimap2_from int report (ln + 1) bad output).2)
        | Malformed => (reports, ValueError)
        end.
Proof.
  intros Hreport.
  exists (if decide (ln `mod` report = 0 ∧ ln > 0) then [Report ln bad] else []).
  split; [by case_decide|].
  cbn [minimap2_from]. rewrite decide_False by done.
  destruct (read_line int line); try done;
    by destruct (minimap2_from int report _ _ output).
Qed.

(** The rows that are yielded, whatever the way the generator ends. *)
Lemma yielded_from (output : list string) :
  ∀ ln bad row,
    row ∈ yielded (minimap2_from int report ln bad output).1 →
    ∃ line, line ∈ output ∧ read_line int line = Mapped row.
Proof.
  induction output as [|line output IH]; intros ln bad row.
  - simpl. by intros ?%elem_of_nil.
  - destruct (decide (report = 0)) as [Hzero|Hreport].
    { cbn [minimap2_from]. rewrite decide_True by done.
      simpl. by intros ?%elem_of_nil. }
    destruct (minimap2_from_step ln bad line output Hreport)
      as (reports & Hreports & ->).
    destruct (read_line int line) as [| |row'|] eqn:Hline; simpl;
      rewrite ?yielded_app, Hreports; simpl.
    + intros (l & ? & ?)%IH. exists l. split; [by right|done].
    + intros (l & ? & ?)%IH. exists l. split; [by right|done].
    + intros [->|(l & ? & ?)%IH]%elem_of_cons.
      * exists line. split; [left|done].
      * exists l. split; [by right|done].
    + by intros ?%elem_of_nil.
Qed.

(** The events of a stream without a malformed line. *)
Lemma minimap2_from_exhausted (output : list string) :
  report ≠ 0 →
  Forall (λ line, read_line int line ≠ Malformed) output →
  ∀ ln bad,
    (minimap2_from int report ln bad output).2 = Exhausted
    ∧ yielded (minimap2_from int report ln bad output).1
      = omap (λ line, mapped_row (read_line int line)) output.
Proof.
  intros Hreport. induction 1 as [|line output Hline _ IH]; intros ln bad.
  - done.
  - destruct (minimap2_from_step ln bad line output Hreport)
      as (reports & Hreports & ->).
    cbn [omap list_omap].
    destruct (read_line int line) as [| |row'|] eqn:Hkind; simpl;
      try done; rewrite yielded_app, Hreports; simpl.
    + apply IH.
    + apply IH.
    + destruct (IH (ln + 1) bad) as [-> ->]. done.
Qed.

End minimap2_properties.

(** X23: every row that [minimap2] yields comes from a line of the output
    that is not empty and does not start with [@], that has 11 fields or
    more, whose reference name is not [*] and whose flag has the bit 0x800
    clear; the row holds the fields 0, 5, 9 and 10 of the line and the
    field 3 less 1. *)
Theorem X23_minimap2_rows (int : string → option Z) (report : Z)
    (output : list string) (row : Row) :
  row ∈ yielded (minimap2 int report output).1 →
  ∃ line qname flag rname rpos mapq cigar rnext pnext tlen seq qual f r,
    line ∈ output
    ∧ line ≠ EmptyString
    ∧ PyStr.startswith "@" line = false
    ∧ take 11 (PyStr.split tab (PyStr.strip newline line))
      = [qname; flag; rname; rpos; mapq; cigar; rnext; pnext; tlen; seq; qual]
    ∧ rname ≠ "*"
    ∧ int flag = Some f ∧ Z.land f 0x800 = 0
    ∧ int rpos = Some r
    ∧ row = mkRow qname (r - 1) cigar seq qual.
Proof.
  intros (line & Hline & Hkind)%yielded_from.
  apply read_line_Mapped in Hkind
    as (Hne & Hat & qname & flag & rname & rpos & mapq & cigar & rnext
        & pnext & tlen & seq & qual & f & r & Hfields & Hrest).
  exists line, qname, flag, rname, rpos, mapq, cigar, rnext, pnext, tlen,
    seq, qual, f, r.
  by repeat split; try tauto.
Qed.

(** X24: with a reporting frequency other than 0 and no malformed line
    (fewer than 11 fields, or a flag or a position that [int] rejects), the
    generator is exhausted without an exception, and it yields the rows of
    the mapped lines, in the order of the lines. *)
Theorem X24_minimap2_exhausted (int : string → option Z) (report : Z)
    (output : list string) :
  report ≠ 0 →
  Forall (λ line, read_line int line ≠ Malformed) output →
  (minimap2 int report output).2 = Exhausted
  ∧ yielded (minimap2 int report output).1
    = omap (λ line, mapped_row (read_line int line)) output.
Proof. intros Hreport Hlines. by apply minimap2_from_exhausted. Qed.

Lemma X23_minimap2_rows_witness :
  ∃ line qname flag rname rpos mapq cigar rnext pnext tlen seq qual f r,
    line ∈ [String "@" "HD"; PyStr.join tab example_line +:+ Py.chr newline]
    ∧ line ≠ EmptyString
    ∧ PyStr.startswith "@" line = false
    ∧ take 11 (PyStr.split tab (PyStr.strip newline line))
      = [qname; flag; rname; rpos; mapq; cigar; rnext; pnext; tlen; seq; qual]
    ∧ rname ≠ "*"
    ∧ int_of_digits flag = Some f ∧ Z.land f 0x800 = 0
    ∧ int_of_digits rpos = Some r
    ∧ mkRow "q1" 100 "5=" "ACGTA" "IIIII" = mkRow qname (r - 1) cigar seq qual.
Proof.
  apply (X23_minimap2_rows int_of_digits 100000
           [String "@" "HD"; PyStr.join tab example_line +:+ Py.chr newline]
           (mkRow "q1" 100 "5=" "ACGTA" "IIIII")).
  vm_compute. left.
Defined.

Lemma X24_minimap2_exhausted_witness :
  (minimap2 int_of_digits 100000
     [String "@" "HD"; PyStr.join tab example_line +:+ Py.chr newline]).2
  = Exhausted
  ∧ yielded
      (minimap2 int_of_digits 100000
         [String "@" "HD"; PyStr.join tab example_line +:+ Py.chr newline]).1
    = omap (λ line, mapped_row (read_line int_of_digits line))
        [String "@" "HD"; PyStr.join tab example_line +:+ Py.chr newline].
Proof.
  apply (X24_minimap2_exhausted int_of_digits 100000
           [String "@" "HD"; PyStr.join tab example_line +:+ Py.chr newline]).
  - lia.
  - repeat first [ apply Forall_nil_2 | apply Forall_cons_2 ];
      vm_compute; discriminate.
Defined.

(** ** Lines of SAM *)

Lemma append_empty_l (s : string) : EmptyString +:+ s = s.
Proof. reflexivity. Qed.

Lemma split_from_field (c : ascii) (s rest : string) :
  Py.char_in c s = false →
  ∀ field,
    PyStr.split_from c field (s +:+ String c rest)
    = (field +:+ s) :: PyStr.split c rest.
Proof.
  induction s as [|c' s IH]; intros Hs field.
  - rewrite append_empty_l, append_empty_r. cbn [PyStr.split_from].
    by rewrite decide_True.
  - simpl in Hs. case_decide as Hc; [done|].
    rewrite append_cons. cbn [PyStr.split_from].
    rewrite decide_False by congruence.
    rewrite (IH Hs). unfold Py.chr. by rewrite append_assoc.
Qed.

Lemma split_from_last (c : ascii) (s : string) :
  Py.char_in c s = false →
  ∀ field, PyStr.split_from c field s = [field +:+ s].
Proof.
  induction s as [|c' s IH]; intros Hs field.
  - by rewrite append_empty_r.
  - simpl in Hs. case_decide as Hc; [done|].
    cbn [PyStr.split_from]. rewrite decide_False by congruence.
    rewrite (IH Hs). unfold Py.chr. by rewrite append_assoc.
Qed.

Lemma join_cons (c : ascii) (field field' : string) (fields : list string) :
  PyStr.join c (field :: field' :: fields)
  = field +:+ String c (PyStr.join c (field' :: fields)).
Proof. reflexivity. Qed.

(** [c.join(fields).split(c)] gives the fields back when none holds [c]
    and there is one at least. *)
Lemma split_join (c : ascii) (fields : list string) :
  fields ≠ [] →
  Forall (λ field, Py.char_in c field = false) fields →
  PyStr.split c (PyStr.join c fields) = fields.
Proof.
  intros Hne Hfields. induction Hfields as [|field fields Hfield Hrest IH];
    [done|].
  destruct fields as [|field' fields].
  - unfold PyStr.split. simpl. by rewrite split_from_last.
  - rewrite join_cons. unfold PyStr.split at 1.
    rewrite split_from_field by done. rewrite IH by done. done.
Qed.

Lemma char_in_append (c : ascii) (s1 s2 : string) :
  Py.char_in c (s1 +:+ s2) = Py.char_in c s1 || Py.char_in c s2.
Proof.
  induction s1 as [|c' s1 IH]; [done|].
  rewrite append_cons. simpl. by case_decide.
Qed.

Lemma char_in_join (c sep : ascii) (fields : list string) :
  c ≠ sep →
  Forall (λ field, Py.char_in c field = false) fields →
  Py.char_in c (PyStr.join sep fields) = false.
Proof.
  intros Hsep. induction 1 as [|field fields Hfield Hrest IH]; [done|].
  destruct fields as [|field' fields]; [done|].
  rewrite join_cons, char_in_append, Hfield. simpl.
  by rewrite decide_False.
Qed.

Lemma rstrip_end (c : ascii) (s : string) :
  Py.char_in c s = false → PyStr.rstrip c (s +:+ Py.chr c) = s.
Proof.
  induction s as [|c' s IH]; intros Hs.
  - rewrite append_empty_l. simpl. by rewrite decide_True.
  - simpl in Hs. case_decide as Hc; [done|].
    rewrite append_cons. cbn [PyStr.rstrip]. rewrite (IH Hs).
    rewrite decide_False; [done|]. intros [? _]. congruence.
Qed.

(** [(s + c).strip(c)] is [s] when [s] does not hold [c]. *)
Lemma strip_end (c : ascii) (s : string) :
  Py.char_in c s = false → PyStr.strip c (s +:+ Py.chr c) = s.
Proof.
  intros Hs. unfold PyStr.strip. destruct s as [|c' s].
  - rewrite append_empty_l. simpl. by rewrite decide_True.
  - assert (c' ≠ c) as Hc.
    { simpl in Hs. case_decide; [done|congruence]. }
    rewrite append_cons. cbn [PyStr.lstrip]. rewrite decide_False by done.
    rewrite <- append_cons. by apply rstrip_end.
Qed.

Lemma startswith_char_append (c sep : ascii) (s rest : string) :
  c ≠ sep →
  PyStr.startswith (Py.chr c) s = false →
  PyStr.startswith (Py.chr c) (s +:+ String sep rest) = false.
Proof.
  intros Hsep. destruct s as [|c' s].
  - intros _. rewrite append_empty_l. simpl. by rewrite decide_False.
  - rewrite append_cons. simpl. by case_decide.
Qed.

Lemma append_nonempty (s : string) (c : ascii) (rest : string) :
  s +:+ String c rest ≠ EmptyString.
Proof. destruct s; [by rewrite append_empty_l|by rewrite append_cons]. Qed.

(** The fields of a line written with tabs and ended by a newline. *)
Lemma line_fields (field : string) (fields : list string) :
  Forall (λ field, Py.char_in tab field = false
                   ∧ Py.char_in newline field = false) (field :: fields) →
  PyStr.split tab
    (PyStr.strip newline (PyStr.join tab (field :: fields) +:+ Py.chr newline))
  = field :: fields.
Proof.
  intros Hfields.
  rewrite strip_end.
  - apply split_join; [done|]. eapply Forall_impl; [exact Hfields|].
    by intros ? [? ?].
  - apply char_in_join; [done|]. eapply Forall_impl; [exact Hfields|].
    by intros ? [? ?].
Qed.

Lemma line_not_header (field : string) (fields : list string) :
  PyStr.startswith "@" field = false →
  bool_decide (PyStr.join tab (field :: fields) +:+ Py.chr newline = EmptyString)
  || PyStr.startswith "@" (PyStr.join tab (field :: fields) +:+ Py.chr newline)
  = false.
Proof.
  intros Hfield. rewrite bool_decide_eq_false_2 by apply append_nonempty.
  cbn [orb]. destruct fields as [|field' fields].
  - by apply (startswith_char_append "@" newline).
  - rewrite join_cons, append_assoc, append_cons.
    by apply (startswith_char_append "@" tab).
Qed.

(** X25: a line of SAM read back.  Eleven fields or more, none of which
    holds a tab or a newline, written with tabs between them and a newline
    at the end, with a name that does not start with [@], a reference name
    other than [*], a flag with the bit 0x800 clear and a position that
    [int] accepts, are read as the row of the name, the position less 1,
    the CIGAR string, the sequence and the qualities; the optional fields
    after the eleventh are dropped. *)
Theorem X25_read_line_join (int : string → option Z)
    (qname flag rname rpos mapq cigar rnext pnext tlen seq qual : string)
    (tags : list string) (f r : Z) :
  Forall (λ field, Py.char_in tab field = false
                   ∧ Py.char_in newline field = false)
    ([qname; flag; rname; rpos; mapq; cigar; rnext; pnext; tlen; seq; qual]
       ++ tags) →
  PyStr.startswith "@" qname = false →
  rname ≠ "*" →
  int flag = Some f →
  Z.land f 0x800 = 0 →
  int rpos = Some r →
  read_line int
    (PyStr.join tab
       ([qname; flag; rname; rpos; mapq; cigar; rnext; pnext; tlen; seq; qual]
          ++ tags)
     +:+ Py.chr newline)
  = Mapped (mkRow qname (r - 1) cigar seq qual).
Proof.
  intros Hfields Hqname Hrname Hflag Hbit Hrpos.
  unfold read_line.
  cbn [app] in *.
  rewrite line_not_header by done.
  rewrite line_fields by done.
  cbn [take].
  rewrite decide_False by done. rewrite Hflag.
  rewrite decide_False by (intros Hbit'; by apply Hbit'). by rewrite Hrpos.
Qed.

Lemma X25_read_line_join_witness :
  read_line int_of_digits
    (PyStr.join tab
       (["q1"; "99"; "NC_045512"; "101"; "60"; "5="; "="; "200"; "100";
         "ACGTA"; "IIIII"] ++ ["NM:i:0"])
     +:+ Py.chr newline)
  = Mapped (mkRow "q1" (101 - 1) "5=" "ACGTA" "IIIII").
Proof.
  apply (X25_read_line_join int_of_digits
           "q1" "99" "NC_045512" "101" "60" "5=" "=" "200" "100"
           "ACGTA" "IIIII" ["NM:i:0"] 99 101).
  - repeat first [ apply Forall_nil_2 | apply Forall_cons_2 ];
      vm_compute; by split.
  - reflexivity.
  - discriminate.
  - reflexivity.
  - reflexivity.
  - reflexivity.
Defined.

(** X26: a line that is no header and has fewer than 11 fields cannot be
    unpacked: whatever its fields hold and whatever [int] accepts, the
    generator ends there with [ValueError]. *)
Theorem X26_short_line (int : string → option Z) (field : string)
    (fields : list string) :
  Forall (λ field, Py.char_in tab field = false
                   ∧ Py.char_in newline field = false) (field :: fields) →
  PyStr.startswith "@" field = false →
  (length (field :: fields) < 11)%nat →
  read_line int (PyStr.join tab (field :: fields) +:+ Py.chr newline)
  = Malformed.
Proof.
  intros Hfields Hfield Hlen.
  unfold read_line.
  rewrite line_not_header by done.
  rewrite line_fields by done.
  rewrite take_ge by lia.
  do 10 (destruct fields as [|? fields]; [done|]).
  simpl in Hlen. lia.
Qed.

Lemma X26_short_line_witness :
  read_line int_of_digits
    (PyStr.join tab ["q1"; "99"; "NC_045512"; "101"] +:+ Py.chr newline)
  = Malformed.
Proof.
  apply (X26_short_line int_of_digits "q1" ["99"; "NC_045512"; "101"]).
  - repeat first [ apply Forall_nil_2 | apply Forall_cons_2 ];
      vm_compute; by split.
  - reflexivity.
  - simpl. lia.
Defined.

Section minimap2_errors.
Variables (int : string → option Z) (report : Z).

Lemma minimap2_from_malformed (before : list string) (line : string)
    (after : list string) :
  report ≠ 0 →
  Forall (λ line, read_line int line ≠ Malformed) before →
  read_line int line = Malformed →
  ∀ ln bad,
    (minimap2_from int report ln bad (before ++ line :: after)).2 = ValueError
    ∧ yielded (minimap2_from int report ln bad (before ++ line :: after)).1
      = omap (λ line, mapped_row (read_line int line)) before.
Proof.
  intros Hreport Hbefore Hline.
  induction Hbefore as [|line' before Hline' _ IH]; intros ln bad.
  - cbn [app].
    destruct (minimap2_from_step int report ln bad line after Hreport)
      as (reports & Hreports & ->).
    rewrite Hline. done.
  - cbn [app].
    destruct (minimap2_from_step int report ln bad line'
                (before ++ line :: after) Hreport)
      as (reports & Hreports & ->).
    cbn [omap list_omap].
    destruct (read_line int line') as [| |row'|] eqn:Hkind; simpl;
      try done; rewrite yielded_app, Hreports; simpl.
    + apply IH.
    + apply IH.
    + destruct (IH (ln + 1) bad) as [-> ->]. done.
Qed.

End minimap2_errors.

(** X27: at the first malformed line the generator raises [ValueError];
    the rows of the mapped lines before it have been yielded already, in
    the order of the lines, and no line after it is read. *)
Theorem X27_minimap2_value_error (int : string → option Z) (report : Z)
    (before : list string) (line : string) (after : list string) :
  report ≠ 0 →
  Forall (λ line, read_line int line ≠ Malformed) before →
  read_line int line = Malformed →
  (minimap2 int report (before ++ line :: after)).2 = ValueError
  ∧ yielded (minimap2 int report (before ++ line :: after)).1
    = omap (λ line, mapped_row (read_line int line)) before.
Proof. intros Hreport Hbefore Hline. by apply minimap2_from_malformed. Qed.

Lemma X27_minimap2_value_error_witness :
  (minimap2 int_of_digits 100000
     ([PyStr.join tab example_line +:+ Py.chr newline]
        ++ "q2" :: [PyStr.join tab example_line +:+ Py.chr newline])).2
  = ValueError
  ∧ yielded
      (minimap2 int_of_digits 100000
         ([PyStr.join tab example_line +:+ Py.chr newline]
            ++ "q2" :: [PyStr.join tab example_line +:+ Py.chr newline])).1
    = omap (λ line, mapped_row (read_line int_of_digits line))
        [PyStr.join tab example_line +:+ Py.chr newline].
Proof.
  apply (X27_minimap2_value_error int_of_digits 100000
           [PyStr.join tab example_line +:+ Py.chr newline] "q2"
           [PyStr.join tab example_line +:+ Py.chr newline]).
  - lia.
  - repeat first [ apply Forall_nil_2 | apply Forall_cons_2 ];
      vm_compute; discriminate.
  - reflexivity.
Defined.

(** ** process.py: which runs are processed *)

Lemma startswith_spec (prefix s : string) :
  PyStr.startswith prefix s = true ↔ ∃ post, s = prefix +:+ post.
Proof.
  revert s. induction prefix as [|c prefix IH]; intros s.
  - split; [intros _; by exists s|done].
  - destruct s as [|c' s]; simpl.
    + split; [done|]. intros [post Hpost]. by rewrite append_cons in Hpost.
    + case_decide as Hc.
      * subst c'. rewrite IH. split; intros [post Hpost]; exists post.
        -- by rewrite append_cons, Hpost.
        -- rewrite append_cons in Hpost. congruence.
      * split; [done|]. intros [post Hpost].
        rewrite append_cons in Hpost. congruence.
Qed.

Lemma contains_unfold (sub s : string) :
  PyStr.contains sub s
  = if PyStr.startswith sub s then true
    else match s with
         | EmptyString => false
         | String _ s' => PyStr.contains sub s'
         end.
Proof. by destruct s. Qed.

(** [sub in s] holds when [s] is [sub] between two strings. *)
Lemma contains_spec (sub s : string) :
  PyStr.contains sub s = true ↔ ∃ pre post, s = pre +:+ (sub +:+ post).
Proof.
  split.
  - induction s as [|c s IH]; rewrite contains_unfold;
      destruct (PyStr.startswith sub _) eqn:Hstart.
    + apply startswith_spec in Hstart as [post ->]. by exists EmptyString, post.
    + done.
    + apply startswith_spec in Hstart as [post ->]. by exists EmptyString, post.
    + intros (pre & post & ->)%IH. exists (String c pre), post.
      by rewrite append_cons.
  - intros (pre & post & ->). induction pre as [|c pre IH].
    + rewrite append_empty_l, contains_unfold.
      by rewrite (proj2 (startswith_spec sub (sub +:+ post)))
        by by exists post.
    + rewrite append_cons, contains_unfold.
      by destruct (PyStr.startswith sub _).
Qed.

(** X28: [contains_run] is true when the name of one directory of the list
    occurs somewhere in the path of the run: between any two strings, and
    not only as one of its components. *)
Theorem X28_contains_run (run : string) (usr_list : list string) :
  contains_run run usr_list = true
  ↔ ∃ directory pre post,
      directory ∈ usr_list ∧ run = pre +:+ (directory +:+ post).
Proof.
  induction usr_list as [|directory usr_list IH]; simpl.
  - split; [done|]. by intros (? & ? & ? & ?%elem_of_nil & _).
  - destruct (PyStr.contains directory run) eqn:Hin.
    + split; [intros _|done].
      apply contains_spec in Hin as (pre & post & ->).
      exists directory, pre, post. split; [left|done].
    + rewrite IH. split.
      * intros (d & pre & post & Hd & ->). exists d, pre, post.
        split; [by right|done].
      * intros (d & pre & post & [->|Hd]%elem_of_cons & ->).
        -- rewrite (proj2 (contains_spec directory _)) in Hin
             by by exists pre, post.
           done.
        -- by exists d, pre, post.
Qed.

Section get_runs_properties.
Variables (os_path_split : string → string * string).
Variables (ignore_list runs_list : list string).

(** What the loop over the files adds to the two sets. *)
Lemma get_runs_loop (paths : list string) :
  ∀ sets path,
    (path ∈ (foldl (get_runs_file os_path_split ignore_list runs_list)
               sets paths).1
     ↔ path ∈ sets.1
       ∨ ∃ file, file ∈ paths
           ∧ (os_path_split file).1 = path
           ∧ contains_run path ignore_list = false
           ∧ (runs_list = [] ∨ contains_run path runs_list = true))
    ∧ (path ∈ (foldl (get_runs_file os_path_split ignore_list runs_list)
                 sets paths).2
       ↔ path ∈ sets.2
         ∨ ∃ file, file ∈ paths
             ∧ (os_path_split file).1 = path
             ∧ contains_run path ignore_list = true).
Proof.
  induction paths as [|file paths IH]; intros sets path.
  - simpl. split; (split; [by left|]);
      by intros [?|(? & ?%elem_of_nil & _)].
  - cbn [foldl]. destruct (IH (get_runs_file os_path_split ignore_list
                                 runs_list sets file) path) as [-> ->].
    unfold get_runs_file.
    destruct (os_path_split file) as [dir filename] eqn:Hsplit.
    assert (∀ P : string → Prop,
              (∃ file', file' ∈ file :: paths
                 ∧ (os_path_split file').1 = path ∧ P path)
              ↔ (dir = path ∧ P path)
                ∨ ∃ file', file' ∈ paths
                    ∧ (os_path_split file').1 = path ∧ P path) as Hcons.
    { intros P. split.
      - intros (file' & [->|Hin]%elem_of_cons & Hdir & HP).
        + left. rewrite Hsplit in Hdir. done.
        + right. by exists file'.
      - intros [[Hdir HP]|(file' & Hin & Hdir & HP)].
        + exists file. rewrite Hsplit. split; [left|done].
        + exists file'. split; [by right|done]. }
    rewrite (Hcons (λ path, contains_run path ignore_list = false
                            ∧ (runs_list = []
                               ∨ contains_run path runs_list = true))).
    rewrite (Hcons (λ path, contains_run path ignore_list = true)).
    destruct (contains_run dir ignore_list) eqn:Hignore; simpl.
    { rewrite elem_of_union, elem_of_singleton. split.
      - split; [tauto|]. intros [?|[[<- [? _]]|?]]; [tauto|congruence|tauto].
      - split; [intros [[->|?]|?]; tauto|].
        intros [?|[[<- _]|?]]; tauto. }
    destruct (bool_decide (length runs_list = 0%nat)
              || contains_run dir runs_list) eqn:Hwanted; simpl.
    { rewrite elem_of_union, elem_of_singleton. split.
      - split; [intros [[->|?]|?]; [|tauto|tauto]|].
        + right. left. split; [done|]. split; [done|].
          apply orb_true_iff in Hwanted as [Hlen%bool_decide_eq_true|?];
            [left; by destruct runs_list|by right].
        + intros [?|[[<- _]|?]]; tauto.
      - split; [tauto|]. intros [?|[[<- ?]|?]]; [tauto|congruence|tauto]. }
    apply orb_false_iff in Hwanted as [Hlen%bool_decide_eq_false Hrun].
    split.
    + split; [tauto|]. intros [?|[[<- [_ [->|?]]]|?]];
        [tauto|done|congruence|tauto].
    + split; [tauto|]. intros [?|[[<- ?]|?]]; [tauto|congruence|tauto].
Qed.

End get_runs_properties.

(** X29: [get_runs] returns the directories of the files whose directory
    matches no entry of the ignore list and, when the list of runs is not
    empty, matches one of its entries; the callback is told the directories
    that match the ignore list.  With the default callback [None] the call
    raises [TypeError] exactly when one file at least is ignored. *)
Theorem X29_get_runs (os_path_split : string → string * string)
    (callback : bool) (paths ignore_list runs_list : list string) :
  match get_runs os_path_split callback paths ignore_list runs_list with
  | Runs runs ignored =>
      (∀ path,
         path ∈ runs
         ↔ ∃ file, file ∈ paths
             ∧ (os_path_split file).1 = path
             ∧ contains_run path ignore_list = false
             ∧ (runs_list = [] ∨ contains_run path runs_list = true))
      ∧ (∀ path,
           path ∈ ignored
           ↔ ∃ file, file ∈ paths
               ∧ (os_path_split file).1 = path
               ∧ contains_run path ignore_list = true)
      ∧ (callback = false → ignored = ∅)
  | TypeError =>
      callback = false
      ∧ ∃ file, file ∈ paths
          ∧ contains_run (os_path_split file).1 ignore_list = true
  end.
Proof.
  unfold get_runs.
  pose proof (get_runs_loop os_path_split ignore_list runs_list paths (∅, ∅))
    as Hloop.
  destruct (foldl _ _ paths) as [runs ignored]. simpl in Hloop.
  assert (∀ path,
            path ∈ runs
            ↔ ∃ file, file ∈ paths
                ∧ (os_path_split file).1 = path
                ∧ contains_run path ignore_list = false
                ∧ (runs_list = [] ∨ contains_run path runs_list = true))
    as Hruns.
  { intros path. destruct (Hloop path) as [-> _].
    split; [intros [?%elem_of_empty|?]; [done|done]|by right]. }
  assert (∀ path,
            path ∈ ignored
            ↔ ∃ file, file ∈ paths
                ∧ (os_path_split file).1 = path
                ∧ contains_run path ignore_list = true)
    as Hignored.
  { intros path. destruct (Hloop path) as [_ ->].
    split; [intros [?%elem_of_empty|?]; [done|done]|by right]. }
  case_decide as Hempty.
  - done.
  - destruct callback.
    + done.
    + split; [done|].
      apply set_choose_L in Hempty as [path Hpath].
      apply Hignored in Hpath as (file & Hin & <- & Hmatch).
      by exists file.
Qed.
